(** * Table-test converter: slice-of-struct tables to map-keyed tables

    A shallow embedding of the converter [tabletests.go], of the part of
    [go/ast] it inspects and mutates, and of the file-system effects of
    [processFile] and [ConvertTableTests].

    The repository holds two copies of the converter, which share their
    helpers and everything around the three walks of [processFile]:
    - [ByDecl], the first copy, converts tables bound by [var] and [const]
      declarations, finds the variable of a range loop among the top-level
      declarations, and rewrites [t.Run(tc.name, ...)];
    - [ByAssign], the second copy, converts tables bound by assignment
      statements, records their variables in [tableTestVars], and rewrites
      [t.Run] on [tc.name], [tc.desc] and [tc.description]. *)

From Stdlib Require Import ZArith Lia.
From stdpp Require Import base list strings gmap.

#[local] Set Warnings "-register-all".

Local Open Scope string_scope.
Local Open Scope Z_scope.

(** ** Go's [int] (64-bit): addition wraps around *)

Definition int_wrap (z : Z) : Z := (z + 2 ^ 63) mod 2 ^ 64 - 2 ^ 63.
Definition int_add (a b : Z) : Z := int_wrap (a + b).

(** ** The syntax tree ([go/token], [go/ast]) *)

(** The tokens the converter tests for, and the literal kinds. *)
Inductive token : Set :=
| ILLEGAL | INT | FLOAT | IMAG | CHAR | STRING
| ASSIGN | DEFINE | ADD_ASSIGN
| IMPORT | TYPE | VAR | CONST.

Definition token_eqb (a b : token) : bool :=
  match a, b with
  | ILLEGAL, ILLEGAL | INT, INT | FLOAT, FLOAT | IMAG, IMAG | CHAR, CHAR
  | STRING, STRING | ASSIGN, ASSIGN | DEFINE, DEFINE | ADD_ASSIGN, ADD_ASSIGN
  | IMPORT, IMPORT | TYPE, TYPE | VAR, VAR | CONST, CONST => true
  | _, _ => false
  end.

(** [ast.Node]: one constructor per node type the converter asserts on, and
    [Other] for every node type it only walks through (its children in the
    order [ast.Walk] visits them).  A nil pointer field is [None]; identifier
    leaves that no callback looks at ([Sel], [Names]) are kept as strings. *)
Inductive Node : Type :=
| Ident (Name : string)
| BasicLit (Kind : token) (Value : string)
| CompositeLit (Typ : option Node) (Elts : list Node)
| KeyValueExpr (Key Value : Node)
| SelectorExpr (X : Node) (Sel : string)
| CallExpr (Fun : Node) (Args : list Node)
| FuncLit (Typ Body : Node)
| ArrayType (Len : option Node) (Elt : Node)
| StructType (Fields : list Node)
| Field (Names : list string) (Typ : Node)
| MapType (Key Value : Node)
| AssignStmt (Lhs : list Node) (Tok : token) (Rhs : list Node)
| RangeStmt (Key Value : option Node) (X Body : Node)
| BlockStmt (List : list Node)
| GenDecl (Tok : token) (Specs : list Node)
| ValueSpec (Names : list string) (Typ : option Node) (Values : list Node)
| File (Name : string) (Decls : list Node)
| Other (kind : string) (children : list Node).

Definition opt_list {A} (o : option A) : list A :=
  match o with Some a => [a] | None => [] end.

(** The children of a node, in the order [ast.Walk] visits them. *)
Definition children (n : Node) : list Node :=
  match n with
  | Ident _ | BasicLit _ _ => []
  | CompositeLit ty elts => opt_list ty ++ elts
  | KeyValueExpr k v => [k; v]
  | SelectorExpr x _ => [x]
  | CallExpr fn args => fn :: args
  | FuncLit ty body => [ty; body]
  | ArrayType len elt => opt_list len ++ [elt]
  | StructType fields => fields
  | Field _ ty => [ty]
  | MapType k v => [k; v]
  | AssignStmt lhs _ rhs => lhs ++ rhs
  | RangeStmt k v x body => opt_list k ++ opt_list v ++ [x; body]
  | BlockStmt l => l
  | GenDecl _ specs => specs
  | ValueSpec _ ty values => opt_list ty ++ values
  | File _ decls => decls
  | Other _ cs => cs
  end.

(** ** [ast.Inspect]

    [ast.Inspect(node, f)] calls [f] on a node and then walks the children the
    node has once [f] returned, so a callback that rewrites the node in place
    steers the walk into the rewritten children.  Every callback of the
    converter returns [true] (always descend).  The variables the closures
    capture ([modified], [tablesConverted], [tableTestVars]) are the state
    [St] threaded through the walk. *)

Section Walk.
Context {St : Type}.

Definition Visitor : Type := St → Node → St * Node.

Fixpoint mapS (rec : Visitor) (s : St) (l : list Node) : St * list Node :=
  match l with
  | [] => (s, [])
  | n :: l' =>
      let '(s1, n') := rec s n in
      let '(s2, l'') := mapS rec s1 l' in
      (s2, n' :: l'')
  end.

Definition optS (rec : Visitor) (s : St) (o : option Node) : St * option Node :=
  match o with
  | None => (s, None)
  | Some n => let '(s1, n') := rec s n in (s1, Some n')
  end.

(** The walk below a node: [rec] on each child, left to right. *)
Definition descend (rec : Visitor) (s : St) (n : Node) : St * Node :=
  match n with
  | Ident _ | BasicLit _ _ => (s, n)
  | CompositeLit ty elts =>
      let '(s, ty) := optS rec s ty in
      let '(s, elts) := mapS rec s elts in (s, CompositeLit ty elts)
  | KeyValueExpr k v =>
      let '(s, k) := rec s k in
      let '(s, v) := rec s v in (s, KeyValueExpr k v)
  | SelectorExpr x sel =>
      let '(s, x) := rec s x in (s, SelectorExpr x sel)
  | CallExpr fn args =>
      let '(s, fn) := rec s fn in
      let '(s, args) := mapS rec s args in (s, CallExpr fn args)
  | FuncLit ty body =>
      let '(s, ty) := rec s ty in
      let '(s, body) := rec s body in (s, FuncLit ty body)
  | ArrayType len elt =>
      let '(s, len) := optS rec s len in
      let '(s, elt) := rec s elt in (s, ArrayType len elt)
  | StructType fields =>
      let '(s, fields) := mapS rec s fields in (s, StructType fields)
  | Field names ty =>
      let '(s, ty) := rec s ty in (s, Field names ty)
  | MapType k v =>
      let '(s, k) := rec s k in
      let '(s, v) := rec s v in (s, MapType k v)
  | AssignStmt lhs tok rhs =>
      let '(s, lhs) := mapS rec s lhs in
      let '(s, rhs) := mapS rec s rhs in (s, AssignStmt lhs tok rhs)
  | RangeStmt k v x body =>
      let '(s, k) := optS rec s k in
      let '(s, v) := optS rec s v in
      let '(s, x) := rec s x in
      let '(s, body) := rec s body in (s, RangeStmt k v x body)
  | BlockStmt l =>
      let '(s, l) := mapS rec s l in (s, BlockStmt l)
  | GenDecl tok specs =>
      let '(s, specs) := mapS rec s specs in (s, GenDecl tok specs)
  | ValueSpec names ty values =>
      let '(s, ty) := optS rec s ty in
      let '(s, values) := mapS rec s values in (s, ValueSpec names ty values)
  | File name decls =>
      let '(s, decls) := mapS rec s decls in (s, File name decls)
  | Other kind cs =>
      let '(s, cs) := mapS rec s cs in (s, Other kind cs)
  end.

(** The walk with a bound on its depth. *)
Fixpoint InspectN (fuel : nat) (f : Visitor) (s : St) (n : Node) : St * Node :=
  match fuel with
  | O => (s, n)
  | S k => let '(s1, n1) := f s n in descend (InspectN k f) s1 n1
  end.
End Walk.

(** A size under which both table rewrites shrink: the right-hand sides of an
    assignment count twice and the specs of a declaration three times, which
    pays for the wrapper nodes a conversion adds around the rows. *)
Definition sum_with {A} (f : A → nat) : list A → nat :=
  fix go l := match l with [] => O | x :: l' => (f x + go l')%nat end.

Fixpoint weight (n : Node) : nat :=
  match n with
  | Ident _ | BasicLit _ _ => 1
  | CompositeLit ty elts =>
      S (match ty with Some t => weight t | None => O end + sum_with weight elts)
  | KeyValueExpr k v => S (weight k + weight v)
  | SelectorExpr x _ => S (weight x)
  | CallExpr fn args => S (weight fn + sum_with weight args)
  | FuncLit ty body => S (weight ty + weight body)
  | ArrayType len elt =>
      S (match len with Some t => weight t | None => O end + weight elt)
  | StructType fields => S (sum_with weight fields)
  | Field _ ty => S (weight ty)
  | MapType k v => S (weight k + weight v)
  | AssignStmt lhs _ rhs => S (sum_with weight lhs + 2 * sum_with weight rhs)
  | RangeStmt k v x body =>
      S (match k with Some t => weight t | None => O end
         + match v with Some t => weight t | None => O end
         + weight x + weight body)
  | BlockStmt l => S (sum_with weight l)
  | GenDecl _ specs => S (3 * sum_with weight specs)
  | ValueSpec _ ty values =>
      S (match ty with Some t => weight t | None => O end + sum_with weight values)
  | File _ decls => S (sum_with weight decls)
  | Other _ cs => S (sum_with weight cs)
  end.

(** [ast.Inspect]: the depth bound is the size of the tree, which is enough
    for every callback under which the children shrink ([Inspect_eq]). *)
Definition Inspect {St} (f : @Visitor St) (s : St) (n : Node) : St * Node :=
  InspectN (S (weight n)) f s n.

Definition weight_opt (o : option Node) : nat :=
  match o with Some t => weight t | None => O end.

Definition shrinking {St} (f : @Visitor St) : Prop :=
  ∀ s n c, c ∈ children (f s n).2 → (weight c < weight n)%nat.

(** ** Helpers both copies of the converter share *)

Definition isNameFieldName (fieldName : string) : bool :=
  (fieldName =? "name")%string || (fieldName =? "desc")%string
  || (fieldName =? "description")%string.

(** The loop of [findNameField] over [structType.Fields.List], at index [i]:
    a field without names is skipped, otherwise its first name decides. *)
Fixpoint findNameFieldFrom (i : Z) (fields : list Node) : string * Z :=
  match fields with
  | [] => ("", -1)
  | Field (fieldName :: _) _ :: rest =>
      if isNameFieldName fieldName then (fieldName, i)
      else findNameFieldFrom (i + 1) rest
  | _ :: rest => findNameFieldFrom (i + 1) rest
  end.

(** [findNameField]: the name and the index of the first field called
    [name], [desc] or [description]; [("", -1)] when there is none (an
    absent or empty field list is the empty list here). *)
Definition findNameField (structType : Node) : string * Z :=
  match structType with
  | StructType fields => findNameFieldFrom 0 fields
  | _ => ("", -1)
  end.

(** [for i, x := range l { if i != index { out = append(out, x) } }],
    from position [i] on. *)
Fixpoint dropIndexFrom {A} (i index : Z) (l : list A) : list A :=
  match l with
  | [] => []
  | x :: rest =>
      if i =? index then dropIndexFrom (i + 1) index rest
      else x :: dropIndexFrom (i + 1) index rest
  end.

Definition dropIndex {A} (index : Z) (l : list A) : list A :=
  dropIndexFrom 0 index l.

(** [createStructTypeWithoutField]. *)
Definition createStructTypeWithoutField (structType : Node) (fieldIndex : Z) : Node :=
  if fieldIndex <? 0 then structType
  else match structType with
       | StructType fields => StructType (dropIndex fieldIndex fields)
       | _ => structType
       end.

(** [isBlankIdent]; a nil expression is not an identifier. *)
Definition isBlankIdent (expr : option Node) : bool :=
  match expr with
  | Some (Ident name) => (name =? "_")%string
  | _ => false
  end.

Definition isNil {A} (o : option A) : bool :=
  match o with None => true | Some _ => false end.

(** ** The second copy: tables bound by assignment statements *)

Module ByAssign.

(** The variables the three closures of [processFile] capture. *)
Record State : Type := mkState {
  modified : bool;
  tablesConverted : Z;
  tableTestVars : gset string
}.

Definition setModified (s : State) : State :=
  mkState true (tablesConverted s) (tableTestVars s).

(** One round of the loop over [compLit.Elts]: the map entry of a row, or
    nothing when the row is not a composite literal, is too short, or has
    no basic literal at the name position ([continue]).  The index is
    non-negative wherever this is called ([findNameField] found a field). *)
Definition mapEntry (nameFieldIndex : Z) (elt : Node) : option Node :=
  match elt with
  | CompositeLit _ sliceElts =>
      if nameFieldIndex <? Z.of_nat (length sliceElts) then
        match sliceElts !! Z.to_nat nameFieldIndex with
        | Some (BasicLit kind value) =>
            Some (KeyValueExpr (BasicLit kind value)
                    (CompositeLit None (dropIndex nameFieldIndex sliceElts)))
        | _ => None
        end
      else None
  | _ => None
  end.

Fixpoint mapEntries (nameFieldIndex : Z) (elts : list Node) : list Node :=
  match elts with
  | [] => []
  | elt :: rest =>
      match mapEntry nameFieldIndex elt with
      | Some entry => entry :: mapEntries nameFieldIndex rest
      | None => mapEntries nameFieldIndex rest
      end
  end.

(** The body of the loop over [assign.Rhs], for the value at index [i]. *)
Definition convertRhs (lhs : list Node) (i : nat) (s : State) (rhs : Node)
  : State * Node :=
  match rhs with
  | CompositeLit (Some (ArrayType None (StructType fields))) elts =>
      let structType := StructType fields in
      let '(nameField, nameFieldIndex) := findNameField structType in
      if (nameField =? "")%string then (s, rhs)
      else match lhs !! i with
           | Some (Ident name) =>
               let mapType :=
                 MapType (Ident "string")
                   (createStructTypeWithoutField structType nameFieldIndex) in
               (mkState true (int_add (tablesConverted s) 1)
                  ({[name]} ∪ tableTestVars s),
                CompositeLit (Some mapType) (mapEntries nameFieldIndex elts))
           | _ => (s, rhs)
           end
  | _ => (s, rhs)
  end.

Fixpoint convertRhsFrom (lhs : list Node) (i : nat) (s : State)
  (rhs : list Node) : State * list Node :=
  match rhs with
  | [] => (s, [])
  | r :: rest =>
      let '(s1, r') := convertRhs lhs i s r in
      let '(s2, rest') := convertRhsFrom lhs (S i) s1 rest in
      (s2, r' :: rest')
  end.

(** Step 1: the callback that finds and converts the tables. *)
Definition findTableTests (s : State) (n : Node) : State * Node :=
  match n with
  | AssignStmt lhs tok rhs =>
      if negb (token_eqb tok DEFINE) && negb (token_eqb tok ASSIGN) then (s, n)
      else let '(s', rhs') := convertRhsFrom lhs 0 s rhs in
           (s', AssignStmt lhs tok rhs')
  | _ => (s, n)
  end.

(** Step 2: the callback on range loops over a table variable. *)
Definition updateRange (s : State) (n : Node) : State * Node :=
  match n with
  | RangeStmt key value (Ident name) body =>
      if bool_decide (name ∈ tableTestVars s) then
        if isBlankIdent key || isNil key then
          (setModified s, RangeStmt (Some (Ident "name")) value (Ident name) body)
        else (s, n)
      else (s, n)
  | _ => (s, n)
  end.

(** Step 3: the callback on [t.Run] calls. *)
Definition updateRunCall (s : State) (n : Node) : State * Node :=
  match n with
  | CallExpr (SelectorExpr (Ident recv) sel) (SelectorExpr (Ident x) argSel :: rest) =>
      if (recv =? "t")%string && (sel =? "Run")%string
         && ((x =? "tc")%string
             && ((argSel =? "name")%string || (argSel =? "desc")%string
                 || (argSel =? "description")%string))
      then (setModified s,
            CallExpr (SelectorExpr (Ident recv) sel) (Ident "name" :: rest))
      else (s, n)
  | _ => (s, n)
  end.

(** The three walks of [processFile] over the parsed file, and the values
    of [modified] and [tablesConverted] after them. *)
Definition convert (node : Node) : Node * (bool * Z) :=
  let s0 := mkState false 0 ∅ in
  let '(s1, n1) := Inspect findTableTests s0 node in
  let '(s2, n2) := Inspect updateRange s1 n1 in
  let '(s3, n3) := Inspect updateRunCall s2 n2 in
  (n3, (modified s3, tablesConverted s3)).

End ByAssign.

(** ** The first copy: tables bound by [var] and [const] declarations *)

Module ByDecl.

Record State : Type := mkState {
  modified : bool;
  tablesConverted : Z
}.

Definition setModified (s : State) : State :=
  mkState true (tablesConverted s).

(** One round of the loop of [convertElementsToMapEntries]: the key is a
    fresh string-kind literal carrying the text of the row's name literal. *)
Definition mapEntry (nameFieldIndex : Z) (elt : Node) : option Node :=
  match elt with
  | CompositeLit _ elts =>
      if nameFieldIndex >=? Z.of_nat (length elts) then None
      else match elts !! Z.to_nat nameFieldIndex with
           | Some (BasicLit _ nameValue) =>
               Some (KeyValueExpr (BasicLit STRING nameValue)
                       (CompositeLit None (dropIndex nameFieldIndex elts)))
           | _ => None
           end
  | _ => None
  end.

Fixpoint mapEntries (nameFieldIndex : Z) (elements : list Node) : list Node :=
  match elements with
  | [] => []
  | elt :: rest =>
      match mapEntry nameFieldIndex elt with
      | Some newElement => newElement :: mapEntries nameFieldIndex rest
      | None => mapEntries nameFieldIndex rest
      end
  end.

Definition convertElementsToMapEntries (elements : list Node)
  (nameFieldIndex : Z) : list Node :=
  if nameFieldIndex <? 0 then elements
  else mapEntries nameFieldIndex elements.

(** The loop over [valueSpec.Values]; [ty] is [valueSpec.Type], which the
    loop reads again at every round and overwrites when it converts.  The
    map type keeps the struct type as it is: the struct without the name
    field is stored only into the array type the spec no longer refers to. *)
Fixpoint convertValues (s : State) (ty : option Node) (values : list Node)
  : State * option Node * list Node :=
  match values with
  | [] => (s, ty, [])
  | value :: rest =>
      let skip :=
        let '(s', ty', rest') := convertValues s ty rest in
        (s', ty', value :: rest') in
      match ty with
      | Some (ArrayType None (StructType fields)) =>
          let structType := StructType fields in
          let '(nameField, nameFieldIndex) := findNameField structType in
          if (nameField =? "")%string then skip
          else match value with
               | CompositeLit _ elts =>
                   let mapType := MapType (Ident "string") structType in
                   let newCompLit :=
                     CompositeLit (Some mapType)
                       (convertElementsToMapEntries elts nameFieldIndex) in
                   let s1 := mkState true (int_add (tablesConverted s) 1) in
                   let '(s', ty', rest') :=
                     convertValues s1 (Some mapType) rest in
                   (s', ty', newCompLit :: rest')
               | _ => skip
               end
      | _ => skip
      end
  end.

Definition convertSpec (s : State) (spec : Node) : State * Node :=
  match spec with
  | ValueSpec names ty values =>
      let '(s', ty', values') := convertValues s ty values in
      (s', ValueSpec names ty' values')
  | _ => (s, spec)
  end.

(** Step 1: the callback on [var] and [const] declarations. *)
Definition findTableTests (s : State) (n : Node) : State * Node :=
  match n with
  | GenDecl tok specs =>
      if negb (token_eqb tok VAR) && negb (token_eqb tok CONST) then (s, n)
      else let '(s', specs') := mapS convertSpec s specs in
           (s', GenDecl tok specs')
  | _ => (s, n)
  end.

(** [lookupObject]: the first top-level [var] or [const] spec that declares
    [name].  The source returns the identifier's [Obj], whose [Decl] the
    parser sets to that spec; the spec stands for the object here. *)
Definition specDeclares (name : string) (spec : Node) : bool :=
  match spec with
  | ValueSpec names _ _ => existsb (String.eqb name) names
  | _ => false
  end.

Fixpoint lookupDecls (decls : list Node) (name : string) : option Node :=
  match decls with
  | [] => None
  | GenDecl tok specs :: rest =>
      if negb (token_eqb tok VAR) && negb (token_eqb tok CONST)
      then lookupDecls rest name
      else match List.find (specDeclares name) specs with
           | Some spec => Some spec
           | None => lookupDecls rest name
           end
  | _ :: rest => lookupDecls rest name
  end.

Definition lookupObject (file : Node) (name : string) : option Node :=
  match file with
  | File _ decls => lookupDecls decls name
  | _ => None
  end.

(** [isMapType], on the declaring spec. *)
Definition isMapType (obj : Node) : bool :=
  match obj with
  | ValueSpec _ (Some (MapType _ _)) _ => true
  | _ => false
  end.

(** Step 2: the callback on range loops; [file] is the root the closure
    holds, whose declarations this walk does not change. *)
Definition updateRange (file : Node) (s : State) (n : Node) : State * Node :=
  match n with
  | RangeStmt key value (Ident name) body =>
      match lookupObject file name with
      | None => (s, n)
      | Some obj =>
          if isMapType obj then
            if negb (isNil key) && negb (isNil value) then (s, n)
            else
              let key' :=
                if isBlankIdent key || isNil key then Some (Ident "name")
                else key in
              (setModified s, RangeStmt key' value (Ident name) body)
          else (s, n)
      end
  | _ => (s, n)
  end.

(** Step 3: the callback on [t.Run] calls. *)
Definition updateRunCall (s : State) (n : Node) : State * Node :=
  match n with
  | CallExpr (SelectorExpr (Ident recv) sel) (SelectorExpr (Ident x) argSel :: rest) =>
      if negb (recv =? "t")%string || negb (sel =? "Run")%string then (s, n)
      else if (x =? "tc")%string && (argSel =? "name")%string
      then (setModified s,
            CallExpr (SelectorExpr (Ident recv) sel) (Ident "name" :: rest))
      else (s, n)
  | _ => (s, n)
  end.

(** The three walks of [processFile].  The map type node the conversion
    shares between the spec and its value is two equal subtrees here, which
    each walk takes to equal subtrees again: the tree and [modified] are the
    program's.  [tablesConverted] is the program's as long as the struct
    type of a converted table holds no [var] or [const] table of its own
    (in a function literal of an array length, say): the program reaches
    such a declaration twice through the shared node and converts it once,
    the walk here converts and counts it in both subtrees. *)
Definition convert (node : Node) : Node * (bool * Z) :=
  let s0 := mkState false 0 in
  let '(s1, n1) := Inspect findTableTests s0 node in
  let '(s2, n2) := Inspect (updateRange n1) s1 n1 in
  let '(s3, n3) := Inspect updateRunCall s2 n2 in
  (n3, (modified s3, tablesConverted s3)).

End ByDecl.

(** ** [processFile] and [ConvertTableTests]

    The two copies differ in the three walks only; what surrounds them is the
    same code, taken here over any [convert].  The file system is a map from
    paths to contents.  What the parser, the printer, the operating system
    and [filepath.Walk] answer is given from outside:
    - [ParseFile]: the tree of a file's content ([None]: no such file), or
      the text of the parse error;
    - [Create]: the text of the error when [os.Create] fails on a path; when
      it succeeds the file exists and is empty;
    - [Fprint]: what [printer.Fprint] got into the file, and the text of its
      error if it failed;
    - [walkEntries]: the calls [filepath.Walk] makes to its callback. *)

Abbreviation FS := (gmap string string).

Record FileResult : Type := mkFileResult {
  Modified : bool;
  TablesConverted : Z
}.

(** [TotalTablesConverted] is the field [TablesConverted] of
    [ConversionResult]; the name is taken by the one of [FileResult]. *)
Record ConversionResult : Type := mkConversionResult {
  FilesProcessed : Z;
  FilesModified : Z;
  TotalTablesConverted : Z;
  Errors : list string
}.

(** One call of the walk function: [path], [info.IsDir()], [err]. *)
Record WalkEntry : Type := mkWalkEntry {
  path : string;
  isDir : bool;
  walkErr : option string
}.

(** [strings.HasSuffix]. *)
Definition HasSuffix (s suffix : string) : bool :=
  (String.length suffix <=? String.length s)%nat
  && (String.substring (String.length s - String.length suffix)
        (String.length suffix) s =? suffix)%string.

(** [filepath.Walk]: the callback on each entry in turn, until it returns
    an error (the callbacks here never return [SkipDir]). *)
Fixpoint Walk {A} (fn : A → WalkEntry → A * option string)
  (entries : list WalkEntry) (a : A) : A * option string :=
  match entries with
  | [] => (a, None)
  | e :: rest =>
      let '(a', r) := fn a e in
      match r with
      | Some err => (a', Some err)
      | None => Walk fn rest a'
      end
  end.

(** An entry the callback hands to [processFile]. *)
Definition isGoFile (e : WalkEntry) : Prop :=
  walkErr e = None ∧ isDir e = false ∧ HasSuffix (path e) ".go" = true.

Inductive Outcome : Set := PassedOver | Recorded | Counted.

Definition isCounted (o : Outcome) : bool :=
  match o with Counted => true | _ => false end.
Definition isRecorded (o : Outcome) : bool :=
  match o with Recorded => true | _ => false end.

Section Orchestrator.
Variable convert : Node → Node * (bool * Z).
Variable ParseFile : option string → Node + string.
Variable Create : FS → string → option string.
Variable Fprint : string → Node → string * option string.
Variable walkEntries : string → list WalkEntry.

Definition processFile (filePath : string) (fs : FS)
  : FS * (FileResult * option string) :=
  let result := mkFileResult false 0 in
  match ParseFile (fs !! filePath) with
  | inr err => (fs, (result, Some ("error parsing file: " ++ err)))
  | inl node =>
      let '(node', (modified, tablesConverted)) := convert node in
      if modified then
        match Create fs filePath with
        | Some err => (fs, (result, Some ("error creating file: " ++ err)))
        | None =>
            let fs1 := <[filePath := ""]> fs in
            let '(written, werr) := Fprint filePath node' in
            let fs2 := <[filePath := written]> fs1 in
            match werr with
            | Some err =>
                (fs2, (result, Some ("error writing to file: " ++ err)))
            | None => (fs2, (mkFileResult true tablesConverted, None))
            end
        end
      else (fs, (result, None))
  end.

(** [fmt.Sprintf("Error accessing %s: %v", path, err)] and
    [fmt.Sprintf("Error processing %s: %v", path, err)]. *)
Definition accessError (path err : string) : string :=
  "Error accessing " ++ path ++ ": " ++ err.
Definition processingError (path err : string) : string :=
  "Error processing " ++ path ++ ": " ++ err.

Definition addError (result : ConversionResult) (msg : string)
  : ConversionResult :=
  mkConversionResult (FilesProcessed result) (FilesModified result)
    (TotalTablesConverted result) (Errors result ++ [msg]).

(** The function [ConvertTableTests] hands to [filepath.Walk]; it returns
    [nil] on every path. *)
Definition visit (st : FS * ConversionResult) (e : WalkEntry)
  : (FS * ConversionResult) * option string :=
  let '(fs, result) := st in
  match walkErr e with
  | Some err =>
      ((fs, addError result (accessError (path e) err)), None)
  | None =>
      if isDir e || negb (HasSuffix (path e) ".go") then ((fs, result), None)
      else
        let '(fs', (fileResult, perr)) := processFile (path e) fs in
        match perr with
        | Some err =>
            ((fs', addError result (processingError (path e) err)), None)
        | None =>
            let processed := int_add (FilesProcessed result) 1 in
            if Modified fileResult then
              ((fs', mkConversionResult processed
                       (int_add (FilesModified result) 1)
                       (int_add (TotalTablesConverted result)
                          (TablesConverted fileResult))
                       (Errors result)), None)
            else
              ((fs', mkConversionResult processed (FilesModified result)
                       (TotalTablesConverted result) (Errors result)), None)
        end
  end.

Definition ConvertTableTests (directory : string) (fs : FS)
  : FS * (ConversionResult * option string) :=
  let result := mkConversionResult 0 0 0 [] in
  let '((fs', result'), err) := Walk visit (walkEntries directory) (fs, result) in
  match err with
  | Some e => (fs', (result', Some ("error walking directory: " ++ e)))
  | None => (fs', (result', None))
  end.
(** How a visit ends: the entry is passed over (a directory, not a Go
    file), an error message is recorded, or the file counts as processed. *)
Definition outcome (fs : FS) (e : WalkEntry) : Outcome :=
  match walkErr e with
  | Some _ => Recorded
  | None =>
      if isDir e || negb (HasSuffix (path e) ".go") then PassedOver
      else match (processFile (path e) fs).2.2 with
           | Some _ => Recorded
           | None => Counted
           end
  end.

(** The file system after a visit. *)
Definition diskAfter (fs : FS) (e : WalkEntry) : FS :=
  match walkErr e with
  | Some _ => fs
  | None =>
      if isDir e || negb (HasSuffix (path e) ".go") then fs
      else (processFile (path e) fs).1
  end.

Fixpoint outcomes (entries : list WalkEntry) (fs : FS) : list Outcome :=
  match entries with
  | [] => []
  | e :: rest => outcome fs e :: outcomes rest (diskAfter fs e)
  end.

End Orchestrator.

(** ** The notions the properties are stated with *)

(** The basic literal at position [index] of a row, when the row is a
    composite literal that has one there. *)
Definition nameLiteral (index : nat) (row : Node) : option Node :=
  match row with
  | CompositeLit _ vals =>
      match vals !! index with
      | Some (BasicLit kind text) => Some (BasicLit kind text)
      | _ => None
      end
  | _ => None
  end.

Definition hasNameLiteral (index : nat) (row : Node) : bool :=
  match nameLiteral index row with Some _ => true | None => false end.

(** [entry] is keyed by [key] and carries the values of [row] other than
    the one at [index], unaltered and in their order. *)
Definition entryOfRow (index : nat) (row key entry : Node) : Prop :=
  ∃ ty vals,
    row = CompositeLit ty vals
    ∧ entry = KeyValueExpr key (CompositeLit None (delete index vals)).

(** The entry of a row in the second copy: the key is the row's literal. *)
Definition keyedByLiteral (index : nat) (row entry : Node) : Prop :=
  ∃ lit, nameLiteral index row = Some lit ∧ entryOfRow index row lit entry.

(** The entry of a row in the first copy: the key is a string-kind literal
    token with the text of the row's literal. *)
Definition keyedByLiteralText (index : nat) (row entry : Node) : Prop :=
  ∃ kind text,
    nameLiteral index row = Some (BasicLit kind text)
    ∧ entryOfRow index row (BasicLit STRING text) entry.

(** ** Sample files *)

Module Samples.

(** The double quote character, and a Go string literal token. *)
Definition dquote : string :=
  String (Ascii.Ascii false true false false false true false false) "".
Definition quoted (s : string) : string := dquote ++ s ++ dquote.

Definition strLit (s : string) : Node := BasicLit STRING (quoted s).
Definition intLit (s : string) : Node := BasicLit INT s.

(** [[]struct { <nameField> string; a int }] *)
Definition rowStruct (nameField : string) : Node :=
  StructType [Field [nameField] (Ident "string"); Field ["a"] (Ident "int")].
Definition tableType (nameField : string) : Node :=
  ArrayType None (rowStruct nameField).

(** [{"<name>", <a>}] *)
Definition row (name a : string) : Node :=
  CompositeLit None [strLit name; intLit a].

(** [t.Run(<arg>, check)] as a statement. *)
Definition tRun (arg : Node) : Node :=
  Other "ExprStmt" [CallExpr (SelectorExpr (Ident "t") "Run") [arg; Ident "check"]].

(** [func <name>(t *testing.T) { <stmts> }] *)
Definition testFunc (name : string) (stmts : list Node) : Node :=
  Other "FuncDecl" [Ident name; Other "FuncType" []; BlockStmt stmts].

(** [for _, tc := range <x> { <stmts> }] *)
Definition rangeValue (x : string) (stmts : list Node) : Node :=
  RangeStmt (Some (Ident "_")) (Some (Ident "tc")) (Ident x) (BlockStmt stmts).

(** A table one of whose rows has a variable at the name position:
    [tests := []struct{name string; a int}{{"one", 1}, {label, 2}}]. *)
Definition mixedRows : list Node :=
  [row "one" "1"; CompositeLit None [Ident "label"; intLit "2"]].
Definition mixedTable : Node :=
  CompositeLit (Some (tableType "name")) mixedRows.
Definition mixedAssign : Node :=
  AssignStmt [Ident "tests"] DEFINE [mixedTable].

(** The same table as a declaration:
    [var tests []struct{name string; a int} = []struct{...}{...}]. *)
Definition mixedSpec : Node :=
  ValueSpec ["tests"] (Some (tableType "name")) [mixedTable].
Definition mixedDecl : Node := GenDecl VAR [mixedSpec].

(** A file without any table: the cases come from a call, and the loop
    names its subtests after a field of the case.
    [cases := loadCases(); for _, tc := range cases { t.Run(tc.name, check) }] *)
Definition noTableFile : Node :=
  File "samples"
    [testFunc "TestLoaded"
       [AssignStmt [Ident "cases"] DEFINE [CallExpr (Ident "loadCases") []];
        rangeValue "cases" [tRun (SelectorExpr (Ident "tc") "name")]]].

Definition noTableFileAfter : Node :=
  File "samples"
    [testFunc "TestLoaded"
       [AssignStmt [Ident "cases"] DEFINE [CallExpr (Ident "loadCases") []];
        rangeValue "cases" [tRun (Ident "name")]]].

(** A declared table and a loop over its indices:
    [var tests []struct{name string; a int} = []struct{...}{{"one", 1}}]
    [for i := range tests { use(i) }] *)
Definition indexLoop : Node :=
  RangeStmt (Some (Ident "i")) None (Ident "tests")
    (BlockStmt [Other "ExprStmt" [CallExpr (Ident "use") [Ident "i"]]]).
Definition indexLoopFile : Node :=
  File "samples"
    [GenDecl VAR
       [ValueSpec ["tests"] (Some (tableType "name"))
          [CompositeLit (Some (tableType "name")) [row "one" "1"]]];
     testFunc "TestIndexed" [indexLoop]].

Definition keyedType (nameField : string) : Node :=
  MapType (Ident "string") (rowStruct nameField).
Definition indexLoopFileAfter : Node :=
  File "samples"
    [GenDecl VAR
       [ValueSpec ["tests"] (Some (keyedType "name"))
          [CompositeLit (Some (keyedType "name"))
             [KeyValueExpr (strLit "one") (CompositeLit None [intLit "1"])]]];
     testFunc "TestIndexed" [indexLoop]].

(** A declared table keyed by a [desc] field, with its subtests:
    [var tests []struct{desc string; a int} = []struct{...}{{"one", 1}}]
    [for _, tc := range tests { t.Run(tc.desc, check) }] *)
Definition descDeclFile : Node :=
  File "samples"
    [GenDecl VAR
       [ValueSpec ["tests"] (Some (tableType "desc"))
          [CompositeLit (Some (tableType "desc")) [row "one" "1"]]];
     testFunc "TestDesc"
       [rangeValue "tests" [tRun (SelectorExpr (Ident "tc") "desc")]]].

Definition descDeclFileAfter : Node :=
  File "samples"
    [GenDecl VAR
       [ValueSpec ["tests"] (Some (keyedType "desc"))
          [CompositeLit (Some (keyedType "desc"))
             [KeyValueExpr (strLit "one") (CompositeLit None [intLit "1"])]]];
     testFunc "TestDesc"
       [rangeValue "tests" [tRun (SelectorExpr (Ident "tc") "desc")]]].

(** The same table bound by an assignment:
    [tests := []struct{desc string; a int}{{"one", 1}}]
    [for _, tc := range tests { t.Run(tc.desc, check) }] *)
Definition descAssignFile : Node :=
  File "samples"
    [testFunc "TestDesc"
       [AssignStmt [Ident "tests"] DEFINE
          [CompositeLit (Some (tableType "desc")) [row "one" "1"]];
        rangeValue "tests" [tRun (SelectorExpr (Ident "tc") "desc")]]].

Definition descAssignFileAfter : Node :=
  File "samples"
    [testFunc "TestDesc"
       [AssignStmt [Ident "tests"] DEFINE
          [CompositeLit
             (Some (MapType (Ident "string")
                      (StructType [Field ["a"] (Ident "int")])))
             [KeyValueExpr (strLit "one") (CompositeLit None [intLit "1"])]];
        RangeStmt (Some (Ident "name")) (Some (Ident "tc")) (Ident "tests")
          (BlockStmt [tRun (Ident "name")])]].

Definition mixedAssignAfter : Node :=
  AssignStmt [Ident "tests"] DEFINE
    [CompositeLit
       (Some (MapType (Ident "string")
                (StructType [Field ["a"] (Ident "int")])))
       [KeyValueExpr (strLit "one") (CompositeLit None [intLit "1"])]].

Definition mixedDeclAfter : Node :=
  GenDecl VAR
    [ValueSpec ["tests"] (Some (keyedType "name"))
       [CompositeLit (Some (keyedType "name"))
          [KeyValueExpr (strLit "one") (CompositeLit None [intLit "1"])]]].

End Samples.

(** Every row has a literal at the name position. *)
Definition allNamesLiteral (index : nat) (rows : list Node) : bool :=
  forallb (hasNameLiteral index) rows.

(** What the operating system, the parser and the printer answer in the
    sample runs: one file, which parses to [noTableFile]. *)
Module SampleRun.
Import Samples.

Definition testPath : string := "samples/loaded_test.go".
Definition original : string := "package samples // as written".
Definition printed : string := "package samples // as printed".

Definition disk : FS := {[ testPath := original ]}.

Definition ParseFile (src : option string) : Node + string :=
  match src with
  | Some _ => inl noTableFile
  | None => inr "open: no such file or directory"
  end.

(** A file that is not Go source. *)
Definition brokenPath : string := "samples/broken_test.go".
Definition ParseBroken (src : option string) : Node + string :=
  match src with
  | Some text =>
      if (text =? original)%string then inl noTableFile
      else inr "expected 'package', found 'EOF'"
  | None => inr "open: no such file or directory"
  end.
Definition diskWithBroken : FS := <[ brokenPath := "" ]> disk.

Definition Create (fs : FS) (filePath : string) : option string := None.
Definition CreateDenied (fs : FS) (filePath : string) : option string :=
  Some "permission denied".

Definition Fprint (filePath : string) (node : Node) : string * option string :=
  (printed, None).


Definition walkEntries (directory : string) : list WalkEntry :=
  [mkWalkEntry "samples" true None;
   mkWalkEntry brokenPath false None;
   mkWalkEntry testPath false None].
End SampleRun.

(** The non-literal guard as the specification words it, for a callback [f]
    on the node [decl] that binds a table with the rows [rows]: when some
    row has no literal at the name position, the callback leaves the node
    (and the counters) as they are. *)
Definition unconvertedIfNonLiteral {St} (f : @Visitor St) (s : St)
    (index : nat) (rows : list Node) (decl : Node) : Prop :=
  allNamesLiteral index rows = false → f s decl = (s, decl).

(** ** What a callback can see of a node

    The callbacks decide on the node itself, and on what lies a few steps
    below it along composite literals, array types, struct types and
    selectors, none of which any callback rewrites. *)

(** The node without what is below it.  Whether a range statement has a
    key or a value is left out: step 2 changes it. *)
Definition label (n : Node) : Node :=
  let x := Ident "" in
  match n with
  | Ident name => Ident name
  | BasicLit kind value => BasicLit kind value
  | CompositeLit ty _ => CompositeLit (match ty with Some _ => Some x | None => None end) []
  | KeyValueExpr _ _ => KeyValueExpr x x
  | SelectorExpr _ sel => SelectorExpr x sel
  | CallExpr _ _ => CallExpr x []
  | FuncLit _ _ => FuncLit x x
  | ArrayType len _ => ArrayType (match len with Some _ => Some x | None => None end) x
  | StructType _ => StructType []
  | Field names _ => Field names x
  | MapType _ _ => MapType x x
  | AssignStmt _ tok _ => AssignStmt [] tok []
  | RangeStmt _ _ _ _ => RangeStmt None None x x
  | BlockStmt _ => BlockStmt []
  | GenDecl tok _ => GenDecl tok []
  | ValueSpec names ty _ =>
      ValueSpec names (match ty with Some _ => Some x | None => None end) []
  | File name _ => File name []
  | Other kind _ => Other kind []
  end.

Definition transparent (n : Node) : bool :=
  match n with
  | CompositeLit _ _ | ArrayType _ _ | StructType _ | SelectorExpr _ _ => true
  | _ => false
  end.

(** [g] on each child. *)
Definition mapChildren (g : Node → Node) (n : Node) : Node :=
  match n with
  | Ident _ | BasicLit _ _ => n
  | CompositeLit ty elts => CompositeLit (g <$> ty) (map g elts)
  | KeyValueExpr k v => KeyValueExpr (g k) (g v)
  | SelectorExpr x sel => SelectorExpr (g x) sel
  | CallExpr fn args => CallExpr (g fn) (map g args)
  | FuncLit ty body => FuncLit (g ty) (g body)
  | ArrayType len elt => ArrayType (g <$> len) (g elt)
  | StructType fields => StructType (map g fields)
  | Field names ty => Field names (g ty)
  | MapType k v => MapType (g k) (g v)
  | AssignStmt lhs tok rhs => AssignStmt (map g lhs) tok (map g rhs)
  | RangeStmt k v x body => RangeStmt (g <$> k) (g <$> v) (g x) (g body)
  | BlockStmt l => BlockStmt (map g l)
  | GenDecl tok specs => GenDecl tok (map g specs)
  | ValueSpec names ty values => ValueSpec names (g <$> ty) (map g values)
  | File name decls => File name (map g decls)
  | Other kind cs => Other kind (map g cs)
  end.

(** The node down to depth [d] along transparent nodes. *)
Fixpoint prune (d : nat) (n : Node) : Node :=
  match d with
  | O => label n
  | S d' => if transparent n then mapChildren (prune d') n else label n
  end.

(** [P] holds of a node and of every node below it. *)
Inductive everywhere (P : Node → Prop) : Node → Prop :=
| everywhere_node n :
    P n → (∀ c, c ∈ children n → everywhere P c) → everywhere P n.

(** The field list of a value whose type is a slice of an anonymous struct. *)
Definition tableFields (rhs : Node) : option (list Node) :=
  match rhs with
  | CompositeLit (Some (ArrayType None (StructType fields))) _ => Some fields
  | _ => None
  end.

(** The conditions under which step 1 of the second copy converts the value
    bound to [lhs]. *)
Definition convertible (lhs : option Node) (rhs : Node) : bool :=
  match tableFields rhs with
  | Some fields =>
      negb ((findNameFieldFrom 0 fields).1 =? "")%string
      && match lhs with Some (Ident _) => true | _ => false end
  | None => false
  end.

Fixpoint noTableFrom (lhs : list Node) (i : nat) (rhs : list Node) : bool :=
  match rhs with
  | [] => true
  | r :: rest => negb (convertible (lhs !! i) r) && noTableFrom lhs (S i) rest
  end.

(** The node binds no table step 1 of the second copy would convert. *)
Definition noTable (n : Node) : bool :=
  match n with
  | AssignStmt lhs tok rhs =>
      (negb (token_eqb tok DEFINE) && negb (token_eqb tok ASSIGN))
      || noTableFrom lhs 0 rhs
  | _ => true
  end.

(** The node is a call step 3 of the second copy rewrites. *)
Definition isRunCallOnName (n : Node) : bool :=
  match n with
  | CallExpr (SelectorExpr (Ident recv) sel) (SelectorExpr (Ident x) argSel :: _) =>
      (recv =? "t")%string && (sel =? "Run")%string
      && ((x =? "tc")%string && isNameFieldName argSel)
  | _ => false
  end.

(** What makes a callback fit for the lemmas on walks below. *)
Record tame {St} (f : @Visitor St) : Prop := mkTame {
  tame_shrinking : shrinking f;
  tame_label : ∀ s n, label (f s n).2 = label n;
  tame_transparent : ∀ s n, transparent n = true → f s n = (s, n)
}.

(** ** What the further properties are stated with *)

(** The field's first name is one of the recognised names. *)
Definition hasNameFieldName (field : Node) : bool :=
  match field with
  | Field (fieldName :: _) _ => isNameFieldName fieldName
  | _ => false
  end.
Definition isCompositeLit (n : Node) : bool :=
  match n with CompositeLit _ _ => true | _ => false end.

(** [spec] is a spec of a top-level [var] or [const] declaration among
    [decls] that declares [name]. *)
Definition declaresTopLevel (decls : list Node) (name : string) (spec : Node)
  : Prop :=
  ∃ tok specs names ty values,
    GenDecl tok specs ∈ decls
    ∧ (tok = VAR ∨ tok = CONST)
    ∧ spec ∈ specs
    ∧ spec = ValueSpec names ty values
    ∧ name ∈ names.

(** ** What a batch adds up

    The results of the files a walk processed without error, and the
    messages of the entries that failed, each in the order of the walk. *)

Section Accounts.
Variable convert : Node → Node * (bool * Z).
Variable ParseFile : option string → Node + string.
Variable Create : FS → string → option string.
Variable Fprint : string → Node → string * option string.

Definition resultOf (fs : FS) (e : WalkEntry) : option FileResult :=
  match walkErr e with
  | Some _ => None
  | None =>
      if isDir e || negb (HasSuffix (path e) ".go") then None
      else match (processFile convert ParseFile Create Fprint (path e) fs).2 with
           | (fileResult, None) => Some fileResult
           | (_, Some _) => None
           end
  end.

Definition errorOf (fs : FS) (e : WalkEntry) : option string :=
  match walkErr e with
  | Some err => Some (accessError (path e) err)
  | None =>
      if isDir e || negb (HasSuffix (path e) ".go") then None
      else match (processFile convert ParseFile Create Fprint (path e) fs).2.2 with
           | Some err => Some (processingError (path e) err)
           | None => None
           end
  end.

Fixpoint resultsOf (entries : list WalkEntry) (fs : FS) : list FileResult :=
  match entries with
  | [] => []
  | e :: rest =>
      opt_list (resultOf fs e)
      ++ resultsOf rest (diskAfter convert ParseFile Create Fprint fs e)
  end.

Fixpoint errorsOf (entries : list WalkEntry) (fs : FS) : list string :=
  match entries with
  | [] => []
  | e :: rest =>
      (opt_list (errorOf fs e)
       ++ errorsOf rest (diskAfter convert ParseFile Create Fprint fs e))%list
  end.
End Accounts.

Definition tablesOf (results : list FileResult) : Z :=
  foldr (fun r total => TablesConverted r + total) 0 results.

(** [rec] never lowers the flag, and when it leaves the flag down it has
    changed neither the state nor the node. *)
Definition flagged {St} (flag : St → bool) (rec : @Visitor St) : Prop :=
  ∀ s n, (flag s = true → flag (rec s n).1 = true)
         ∧ (flag (rec s n).1 = false → rec s n = (s, n)).

(** [p] holds of the node and of every node below it, down to [fuel]
    levels; more levels than that count as a failure. *)
Fixpoint everywhereb (fuel : nat) (p : Node → bool) (n : Node) : bool :=
  match fuel with
  | O => false
  | S fuel' => p n && forallb (everywhereb fuel' p) (children n)
  end.

(** ** The program

    [main], as the exit status of the process and the file system it
    leaves; what it prints is left out.  [args] is [os.Args]; past the
    length test [os.Args[1]] is there, so the [None] branch of the lookup is
    never taken. *)
Section Program.
Variable convert : Node → Node * (bool * Z).
Variable ParseFile : option string → Node + string.
Variable Create : FS → string → option string.
Variable Fprint : string → Node → string * option string.
Variable walkEntries : string → list WalkEntry.

Definition main (args : list string) (fs : FS) : FS * Z :=
  if (length args <? 2)%nat then (fs, 1)
  else
    match args !! 1%nat with
    | None => (fs, 1)
    | Some directoryPath =>
        let '(fs', (result, err)) :=
          ConvertTableTests convert ParseFile Create Fprint walkEntries
            directoryPath fs in
        match err with
        | Some _ => (fs', 1)
        | None => (fs', 0)
        end
    end.
End Program.

(** The node is the call [t.Run(tc.name, ...)], the one step 3 of the first
    copy rewrites. *)
Definition isRunCallOnTcName (n : Node) : bool :=
  match n with
  | CallExpr (SelectorExpr (Ident recv) sel) (SelectorExpr (Ident x) argSel :: _) =>
      (recv =? "t")%string && (sel =? "Run")%string
      && ((x =? "tc")%string && (argSel =? "name")%string)
  | _ => false
  end.

(** The variables step 1 of the second copy records as tables. *)
Definition tablesFound (node : Node) : gset string :=
  ByAssign.tableTestVars
    (Inspect ByAssign.findTableTests (ByAssign.mkState false 0 ∅) node).1.

(** The node is not a loop over one of [vars] without a key of its own:
    a range statement over a variable among [vars] has a key, and not the
    blank one. *)
Definition loopKeyed (vars : gset string) (n : Node) : bool :=
  match n with
  | RangeStmt key value (Ident name) body =>
      if bool_decide (name ∈ vars) then negb (isBlankIdent key || isNil key)
      else true
  | _ => true
  end.

(** ** What the first copy finds on a second run *)

(** The fields of a declared type that is a slice of an anonymous struct. *)
Definition sliceFields (ty : option Node) : option (list Node) :=
  match ty with
  | Some (ArrayType None (StructType fields)) => Some fields
  | _ => None
  end.

(** Step 1 of the first copy has nothing to convert in a spec of this type
    with these values: the type is no slice of a struct with a name field,
    or no value is a composite literal. *)
Definition settledValues (ty : option Node) (values : list Node) : bool :=
  match sliceFields ty with
  | Some fields =>
      ((findNameFieldFrom 0 fields).1 =? "")%string
      || forallb (fun v => negb (isCompositeLit v)) values
  | None => true
  end.

Definition specSettled (spec : Node) : bool :=
  match spec with
  | ValueSpec _ ty values => settledValues ty values
  | _ => true
  end.

Definition declSettled (n : Node) : bool :=
  match n with
  | GenDecl tok specs =>
      (negb (token_eqb tok VAR) && negb (token_eqb tok CONST))
      || forallb specSettled specs
  | _ => true
  end.

(** What step 1 and [lookupObject] see of a spec and of a declaration. *)
Definition specView (spec : Node) : Node :=
  match spec with
  | ValueSpec names ty values =>
      ValueSpec names (prune 2 <$> ty) (map label values)
  | _ => label spec
  end.

Definition declView (decl : Node) : Node :=
  match decl with
  | GenDecl tok specs => GenDecl tok (map specView specs)
  | _ => label decl
  end.

(** [name] is declared at top level of [file] with a map type, as step 2 of
    the first copy asks. *)
Definition mapTyped (file : Node) (name : string) : bool :=
  match ByDecl.lookupObject file name with
  | Some obj => ByDecl.isMapType obj
  | None => false
  end.

(** Step 2 of the first copy, run for [file], leaves the node as it is. *)
Definition rangeSettled (file n : Node) : bool :=
  match n with
  | RangeStmt key value (Ident name) _ =>
      negb (mapTyped file name)
      || (negb (isNil key) && negb (isNil value))
      || negb (isBlankIdent key || isNil key)
  | _ => true
  end.

Definition isValueSpec (n : Node) : bool :=
  match n with ValueSpec _ _ _ => true | _ => false end.
Definition isGenDecl (n : Node) : bool :=
  match n with GenDecl _ _ => true | _ => false end.
Definition isFile (n : Node) : bool :=
  match n with File _ _ => true | _ => false end.

(** A callback that passes over files, declarations and specs. *)
Definition passesSpecs {St} (f : @Visitor St) : Prop :=
  ∀ s names ty values,
    f s (ValueSpec names ty values) = (s, ValueSpec names ty values).

Definition passesDecls {St} (f : @Visitor St) : Prop :=
  passesSpecs f
  ∧ (∀ s tok specs, f s (GenDecl tok specs) = (s, GenDecl tok specs))
  ∧ (∀ s name decls, f s (File name decls) = (s, File name decls)).

(** ** Rows and field declarations

    A field declaration may declare several names ([a, b int]); a row
    written without field keys then has one value for each name, and one
    for an embedded field. *)

(** The number of values a field declaration takes in such a row. *)
Definition fieldSlots (field : Node) : nat :=
  match field with
  | Field names _ => Nat.max 1 (length names)
  | _ => 1%nat
  end.

(** The position, in such a row, of the first value of the field
    declaration at [index]. *)
Definition rowPosition (fields : list Node) (index : nat) : nat :=
  sum_with fieldSlots (take index fields).

(** No field declaration before the one at [index] declares more than one
    name. *)
Definition singleNamesBefore (fields : list Node) (index : nat) : bool :=
  forallb (fun field => (fieldSlots field =? 1)%nat) (take index fields).

(** A table whose struct groups two names in the declaration before the
    name field:
    [tests := []struct{a, b int; name string}{{1, 2, "x"}}], and the same
    table declared,
    [var tests []struct{a, b int; name string} = []struct{...}{{1, 2, "x"}}]. *)
Module Grouped.
Import Samples.

Definition fields : list Node :=
  [Field ["a"; "b"] (Ident "int"); Field ["name"] (Ident "string")].
Definition sliceType : Node := ArrayType None (StructType fields).
Definition table : Node :=
  CompositeLit (Some sliceType)
    [CompositeLit None [intLit "1"; intLit "2"; strLit "x"]].
Definition assign : Node := AssignStmt [Ident "tests"] DEFINE [table].
Definition decl : Node :=
  GenDecl VAR [ValueSpec ["tests"] (Some sliceType) [table]].

(** [struct{a int; name string}] with a row that has a literal name, a row
    whose name is a variable, and a row written with field keys:
    [{1, "one"}, {2, label}, {a: 3, name: "three"}]. *)
Definition plainFields : list Node :=
  [Field ["a"] (Ident "int"); Field ["name"] (Ident "string")].
Definition plainRows : list Node :=
  [CompositeLit None [intLit "1"; strLit "one"];
   CompositeLit None [intLit "2"; Ident "label"];
   CompositeLit None [KeyValueExpr (Ident "a") (intLit "3");
                      KeyValueExpr (Ident "name") (strLit "three")]].
End Grouped.

(** * Properties *)

(** ** The walk does not depend on its depth bound *)

Section WalkFacts.
Context {St : Type}.
Implicit Types (f rec : @Visitor St) (s : St) (n c : Node) (l : list Node).

Lemma mapS_ext rec1 rec2 l :
  (∀ c, c ∈ l → ∀ s, rec1 s c = rec2 s c) →
  ∀ s, mapS rec1 s l = mapS rec2 s l.
Proof.
  induction l as [|n l IH]; intros H s; simpl; [done|].
  rewrite (H n) by left.
  destruct (rec2 s n) as [s1 n'].
  rewrite IH; [done|]. intros c Hc. apply H. by right.
Qed.

Lemma optS_ext rec1 rec2 (o : option Node) :
  (∀ c, c ∈ opt_list o → ∀ s, rec1 s c = rec2 s c) →
  ∀ s, optS rec1 s o = optS rec2 s o.
Proof.
  destruct o as [n|]; intros H s; simpl; [|done].
  rewrite (H n); [done|]. simpl. left.
Qed.

Lemma descend_ext rec1 rec2 n :
  (∀ c, c ∈ children n → ∀ s, rec1 s c = rec2 s c) →
  ∀ s, descend rec1 s n = descend rec2 s n.
Proof.
  intros H s.
  assert (Hm : ∀ l, (∀ c, c ∈ l → c ∈ children n) →
               ∀ s, mapS rec1 s l = mapS rec2 s l).
  { intros l Hl. apply mapS_ext. intros c Hc. apply H, Hl, Hc. }
  assert (Ho : ∀ o, (∀ c, c ∈ opt_list o → c ∈ children n) →
               ∀ s, optS rec1 s o = optS rec2 s o).
  { intros o Hl. apply optS_ext. intros c Hc. apply H, Hl, Hc. }
  assert (Hr : ∀ c, c ∈ children n → ∀ s, rec1 s c = rec2 s c) by exact H.
  destruct n; simpl in *; try done;
    repeat first
      [ rewrite Ho by (intros ? ?; set_solver)
      | rewrite Hm by (intros ? ?; set_solver)
      | rewrite Hr by set_solver
      | match goal with |- context [optS rec2 ?s ?o] => destruct (optS rec2 s o) end
      | match goal with |- context [mapS rec2 ?s ?l] => destruct (mapS rec2 s l) end
      | match goal with |- context [rec2 ?s ?c] => destruct (rec2 s c) end ];
    done.
Qed.

Lemma InspectN_fuel f :
  shrinking f →
  ∀ k1 k2 s n, (weight n < k1)%nat → (weight n < k2)%nat →
    InspectN k1 f s n = InspectN k2 f s n.
Proof.
  intros Hf k1. induction k1 as [|k1 IH]; intros k2 s n H1 H2; [lia|].
  destruct k2 as [|k2]; [lia|]. simpl.
  destruct (f s n) as [s1 n1] eqn:E.
  apply descend_ext. intros c Hc s'.
  assert (weight c < weight n)%nat.
  { apply (Hf s n c). by rewrite E. }
  apply IH; lia.
Qed.

(** The walk is the callback at the node followed by the walk of the
    children the callback left. *)
Theorem Inspect_eq f :
  shrinking f →
  ∀ s n, Inspect f s n =
         let '(s1, n1) := f s n in descend (Inspect f) s1 n1.
Proof.
  intros Hf s n. unfold Inspect at 1. simpl.
  destruct (f s n) as [s1 n1] eqn:E.
  apply descend_ext. intros c Hc s'.
  assert (weight c < weight n)%nat.
  { apply (Hf s n c). by rewrite E. }
  unfold Inspect. apply InspectN_fuel; [done|lia|lia].
Qed.
End WalkFacts.

(** ** Every callback leaves children smaller than the node it was given *)

Lemma weight_pos n : (1 ≤ weight n)%nat.
Proof. destruct n; simpl; lia. Qed.

Lemma sum_with_elem (l : list Node) c :
  c ∈ l → (weight c ≤ sum_with weight l)%nat.
Proof.
  induction l as [|x l IH]; intros H; [by apply elem_of_nil in H|].
  apply elem_of_cons in H as [->|H]; simpl; [lia|]. apply IH in H. lia.
Qed.

Lemma sum_with_app (l1 l2 : list Node) :
  sum_with weight (l1 ++ l2) = (sum_with weight l1 + sum_with weight l2)%nat.
Proof. induction l1 as [|x l1 IH]; simpl; [done|]. rewrite IH. lia. Qed.

Lemma sum_with_dropIndexFrom i index (l : list Node) :
  (sum_with weight (dropIndexFrom i index l) ≤ sum_with weight l)%nat.
Proof.
  revert i. induction l as [|x l IH]; intros i; simpl; [done|].
  destruct (i =? index); simpl; specialize (IH (i + 1)); lia.
Qed.

Lemma children_weight n c : c ∈ children n → (weight c < weight n)%nat.
Proof.
  destruct n; simpl; intros H;
    repeat match goal with
      | o : option Node |- _ => destruct o; simpl in H
      end;
    repeat (apply elem_of_app in H as [H|H] || apply elem_of_cons in H as [->|H]);
    try (by apply elem_of_nil in H);
    try (apply sum_with_elem in H); try lia.
Qed.

Lemma shrinking_children {St} (f : @Visitor St) :
  (∀ s n, (f s n).2 = n ∨
          ∀ c, c ∈ children (f s n).2 → (weight c < weight n)%nat) →
  shrinking f.
Proof.
  intros H s n c Hc. destruct (H s n) as [E|Hw]; [|by apply Hw].
  rewrite E in Hc. by apply children_weight.
Qed.

Lemma lookup_sum_pos (l : list Node) i x :
  l !! i = Some x → (1 ≤ sum_with weight l)%nat.
Proof.
  intros H. apply list_elem_of_lookup_2, sum_with_elem in H.
  pose proof (weight_pos x). lia.
Qed.

Module ByAssignFacts.
Import ByAssign.

Lemma assign_mapEntry_weight index elt entry :
  mapEntry index elt = Some entry → (weight entry ≤ 2 * weight elt)%nat.
Proof.
  unfold mapEntry. destruct elt; try done.
  destruct (index <? _); [|done].
  destruct (Elts !! Z.to_nat index) as [[]|] eqn:E; try done.
  intros [= <-]. simpl.
  pose proof (sum_with_dropIndexFrom 0 index Elts).
  pose proof (lookup_sum_pos _ _ _ E).
  unfold dropIndex. destruct Typ; lia.
Qed.

Lemma assign_mapEntries_weight index elts :
  (sum_with weight (mapEntries index elts) ≤ 2 * sum_with weight elts)%nat.
Proof.
  induction elts as [|elt elts IH]; simpl; [lia|].
  destruct (mapEntry index elt) as [entry|] eqn:E; simpl; [|lia].
  apply assign_mapEntry_weight in E. lia.
Qed.

Lemma assign_convertRhs_weight lhs i s rhs :
  (weight (convertRhs lhs i s rhs).2 ≤ 2 * weight rhs)%nat.
Proof.
  unfold convertRhs. repeat (case_match; simpl; try lia). subst.
  match goal with
  | |- context [mapEntries ?index ?elts] =>
      pose proof (assign_mapEntries_weight index elts)
  end.
  unfold createStructTypeWithoutField. case_match; simpl; [lia|].
  match goal with
  | |- context [dropIndex ?index ?fields] =>
      pose proof (sum_with_dropIndexFrom 0 index fields)
  end.
  unfold dropIndex in *. lia.
Qed.

Lemma assign_convertRhsFrom_weight lhs i s rhs :
  (sum_with weight (convertRhsFrom lhs i s rhs).2 ≤ 2 * sum_with weight rhs)%nat.
Proof.
  revert i s. induction rhs as [|r rhs IH]; intros i s; simpl; [lia|].
  pose proof (assign_convertRhs_weight lhs i s r) as Hr.
  destruct (convertRhs lhs i s r) as [s1 r'].
  specialize (IH (S i) s1).
  destruct (convertRhsFrom lhs (S i) s1 rhs) as [s2 rest']. simpl in *. lia.
Qed.

Lemma assign_findTableTests_shrinking : shrinking findTableTests.
Proof.
  apply shrinking_children. intros s n. unfold findTableTests.
  repeat (case_match; try (by left)). right. subst. simpl.
  match goal with
  | H : convertRhsFrom ?lhs 0 s ?rhs = _ |- _ =>
      pose proof (assign_convertRhsFrom_weight lhs 0 s rhs) as Hw; rewrite H in Hw
  end.
  simpl in Hw.
  intros c [H|H]%elem_of_app; apply sum_with_elem in H; lia.
Qed.

Lemma assign_updateRange_shrinking : shrinking updateRange.
Proof.
  apply shrinking_children. intros s n. unfold updateRange.
  repeat (case_match; try (by left)). right. subst.
  intros c Hc. simpl in *.
  match goal with
  | |- context [weight ?b + 0] => idtac
  | |- (_ < S (_ + _ + _ + weight ?b))%nat => pose proof (weight_pos b)
  end.
  apply elem_of_cons in Hc as [->|Hc]; [simpl; lia|].
  apply elem_of_app in Hc as [Hc|Hc].
  - match type of Hc with
    | _ ∈ opt_list ?v => destruct v; simpl in Hc
    end; [|by apply elem_of_nil in Hc].
    apply elem_of_cons in Hc as [->|Hc]; [|by apply elem_of_nil in Hc].
    case_match; lia.
  - repeat (apply elem_of_cons in Hc as [->|Hc]); simpl; try lia.
    by apply elem_of_nil in Hc.
Qed.

Lemma assign_updateRunCall_shrinking : shrinking updateRunCall.
Proof.
  apply shrinking_children. intros s n. unfold updateRunCall.
  repeat (case_match; try (by left)). right. subst.
  intros c Hc. simpl in *.
  repeat (apply elem_of_cons in Hc as [->|Hc]); simpl; try lia.
  apply sum_with_elem in Hc. lia.
Qed.
End ByAssignFacts.

Module ByDeclFacts.
Import ByDecl.

Lemma decl_mapEntry_weight index elt entry :
  mapEntry index elt = Some entry → (weight entry ≤ 2 * weight elt)%nat.
Proof.
  unfold mapEntry. repeat (case_match; try done). intros [= <-]. subst. simpl.
  match goal with
  | E : ?elts !! _ = Some _ |- _ =>
      pose proof (lookup_sum_pos _ _ _ E);
      pose proof (sum_with_dropIndexFrom 0 index elts)
  end.
  unfold dropIndex. lia.
Qed.

Lemma decl_mapEntries_weight index elts :
  (sum_with weight (mapEntries index elts) ≤ 2 * sum_with weight elts)%nat.
Proof.
  induction elts as [|elt elts IH]; simpl; [lia|].
  destruct (mapEntry index elt) as [entry|] eqn:E; simpl; [|lia].
  apply decl_mapEntry_weight in E. lia.
Qed.

Lemma decl_convertElementsToMapEntries_weight elts index :
  (sum_with weight (convertElementsToMapEntries elts index)
   ≤ 2 * sum_with weight elts)%nat.
Proof.
  unfold convertElementsToMapEntries. case_match; [lia|].
  apply decl_mapEntries_weight.
Qed.

(** Once the spec's type is a map type the loop converts nothing more. *)
Lemma decl_convertValues_map s k v values :
  convertValues s (Some (MapType k v)) values = (s, Some (MapType k v), values).
Proof.
  induction values as [|value rest IH]; simpl; [done|]. by rewrite IH.
Qed.

Lemma decl_convertValues_weight s ty values :
  (weight_opt (convertValues s ty values).1.2
   + sum_with weight (convertValues s ty values).2
   ≤ 2 * weight_opt ty + 2 * sum_with weight values + 1)%nat.
Proof.
  revert s. induction values as [|value rest IH]; intros s; simpl; [lia|].
  assert (Hskip :
    (weight_opt (let '(s', ty', rest') := convertValues s ty rest in
                 (s', ty', value :: rest')).1.2
     + sum_with weight (let '(s', ty', rest') := convertValues s ty rest in
                        (s', ty', value :: rest')).2
     ≤ 2 * weight_opt ty + 2 * (weight value + sum_with weight rest) + 1)%nat).
  { specialize (IH s). destruct (convertValues s ty rest) as [[s' ty'] rest'].
    simpl in *. lia. }
  repeat (case_match; try exact Hskip). subst.
  match goal with
  | H : convertValues _ (Some (MapType _ _)) _ = _ |- _ =>
      rewrite decl_convertValues_map in H; injection H as <- <- <-
  end.
  simpl.
  match goal with
  | |- context [convertElementsToMapEntries ?elts ?index] =>
      pose proof (decl_convertElementsToMapEntries_weight elts index)
  end.
  lia.
Qed.

Lemma decl_convertSpec_weight s spec :
  (weight (convertSpec s spec).2 ≤ 3 * weight spec)%nat.
Proof.
  destruct spec; simpl; try lia.
  match goal with
  | |- context [convertValues ?s ?ty ?values] =>
      pose proof (decl_convertValues_weight s ty values) as Hw;
      destruct (convertValues s ty values) as [[s' ty'] values']
  end.
  simpl in *. unfold weight_opt in Hw. lia.
Qed.

Lemma decl_mapS_convertSpec_weight s specs :
  (sum_with weight (mapS convertSpec s specs).2 ≤ 3 * sum_with weight specs)%nat.
Proof.
  revert s. induction specs as [|spec specs IH]; intros s; simpl; [lia|].
  pose proof (decl_convertSpec_weight s spec) as Hs.
  destruct (convertSpec s spec) as [s1 spec'].
  specialize (IH s1). destruct (mapS convertSpec s1 specs) as [s2 specs'].
  simpl in *. lia.
Qed.

Lemma decl_findTableTests_shrinking : shrinking findTableTests.
Proof.
  apply shrinking_children. intros s n. unfold findTableTests.
  repeat (case_match; try (by left)). right. subst. simpl.
  match goal with
  | H : mapS convertSpec s ?specs = _ |- _ =>
      pose proof (decl_mapS_convertSpec_weight s specs) as Hw; rewrite H in Hw
  end.
  simpl in Hw. intros c H. apply sum_with_elem in H. lia.
Qed.

Lemma decl_updateRange_shrinking file : shrinking (updateRange file).
Proof.
  apply shrinking_children. intros s n. unfold updateRange.
  repeat (case_match; try (by left)); right; subst;
    intros c Hc; simpl in *;
    match goal with
    | |- (_ < S (_ + _ + _ + weight ?b))%nat => pose proof (weight_pos b)
    end;
    repeat (apply elem_of_app in Hc as [Hc|Hc]
            || apply elem_of_cons in Hc as [->|Hc]);
    try (by apply elem_of_nil in Hc); simpl; try lia;
    repeat match goal with
      | o : option Node |- _ => destruct o; simpl in *
      end;
    repeat (apply elem_of_cons in Hc as [->|Hc]);
    try (by apply elem_of_nil in Hc); lia.
Qed.

Lemma decl_updateRunCall_shrinking : shrinking updateRunCall.
Proof.
  apply shrinking_children. intros s n. unfold updateRunCall.
  repeat (case_match; try (by left)). right. subst.
  intros c Hc. simpl in *.
  repeat (apply elem_of_cons in Hc as [->|Hc]); simpl; try lia.
  apply sum_with_elem in Hc. lia.
Qed.
End ByDeclFacts.

(** ** Rows and entries *)

Lemma dropIndexFrom_past {A} (i index : Z) (l : list A) :
  index < i → dropIndexFrom i index l = l.
Proof.
  revert i. induction l as [|x l IH]; intros i H; simpl; [done|].
  destruct (Z.eqb_spec i index); [lia|]. rewrite IH; [done|lia].
Qed.

Lemma dropIndexFrom_delete {A} (i : Z) (k : nat) (l : list A) :
  dropIndexFrom i (i + Z.of_nat k) l = delete k l.
Proof.
  revert i k. induction l as [|x l IH]; intros i k; simpl; [by destruct k|].
  destruct k as [|k]; simpl.
  - replace (i + Z.of_nat 0) with i by lia. rewrite Z.eqb_refl.
    apply dropIndexFrom_past. lia.
  - destruct (Z.eqb_spec i (i + Z.of_nat (S k))); [lia|].
    f_equal. rewrite <- (IH (i + 1) k). f_equal. lia.
Qed.

Lemma dropIndex_delete {A} (k : nat) (l : list A) :
  dropIndex (Z.of_nat k) l = delete k l.
Proof. apply (dropIndexFrom_delete 0 k l). Qed.

Lemma findNameFieldFrom_index i fields nameField index :
  findNameFieldFrom i fields = (nameField, index) →
  nameField ≠ "" → i ≤ index.
Proof.
  revert i. induction fields as [|field rest IH]; intros i; simpl.
  - intros [= <- <-]. done.
  - assert (Hrest : findNameFieldFrom (i + 1) rest = (nameField, index) →
                    nameField ≠ "" → i ≤ index).
    { intros H1 H2. specialize (IH _ H1 H2). lia. }
    repeat (case_match; try exact Hrest). intros [= <- <-]. lia.
Qed.

(** A field that [findNameField] finds has a non-negative index. *)
Lemma findNameField_index structType nameField index :
  findNameField structType = (nameField, index) →
  nameField ≠ "" → 0 ≤ index.
Proof.
  destruct structType; simpl; try (intros [= <- <-]; done).
  apply findNameFieldFrom_index.
Qed.

Lemma ByAssign_mapEntry_spec (k : nat) (row : Node) :
  ByAssign.mapEntry (Z.of_nat k) row =
  match row, nameLiteral k row with
  | CompositeLit _ vals, Some lit =>
      Some (KeyValueExpr lit (CompositeLit None (delete k vals)))
  | _, _ => None
  end.
Proof.
  destruct row as [| |ty vals| | | | | | | | | | | | | | |]; try done.
  unfold ByAssign.mapEntry, nameLiteral.
  rewrite Nat2Z.id, dropIndex_delete.
  destruct (vals !! k) as [lit|] eqn:E.
  - apply lookup_lt_Some in E.
    destruct (Z.ltb_spec (Z.of_nat k) (Z.of_nat (length vals))); [|lia].
    by destruct lit.
  - by destruct (_ <? _).
Qed.

Lemma ByDecl_mapEntry_spec (k : nat) (row : Node) :
  ByDecl.mapEntry (Z.of_nat k) row =
  match row, nameLiteral k row with
  | CompositeLit _ vals, Some (BasicLit _ text) =>
      Some (KeyValueExpr (BasicLit STRING text)
              (CompositeLit None (delete k vals)))
  | _, _ => None
  end.
Proof.
  destruct row as [| |ty vals| | | | | | | | | | | | | | |]; try done.
  unfold ByDecl.mapEntry, nameLiteral.
  rewrite Nat2Z.id, dropIndex_delete.
  destruct (vals !! k) as [lit|] eqn:E.
  - apply lookup_lt_Some in E.
    destruct (Z.geb_spec (Z.of_nat k) (Z.of_nat (length vals))); [lia|].
    by destruct lit.
  - by destruct (_ >=? _).
Qed.

Lemma ByAssign_mapEntries_rows (k : nat) (rows : list Node) :
  Forall2 (keyedByLiteral k) (List.filter (hasNameLiteral k) rows)
    (ByAssign.mapEntries (Z.of_nat k) rows).
Proof.
  induction rows as [|row rows IH]; simpl; [constructor|].
  rewrite ByAssign_mapEntry_spec. unfold hasNameLiteral.
  destruct row as [| |ty vals| | | | | | | | | | | | | | |];
    try (simpl; exact IH).
  destruct (nameLiteral k (CompositeLit ty vals)) as [lit|] eqn:E; [|exact IH].
  constructor; [|exact IH].
  exists lit. split; [done|]. by exists ty, vals.
Qed.

Lemma ByDecl_mapEntries_rows (k : nat) (rows : list Node) :
  Forall2 (keyedByLiteralText k) (List.filter (hasNameLiteral k) rows)
    (ByDecl.mapEntries (Z.of_nat k) rows).
Proof.
  induction rows as [|row rows IH]; simpl; [constructor|].
  rewrite ByDecl_mapEntry_spec. unfold hasNameLiteral.
  destruct row as [| |ty vals| | | | | | | | | | | | | | |];
    try (simpl; exact IH).
  destruct (nameLiteral k (CompositeLit ty vals)) as [lit|] eqn:E; [|exact IH].
  assert (∃ kind text, lit = BasicLit kind text) as (kind & text & ->).
  { unfold nameLiteral in E. repeat case_match; try done.
    injection E as <-. eauto. }
  constructor; [|exact IH].
  exists kind, text. split; [done|]. by exists ty, vals.
Qed.

(** The entries a conversion builds with the index [index] are, in order,
    those of the rows that have a basic literal at position [index]; each
    entry is keyed by that literal (in the first copy: by a string-kind
    literal with the same text), and its value is a composite literal
    holding the other values of the row, unaltered and in their original
    order. *)
Lemma entries_keyed_at_index (index : nat) (rows : list Node) :
  Forall2 (keyedByLiteral index) (List.filter (hasNameLiteral index) rows)
    (ByAssign.mapEntries (Z.of_nat index) rows)
  ∧ Forall2 (keyedByLiteralText index) (List.filter (hasNameLiteral index) rows)
      (ByDecl.convertElementsToMapEntries rows (Z.of_nat index)).
Proof.
  split; [apply ByAssign_mapEntries_rows|].
  unfold ByDecl.convertElementsToMapEntries.
  destruct (Z.ltb_spec (Z.of_nat index) 0); [lia|].
  apply ByDecl_mapEntries_rows.
Qed.

(** ** The call-site rewrite *)

(** C10.  The rewrite of a [t.Run] argument fires only on a field access
    whose base is the identifier [tc]: in both copies, a call whose first
    argument is a field access on an identifier of any other name is left as
    it is, and so is the state, whatever the table variables recorded. *)
Theorem run_call_needs_tc (x sel : string) (fn : Node) (rest : list Node)
    (s2 : ByAssign.State) (s1 : ByDecl.State) :
  x ≠ "tc" →
  ByAssign.updateRunCall s2 (CallExpr fn (SelectorExpr (Ident x) sel :: rest))
  = (s2, CallExpr fn (SelectorExpr (Ident x) sel :: rest))
  ∧ ByDecl.updateRunCall s1 (CallExpr fn (SelectorExpr (Ident x) sel :: rest))
    = (s1, CallExpr fn (SelectorExpr (Ident x) sel :: rest)).
Proof.
  intros Hx. apply String.eqb_neq in Hx.
  unfold ByAssign.updateRunCall, ByDecl.updateRunCall. rewrite Hx.
  split; repeat case_match; try done.
  all: match goal with
       | H : _ && (false && _) = true |- _ =>
           rewrite andb_false_l, andb_false_r in H; discriminate H
       end.
Qed.

Lemma run_call_needs_tc_witness :
  ByAssign.updateRunCall (ByAssign.mkState true 1 {["tests"]})
    (CallExpr (SelectorExpr (Ident "t") "Run")
       [SelectorExpr (Ident "test") "name"; Ident "check"])
  = (ByAssign.mkState true 1 {["tests"]},
     CallExpr (SelectorExpr (Ident "t") "Run")
       [SelectorExpr (Ident "test") "name"; Ident "check"])
  ∧ ByDecl.updateRunCall (ByDecl.mkState true 1)
      (CallExpr (SelectorExpr (Ident "t") "Run")
         [SelectorExpr (Ident "test") "name"; Ident "check"])
    = (ByDecl.mkState true 1,
       CallExpr (SelectorExpr (Ident "t") "Run")
         [SelectorExpr (Ident "test") "name"; Ident "check"]).
Proof.
  apply (run_call_needs_tc "test" "name" (SelectorExpr (Ident "t") "Run")
           [Ident "check"]).
  discriminate.
Defined.

(** In the second copy the rewrite fires for each of the three names. *)
Lemma ByAssign_run_call_aliases (s : ByAssign.State) (sel : string)
    (rest : list Node) :
  isNameFieldName sel = true →
  ByAssign.updateRunCall s
    (CallExpr (SelectorExpr (Ident "t") "Run")
       (SelectorExpr (Ident "tc") sel :: rest))
  = (ByAssign.setModified s,
     CallExpr (SelectorExpr (Ident "t") "Run") (Ident "name" :: rest)).
Proof.
  unfold isNameFieldName, ByAssign.updateRunCall. intros ->. done.
Qed.

(** C7.  The first copy on a table keyed by a [desc] field: the table is
    converted, and [t.Run(tc.desc, check)] is left as it was, although the
    field it reads is gone from the rows. *)
Theorem ByDecl_desc_call_kept :
  ByDecl.convert Samples.descDeclFile = (Samples.descDeclFileAfter, (true, 1)).
Proof. vm_compute. reflexivity. Qed.

(** ** No table at all *)

(** Step 2 of the second copy does look at the variable: it changes a range
    statement only when the variable ranged over was recorded as a table. *)
Lemma ByAssign_range_needs_table_var (s : ByAssign.State) (n : Node) :
  ByAssign.updateRange s n ≠ (s, n) →
  ∃ key value name body,
    n = RangeStmt key value (Ident name) body
    ∧ name ∈ ByAssign.tableTestVars s.
Proof.
  unfold ByAssign.updateRange. intros H.
  repeat (case_match; try done). subst.
  match goal with
  | E : bool_decide _ = true |- _ => apply bool_decide_eq_true in E
  end.
  eauto 10.
Qed.

(** C2.  On a file that has no table, both copies rewrite the argument of
    [t.Run(tc.name, check)] to [name] and report a modification with no
    table converted: the loop ranges over a variable neither converted. *)
Theorem call_rewritten_without_table :
  ByAssign.convert Samples.noTableFile = (Samples.noTableFileAfter, (true, 0))
  ∧ ByDecl.convert Samples.noTableFile = (Samples.noTableFileAfter, (true, 0)).
Proof. split; vm_compute; reflexivity. Qed.

(** C6.  The same file through [processFile]: it is written back, with what
    the printer makes of the rewritten tree, and reported as modified. *)
Theorem no_table_file_written :
  processFile ByAssign.convert SampleRun.ParseFile SampleRun.Create
    SampleRun.Fprint SampleRun.testPath SampleRun.disk
  = ({[ SampleRun.testPath := SampleRun.printed ]}, (mkFileResult true 0, None))
  ∧ processFile ByDecl.convert SampleRun.ParseFile SampleRun.Create
      SampleRun.Fprint SampleRun.testPath SampleRun.disk
    = ({[ SampleRun.testPath := SampleRun.printed ]}, (mkFileResult true 0, None)).
Proof. split; vm_compute; reflexivity. Qed.

(** ** A second run *)

(** C5.  The first copy on a declared table with a loop over its indices:
    the first run converts the table; a second run over the converted tree
    changes nothing in it and still reports a modification, so the file is
    written again. *)
Theorem ByDecl_second_run_modifies :
  ByDecl.convert Samples.indexLoopFile = (Samples.indexLoopFileAfter, (true, 1))
  ∧ ByDecl.convert Samples.indexLoopFileAfter
    = (Samples.indexLoopFileAfter, (true, 0)).
Proof. split; vm_compute; reflexivity. Qed.

(** ** Rows without a literal name *)

(** C1, as stated, fails: the table with the rows [{"one", 1}, {label, 2}]
    is converted by both copies. *)
Lemma nonliteral_row_table_converted :
  ¬ unconvertedIfNonLiteral ByAssign.findTableTests
      (ByAssign.mkState false 0 ∅) 0 Samples.mixedRows Samples.mixedAssign
  ∧ ¬ unconvertedIfNonLiteral ByDecl.findTableTests
        (ByDecl.mkState false 0) 0 Samples.mixedRows Samples.mixedDecl.
Proof.
  split; intros H; specialize (H eq_refl); apply (f_equal snd) in H;
    vm_compute in H; discriminate H.
Qed.

(** What the two copies make of that table: a map with the one entry of the
    row that has a literal name. *)
Lemma mixed_table_after :
  (ByAssign.findTableTests (ByAssign.mkState false 0 ∅) Samples.mixedAssign).2
  = Samples.mixedAssignAfter
  ∧ (ByDecl.findTableTests (ByDecl.mkState false 0) Samples.mixedDecl)
    = (ByDecl.mkState true 1, Samples.mixedDeclAfter).
Proof. split; vm_compute; reflexivity. Qed.

(** ** Failures while writing *)




(** ** The batch *)

Lemma int_add_wrap a b : int_add (int_wrap a) b = int_wrap (a + b).
Proof.
  unfold int_add, int_wrap.
  replace ((a + 2 ^ 63) mod 2 ^ 64 - 2 ^ 63 + b + 2 ^ 63)
    with ((a + 2 ^ 63) mod 2 ^ 64 + b) by lia.
  rewrite Zplus_mod_idemp_l. f_equal. f_equal. lia.
Qed.

Lemma Walk_app {A} (fn : A → WalkEntry → A * option string)
    (l1 l2 : list WalkEntry) (a a1 : A) :
  Walk fn l1 a = (a1, None) → Walk fn (l1 ++ l2) a = Walk fn l2 a1.
Proof.
  revert a. induction l1 as [|e l1 IH]; intros a; simpl.
  - by intros [= ->].
  - destruct (fn a e) as [a' [err|]]; [done|]. apply IH.
Qed.

Ltac unfold_visit := unfold visit.
Ltac unfold_outcome := unfold outcome.
Ltac unfold_diskAfter := unfold diskAfter.
Ltac unfold_ConvertTableTests := unfold ConvertTableTests.

Lemma Walk_cons {A} (fn : A → WalkEntry → A * option string)
    (e : WalkEntry) (rest : list WalkEntry) (a : A) :
  Walk fn (e :: rest) a =
  match fn a e with
  | (a', Some err) => (a', Some err)
  | (a', None) => Walk fn rest a'
  end.
Proof. simpl. by destruct (fn a e) as [a' [err|]]. Qed.

Section Batch.
Variable convert : Node → Node * (bool * Z).
Variable ParseFile : option string → Node + string.
Variable Create : FS → string → option string.
Variable Fprint : string → Node → string * option string.
Variable walkEntries : string → list WalkEntry.

Local Abbreviation processFile := (processFile convert ParseFile Create Fprint).
Local Abbreviation visit := (visit convert ParseFile Create Fprint).
Local Abbreviation outcome := (outcome convert ParseFile Create Fprint).
Local Abbreviation diskAfter := (diskAfter convert ParseFile Create Fprint).
Local Abbreviation outcomes := (outcomes convert ParseFile Create Fprint).
Local Abbreviation ConvertTableTests :=
  (ConvertTableTests convert ParseFile Create Fprint walkEntries).

Lemma outcomes_cons e rest fs :
  outcomes (e :: rest) fs = outcome fs e :: outcomes rest (diskAfter fs e).
Proof. reflexivity. Qed.

(** The callback never returns an error. *)
Lemma visit_returns_nil st e : (visit st e).2 = None.
Proof.
  unfold_visit. destruct st as [fs result].
  repeat case_match; done.
Qed.

Lemma Walk_visit_returns_nil entries st : (Walk visit entries st).2 = None.
Proof.
  revert st. induction entries as [|e rest IH]; intros st; [done|].
  rewrite Walk_cons.
  pose proof (visit_returns_nil st e) as H.
  destruct (visit st e) as [st' r]. simpl in H. subst r. apply IH.
Qed.

(** The batch returns its result, never an error. *)
Lemma ConvertTableTests_returns_result directory fs :
  (ConvertTableTests directory fs).2.2 = None.
Proof.
  unfold_ConvertTableTests.
  pose proof (Walk_visit_returns_nil (walkEntries directory)
                (fs, mkConversionResult 0 0 0 [])) as H.
  destruct (Walk _ _ _) as [[fs' result'] err]. simpl in H. by subst err.
Qed.

(** A file whose processing fails: the message is appended, and the
    counters stay. *)
Lemma visit_failed_file fs result e fs' fileResult err :
  isGoFile e →
  processFile (path e) fs = (fs', (fileResult, Some err)) →
  visit (fs, result) e
  = ((fs', addError result (processingError (path e) err)), None).
Proof.
  intros (Hw & Hd & Hs) Hp. unfold_visit.
  by rewrite Hw, Hd, Hs, Hp.
Qed.

(** A file processed without error: counted, and no message. *)
Lemma visit_processed_file fs result e fs' fileResult :
  isGoFile e →
  processFile (path e) fs = (fs', (fileResult, None)) →
  ∃ result',
    visit (fs, result) e = ((fs', result'), None)
    ∧ FilesProcessed result' = int_add (FilesProcessed result) 1
    ∧ Errors result' = Errors result.
Proof.
  intros (Hw & Hd & Hs) Hp. unfold_visit.
  rewrite Hw, Hd, Hs, Hp. simpl.
  destruct (Modified fileResult); eexists; (split; [done|done]).
Qed.

Lemma visit_disk fs result e : (visit (fs, result) e).1.1 = diskAfter fs e.
Proof.
  unfold_visit; unfold_diskAfter.
  repeat case_match; simplify_eq; simpl; try done.
  all: match goal with H : processFile _ _ = _ |- _ => by rewrite H end.
Qed.

Lemma visit_errors_grow fs result e :
  ∃ more : list string,
    Errors (visit (fs, result) e).1.2 = (Errors result ++ more)%list.
Proof.
  unfold_visit.
  repeat case_match; simpl; try (by eexists); exists []; by rewrite app_nil_r.
Qed.

Lemma Walk_errors_grow entries fs result :
  ∃ more : list string,
    Errors (Walk visit entries (fs, result)).1.2 = (Errors result ++ more)%list.
Proof.
  revert fs result.
  induction entries as [|e rest IH]; intros fs result;
    [exists []; by rewrite app_nil_r|].
  rewrite Walk_cons.
  pose proof (visit_returns_nil (fs, result) e) as Hn.
  destruct (visit_errors_grow fs result e) as [m1 H1].
  destruct (visit (fs, result) e) as [[fs1 r1] r]. simpl in *. subst r.
  destruct (IH fs1 r1) as [m2 H2]. exists (m1 ++ m2)%list.
  by rewrite H2, H1, app_assoc.
Qed.

(** C8.  A file whose processing fails in the middle of a batch: its
    message is appended to the errors gathered so far, the walk goes on
    with the remaining entries from there, the message is still in the
    final error list, and the batch returns its result with no error. *)
Theorem batch_survives_file_error (directory : string) (fs : FS)
    (before after : list WalkEntry) (e : WalkEntry)
    (fs1 fs2 : FS) (r1 : ConversionResult) (fileResult : FileResult)
    (err : string) :
  walkEntries directory = (before ++ e :: after)%list →
  Walk visit before (fs, mkConversionResult 0 0 0 []) = ((fs1, r1), None) →
  isGoFile e →
  processFile (path e) fs1 = (fs2, (fileResult, Some err)) →
  ∃ fs3 r3 more,
    ConvertTableTests directory fs = (fs3, (r3, None))
    ∧ Walk visit after (fs2, addError r1 (processingError (path e) err))
      = ((fs3, r3), None)
    ∧ FilesProcessed (addError r1 (processingError (path e) err))
      = FilesProcessed r1
    ∧ Errors r3 = (Errors r1 ++ processingError (path e) err :: more)%list.
Proof.
  intros Hentries Hbefore Hgo Hp.
  set (msg := processingError (path e) err).
  pose proof (Walk_visit_returns_nil after (fs2, addError r1 msg)) as Hn.
  destruct (Walk_errors_grow after fs2 (addError r1 msg)) as [more Hmore].
  destruct (Walk visit after (fs2, addError r1 msg)) as [[fs3 r3] r] eqn:Ha.
  simpl in Hn, Hmore. subst r.
  exists fs3, r3, more. split; [|split; [done|split; [done|]]].
  - unfold_ConvertTableTests.
    rewrite Hentries, (Walk_app _ _ _ _ _ Hbefore), Walk_cons.
    rewrite (visit_failed_file _ _ _ _ _ _ Hgo Hp). fold msg.
    by rewrite Ha.
  - rewrite Hmore. simpl. by rewrite <- app_assoc.
Qed.

Lemma Walk_visit_counts entries fs result x :
  FilesProcessed result = int_wrap x →
  FilesProcessed (Walk visit entries (fs, result)).1.2
  = int_wrap (x + Z.of_nat (length (List.filter isCounted (outcomes entries fs))))
  ∧ length (Errors (Walk visit entries (fs, result)).1.2)
    = (length (Errors result)
       + length (List.filter isRecorded (outcomes entries fs)))%nat.
Proof.
  revert fs result x.
  induction entries as [|e rest IH]; intros fs result x Hx;
    [simpl; rewrite Z.add_0_r; split; [done|lia]|].
  rewrite Walk_cons, outcomes_cons.
  pose proof (visit_returns_nil (fs, result) e) as Hn.
  pose proof (visit_disk fs result e) as Hd.
  destruct (visit (fs, result) e) as [[fs1 r1] r] eqn:Hv.
  simpl in Hn, Hd. subst r.
  assert (Hstep :
    FilesProcessed r1
    = int_wrap (x + (if isCounted (outcome fs e) then 1 else 0))
    ∧ length (Errors r1)
      = (length (Errors result)
         + (if isRecorded (outcome fs e) then 1 else 0))%nat).
  { clear Hd. revert Hv. unfold_visit; unfold_outcome.
    destruct (walkErr e).
    { intros [= _ <-]. simpl. rewrite length_app, Z.add_0_r. simpl. done. }
    destruct (isDir e || negb (HasSuffix (path e) ".go")).
    { intros [= _ <-]. simpl. rewrite Z.add_0_r. split; [done|lia]. }
    destruct (processFile (path e) fs) as [fs' [fileResult [err|]]]; simpl.
    { intros [= _ <-]. simpl. rewrite length_app, Z.add_0_r. simpl. done. }
    destruct (Modified fileResult); intros [= _ <-]; simpl;
      rewrite Hx, int_add_wrap; split; [done|lia|done|lia]. }
  destruct Hstep as [Hf He]. subst fs1.
  destruct (IH (diskAfter fs e) r1 _ Hf) as [IH1 IH2].
  rewrite IH1, IH2, He.
  destruct (outcome fs e); simpl; split; try lia; f_equal; lia.
Qed.

(** C9.  The counter [FilesProcessed] of a batch is the number of files
    whose processing returned no error (as a Go [int]), and the error list
    has one message for each entry that could not be accessed or whose
    processing returned an error: a failing file adds a message and is not
    counted. *)
Theorem files_processed_counts_successes (directory : string) (fs : FS) :
  FilesProcessed (ConvertTableTests directory fs).2.1
  = int_wrap
      (Z.of_nat
         (length (List.filter isCounted (outcomes (walkEntries directory) fs))))
  ∧ length (Errors (ConvertTableTests directory fs).2.1)
    = length (List.filter isRecorded (outcomes (walkEntries directory) fs)).
Proof.
  unfold_ConvertTableTests.
  pose proof (Walk_visit_counts (walkEntries directory) fs
                (mkConversionResult 0 0 0 []) 0 eq_refl) as [H1 H2].
  destruct (Walk _ _ _) as [[fs' result'] [err|]]; simpl in *;
    by rewrite H1, H2.
Qed.
End Batch.

Lemma batch_survives_file_error_witness :
  ∃ fs3 r3 more,
    ConvertTableTests ByAssign.convert SampleRun.ParseBroken SampleRun.Create
      SampleRun.Fprint SampleRun.walkEntries "samples" SampleRun.diskWithBroken
    = (fs3, (r3, None))
    ∧ Walk (visit ByAssign.convert SampleRun.ParseBroken SampleRun.Create
              SampleRun.Fprint)
        [mkWalkEntry SampleRun.testPath false None]
        (SampleRun.diskWithBroken,
         addError (mkConversionResult 0 0 0 [])
           (processingError SampleRun.brokenPath
              "error parsing file: expected 'package', found 'EOF'"))
      = ((fs3, r3), None)
    ∧ FilesProcessed
        (addError (mkConversionResult 0 0 0 [])
           (processingError SampleRun.brokenPath
              "error parsing file: expected 'package', found 'EOF'"))
      = FilesProcessed (mkConversionResult 0 0 0 [])
    ∧ Errors r3
      = (Errors (mkConversionResult 0 0 0 [])
         ++ processingError SampleRun.brokenPath
              "error parsing file: expected 'package', found 'EOF'" :: more)%list.
Proof.
  apply (batch_survives_file_error ByAssign.convert SampleRun.ParseBroken
           SampleRun.Create SampleRun.Fprint SampleRun.walkEntries
           "samples" SampleRun.diskWithBroken
           [mkWalkEntry "samples" true None]
           [mkWalkEntry SampleRun.testPath false None]
           (mkWalkEntry SampleRun.brokenPath false None)
           SampleRun.diskWithBroken SampleRun.diskWithBroken
           (mkConversionResult 0 0 0 []) (mkFileResult false 0)
           "error parsing file: expected 'package', found 'EOF'").
  - reflexivity.
  - vm_compute. reflexivity.
  - repeat split; vm_compute; reflexivity.
  - vm_compute. reflexivity.
Defined.

(** The sample batch: the broken file is reported, the other file is
    processed, rewritten and counted. *)
Example sample_batch :
  (ConvertTableTests ByAssign.convert SampleRun.ParseBroken SampleRun.Create
     SampleRun.Fprint SampleRun.walkEntries "samples" SampleRun.diskWithBroken).2
  = (mkConversionResult 1 1 0
       ["Error processing samples/broken_test.go: error parsing file: expected 'package', found 'EOF'"],
     None).
Proof. vm_compute. reflexivity. Qed.


(** ** Walks and what callbacks can see *)

Section TameWalks.
Context {St : Type}.
Implicit Types (f rec : @Visitor St) (s : St) (n c : Node) (l : list Node).

Lemma mapS_map rec (g : Node → Node) l :
  (∀ s c, c ∈ l → g (rec s c).2 = g c) →
  ∀ s, map g (mapS rec s l).2 = map g l.
Proof.
  induction l as [|n l IH]; intros H s; simpl; [done|].
  pose proof (H s n (list_elem_of_here _ _)) as Hn.
  destruct (rec s n) as [s1 n']. simpl in Hn.
  specialize (IH (fun s c Hc => H s c (list_elem_of_further _ _ _ Hc)) s1).
  destruct (mapS rec s1 l) as [s2 l']. simpl in *. by rewrite Hn, IH.
Qed.

Lemma optS_map rec (g : Node → Node) (o : option Node) :
  (∀ s c, c ∈ opt_list o → g (rec s c).2 = g c) →
  ∀ s, g <$> (optS rec s o).2 = g <$> o.
Proof.
  destruct o as [n|]; intros H s; simpl; [|done].
  pose proof (H s n (list_elem_of_here _ _)) as Hn.
  destruct (rec s n) as [s1 n']. simpl in *. by rewrite Hn.
Qed.

Lemma label_descend rec s n : label (descend rec s n).2 = label n.
Proof.
  destruct n; simpl; try done;
    repeat match goal with
      | |- context [optS rec ?s ?o] =>
          let E := fresh in destruct o; simpl
      | |- context [mapS rec ?s ?l] => destruct (mapS rec s l)
      | |- context [rec ?s ?c] => destruct (rec s c)
      end; done.
Qed.

Lemma label_walk f : tame f → ∀ s n, label (Inspect f s n).2 = label n.
Proof.
  intros Hf s n. rewrite (Inspect_eq f (tame_shrinking f Hf)).
  pose proof (tame_label f Hf s n) as H.
  destruct (f s n) as [s1 n1]. simpl in H. by rewrite label_descend.
Qed.

Lemma transparent_label n : transparent (label n) = transparent n.
Proof. by destruct n. Qed.

Lemma walk_transparent f :
  tame f → ∀ s n, transparent n = true →
  Inspect f s n = descend (Inspect f) s n.
Proof.
  intros Hf s n Ht. rewrite (Inspect_eq f (tame_shrinking f Hf)).
  by rewrite (tame_transparent f Hf s n Ht).
Qed.

(** The children of a walked node, seen through [g], when [g] cannot tell a
    walked child from the child. *)
Lemma mapChildren_descend rec (g : Node → Node) s n :
  (∀ s c, c ∈ children n → g (rec s c).2 = g c) →
  mapChildren g (descend rec s n).2 = mapChildren g n.
Proof.
  intros Hall.
  destruct n; simpl in *; try done;
    repeat match goal with
      | |- context [optS rec ?s ?o] =>
          let H := fresh in
          pose proof (optS_map rec g o
                        ltac:(intros; apply Hall; set_solver) s) as H;
          destruct (optS rec s o); simpl in H
      | |- context [mapS rec ?s ?l] =>
          let H := fresh in
          pose proof (mapS_map rec g l
                        ltac:(intros; apply Hall; set_solver) s) as H;
          destruct (mapS rec s l); simpl in H
      | |- context [rec ?s ?c] =>
          let H := fresh in
          pose proof (Hall s c ltac:(set_solver)) as H;
          destruct (rec s c); simpl in H
      end; simpl; congruence.
Qed.

Lemma prune_transparent d n :
  transparent n = false → prune d n = label n.
Proof. intros H. destruct d; simpl; [done|]. by rewrite H. Qed.

(** A walk changes nothing a callback can see along transparent nodes. *)
Lemma prune_walk f :
  tame f → ∀ d s n, prune d (Inspect f s n).2 = prune d n.
Proof.
  intros Hf d. induction d as [|d IH]; intros s n; simpl.
  - by apply label_walk.
  - rewrite <- (transparent_label (Inspect f s n).2), (label_walk f Hf),
      transparent_label.
    destruct (transparent n) eqn:Ht; [|done].
    rewrite (walk_transparent f Hf s n Ht).
    apply mapChildren_descend. intros s' c _. apply IH.
Qed.

Lemma mapS_prune f :
  tame f → ∀ d s l, map (prune d) (mapS (Inspect f) s l).2 = map (prune d) l.
Proof.
  intros Hf d s l. apply mapS_map. intros s' c _. by apply prune_walk.
Qed.
Lemma mapS_id rec s l :
  (∀ c, c ∈ l → rec s c = (s, c)) → mapS rec s l = (s, l).
Proof.
  induction l as [|n l IH]; intros H; simpl; [done|].
  rewrite (H n) by left. rewrite IH; [done|]. intros c Hc. apply H. by right.
Qed.

Lemma descend_id rec s n :
  (∀ c, c ∈ children n → rec s c = (s, c)) → descend rec s n = (s, n).
Proof.
  intros H.
  assert (Hm : ∀ l, (∀ c, c ∈ l → c ∈ children n) → mapS rec s l = (s, l)).
  { intros l Hl. apply mapS_id. intros c Hc. apply H, Hl, Hc. }
  assert (Ho : ∀ o, (∀ c, c ∈ opt_list o → c ∈ children n) →
               optS rec s o = (s, o)).
  { intros [c|] Hl; simpl; [|done]. rewrite H; [done|]. apply Hl. left. }
  destruct n; simpl in *; try done;
    repeat first
      [ rewrite Ho by (intros ? ?; set_solver)
      | rewrite Hm by (intros ? ?; set_solver)
      | rewrite H by set_solver ];
    done.
Qed.

Lemma mapS_elem rec s l x' :
  x' ∈ (mapS rec s l).2 → ∃ s' x, x ∈ l ∧ x' = (rec s' x).2.
Proof.
  revert s. induction l as [|n l IH]; intros s; simpl.
  - intros H. by apply elem_of_nil in H.
  - destruct (rec s n) as [s1 n'] eqn:E.
    specialize (IH s1). destruct (mapS rec s1 l) as [s2 l']. simpl in *.
    intros [->|H]%elem_of_cons.
    + exists s, n. split; [left|]. by rewrite E.
    + destruct (IH H) as (s' & x & Hx & ->). exists s', x. split; [by right|done].
Qed.

Lemma optS_elem rec s (o : option Node) x' :
  x' ∈ opt_list (optS rec s o).2 → ∃ s' x, x ∈ opt_list o ∧ x' = (rec s' x).2.
Proof.
  destruct o as [n|]; simpl.
  - destruct (rec s n) as [s1 n'] eqn:E. simpl.
    intros [->|H]%elem_of_cons; [|by apply elem_of_nil in H].
    exists s, n. split; [left|]. by rewrite E.
  - intros H. by apply elem_of_nil in H.
Qed.

(** Every child of a walked node is a walked child of the node. *)
Lemma children_descend rec s n c' :
  c' ∈ children (descend rec s n).2 →
  ∃ s' c, c ∈ children n ∧ c' = (rec s' c).2.
Proof.
  assert (Hsub : ∀ l, (∀ c, c ∈ l → c ∈ children n) → ∀ s,
            c' ∈ (mapS rec s l).2 → ∃ s' c, c ∈ children n ∧ c' = (rec s' c).2).
  { intros l Hl s0 H. destruct (mapS_elem _ _ _ _ H) as (s' & x & Hx & ->).
    exists s', x. split; [by apply Hl|done]. }
  assert (Hopt : ∀ o, (∀ c, c ∈ opt_list o → c ∈ children n) → ∀ s,
            c' ∈ opt_list (optS rec s o).2 →
            ∃ s' c, c ∈ children n ∧ c' = (rec s' c).2).
  { intros o Hl s0 H. destruct (optS_elem _ _ _ _ H) as (s' & x & Hx & ->).
    exists s', x. split; [by apply Hl|done]. }
  assert (Hone : ∀ c, c ∈ children n → ∀ s,
            c' = (rec s c).2 → ∃ s' c, c ∈ children n ∧ c' = (rec s' c).2).
  { intros c Hc s0 ->. by exists s0, c. }
  destruct n; simpl in *;
    try (intros H; by apply elem_of_nil in H);
    repeat match goal with
      | |- context [optS rec ?s ?o] =>
          let H := fresh in
          pose proof (Hopt o ltac:(intros ? ?; set_solver) s) as H;
          destruct (optS rec s o); simpl in H
      | |- context [mapS rec ?s ?l] =>
          let H := fresh in
          pose proof (Hsub l ltac:(intros ? ?; set_solver) s) as H;
          destruct (mapS rec s l); simpl in H
      | |- context [rec ?s ?c] =>
          let H := fresh in
          pose proof (Hone c ltac:(set_solver) s) as H;
          destruct (rec s c); simpl in H
      end; simpl;
    intros Hc;
    repeat (apply elem_of_app in Hc as [Hc|Hc]
            || apply elem_of_cons in Hc as [Hc|Hc]);
    try (by apply elem_of_nil in Hc); eauto.
Qed.

(** A walk on which the callback is silent at every node returns the tree
    and the state as they were. *)
Lemma walk_quiet f (I : St → Prop) n :
  shrinking f →
  everywhere (fun n => ∀ s, I s → f s n = (s, n)) n →
  ∀ s, I s → Inspect f s n = (s, n).
Proof.
  intros Hf H. induction H as [n Hn _ IH]. intros s Hs.
  rewrite (Inspect_eq f Hf), (Hn s Hs).
  apply descend_id. intros c Hc. by apply IH.
Qed.

Lemma everywhere_all (P : Node → Prop) : (∀ n, P n) → ∀ n, everywhere P n.
Proof.
  intros HP n. remember (weight n) as k eqn:Hk. revert n Hk.
  induction k as [k IH] using lt_wf_ind. intros n ->.
  constructor; [done|]. intros c Hc.
  apply (IH (weight c)); [by apply children_weight|done].
Qed.

(** A walk leaves a tree in which [Q] holds at every node, when the
    callback establishes [Q] at the node and the walk below keeps it. *)
Lemma walk_establishes f (Q : Node → bool) :
  tame f →
  (∀ s n, Q (f s n).2 = true) →
  (∀ s n, Q (descend (Inspect f) s n).2 = Q n) →
  ∀ s n, everywhere (fun m => Q m = true) (Inspect f s n).2.
Proof.
  intros Hf Hcb Hdesc s n. remember (weight n) as k eqn:Hk. revert s n Hk.
  induction k as [k IH] using lt_wf_ind. intros s n ->.
  rewrite (Inspect_eq f (tame_shrinking f Hf)).
  pose proof (Hcb s n) as H1.
  pose proof (tame_shrinking f Hf s n) as Hw.
  destruct (f s n) as [s1 n1]. simpl in *.
  constructor; [by rewrite Hdesc|].
  intros c' Hc'. apply children_descend in Hc' as (s' & c & Hc & ->).
  apply (IH (weight c)); [by apply Hw|done].
Qed.

(** A walk keeps [Q] at every node, when the callback keeps it at the
    node, puts nothing below the node but what was there or leaves on which
    [Q] holds, and the walk below keeps it. *)
Lemma walk_preserves f (Q : Node → bool) :
  tame f →
  (∀ s n, Q (f s n).2 = Q n) →
  (∀ s n c, c ∈ children (f s n).2 →
     c ∈ children n ∨ (children c = [] ∧ Q c = true)) →
  (∀ s n, Q (descend (Inspect f) s n).2 = Q n) →
  ∀ s n, everywhere (fun m => Q m = true) n →
         everywhere (fun m => Q m = true) (Inspect f s n).2.
Proof.
  intros Hf Hcb Hnew Hdesc s n. remember (weight n) as k eqn:Hk. revert s n Hk.
  induction k as [k IH] using lt_wf_ind. intros s n -> Hn.
  rewrite (Inspect_eq f (tame_shrinking f Hf)).
  pose proof (Hcb s n) as H1. pose proof (Hnew s n) as H2.
  pose proof (tame_shrinking f Hf s n) as Hw.
  destruct (f s n) as [s1 n1]. simpl in *.
  destruct Hn as [n Hq Hch].
  constructor; [by rewrite Hdesc, H1|].
  intros c' Hc'. apply children_descend in Hc' as (s' & c & Hc & ->).
  apply (IH (weight c)); [by apply Hw|done|].
  destruct (H2 c Hc) as [Hin|[Hleaf Hqc]]; [by apply Hch|].
  constructor; [done|]. rewrite Hleaf. intros x Hx. by apply elem_of_nil in Hx.
Qed.
End TameWalks.

(** ** The second copy converts a file once *)

Lemma lookup_map {A B} (g : A → B) (l : list A) (i : nat) :
  map g l !! i = g <$> l !! i.
Proof.
  revert i. induction l as [|x l IH]; intros [|i]; simpl; try done.
Qed.

Lemma findNameFieldFrom_label i fields :
  findNameFieldFrom i (map label fields) = findNameFieldFrom i fields.
Proof.
  revert i. induction fields as [|field rest IH]; intros i; simpl; [done|].
  destruct field; simpl; by rewrite ?IH.
Qed.

Lemma tableFields_prune r :
  tableFields (prune 3 r) = map label <$> tableFields r.
Proof.
  destruct r as [| |[ty|] elts| | | | | | | | | | | | | | |]; try done.
  destruct ty as [| | | | | | |[len|] elt| | | | | | | | | |]; try done.
  by destruct elt.
Qed.

Lemma convertible_prune lhs r :
  convertible (label <$> lhs) (prune 3 r) = convertible lhs r.
Proof.
  unfold convertible. rewrite tableFields_prune.
  destruct (tableFields r) as [fields|]; simpl; [|done].
  rewrite findNameFieldFrom_label. f_equal.
  destruct lhs as [l|]; [|done]. by destruct l.
Qed.

Lemma noTableFrom_prune lhs i rhs :
  noTableFrom (map label lhs) i (map (prune 3) rhs) = noTableFrom lhs i rhs.
Proof.
  revert i. induction rhs as [|r rhs IH]; intros i; [done|].
  cbn [noTableFrom map]. by rewrite lookup_map, convertible_prune, IH.
Qed.

Lemma isRunCallOnName_prune fn args :
  isRunCallOnName (CallExpr (prune 1 fn) (map (prune 1) args))
  = isRunCallOnName (CallExpr fn args).
Proof.
  destruct fn as [| | | |x sel| | | | | | | | | | | | |]; try done.
  destruct x; try done.
  destruct args as [|arg rest]; [done|].
  destruct arg as [| | | |x' sel'| | | | | | | | | | | | |]; try done.
  by destruct x'.
Qed.

Section Seen.
Context {St : Type} (f : @Visitor St) (Hf : tame f).

Lemma noTable_descend s n :
  noTable (descend (Inspect f) s n).2 = noTable n.
Proof.
  destruct n as [| | | | | | | | | | |lhs tok rhs| | | | | |].
  all: try (pose proof (label_descend (Inspect f) s) as H;
            match goal with
            | |- noTable (descend _ _ ?m).2 = _ => specialize (H m)
            end;
            destruct (descend _ _ _).2; simpl in H; try discriminate H; done).
  simpl.
  pose proof (mapS_map (Inspect f) label lhs
                (fun s' c _ => label_walk f Hf s' c) s) as Hl.
  destruct (mapS (Inspect f) s lhs) as [s1 lhs'].
  pose proof (mapS_prune f Hf 3 s1 rhs) as Hr.
  destruct (mapS (Inspect f) s1 rhs) as [s2 rhs']. cbn [snd] in *.
  cbn [noTable]. f_equal.
  by rewrite <- (noTableFrom_prune lhs'), Hl, Hr, noTableFrom_prune.
Qed.

Lemma isRunCallOnName_descend s n :
  isRunCallOnName (descend (Inspect f) s n).2 = isRunCallOnName n.
Proof.
  destruct n as [| | | | |fn args| | | | | | | | | | | |].
  all: try (pose proof (label_descend (Inspect f) s) as H;
            match goal with
            | |- isRunCallOnName (descend _ _ ?m).2 = _ => specialize (H m)
            end;
            destruct (descend _ _ _).2; simpl in H; try discriminate H; done).
  simpl.
  pose proof (prune_walk f Hf 1 s fn) as Hfn.
  destruct (Inspect f s fn) as [s1 fn'].
  pose proof (mapS_prune f Hf 1 s1 args) as Ha.
  destruct (mapS (Inspect f) s1 args) as [s2 args']. cbn [snd] in *.
  by rewrite <- (isRunCallOnName_prune fn'), Hfn, Ha, isRunCallOnName_prune.
Qed.
End Seen.

Lemma everywhere_impl (P Q : Node → Prop) n :
  (∀ m, P m → Q m) → everywhere P n → everywhere Q n.
Proof.
  intros HPQ H. induction H as [n Hn _ IH]. constructor; [by apply HPQ|done].
Qed.

Module ByAssignOnce.
Import ByAssign ByAssignFacts.

Lemma findTableTests_tame : tame findTableTests.
Proof.
  split; [exact assign_findTableTests_shrinking| |].
  - intros s n. destruct n; try done. simpl.
    destruct (_ && _); [done|]. by destruct (convertRhsFrom _ _ _ _).
  - intros s n Ht. by destruct n.
Qed.

Lemma updateRange_tame : tame updateRange.
Proof.
  split; [exact assign_updateRange_shrinking| |].
  - intros s n. unfold updateRange. by repeat case_match.
  - intros s n Ht. by destruct n.
Qed.

Lemma updateRunCall_tame : tame updateRunCall.
Proof.
  split; [exact assign_updateRunCall_shrinking| |].
  - intros s n. unfold updateRunCall. by repeat case_match.
  - intros s n Ht. by destruct n.
Qed.

(** Step 1 at a value it would not convert. *)
Lemma convertRhs_quiet lhs i s r :
  convertible (lhs !! i) r = false → convertRhs lhs i s r = (s, r).
Proof.
  unfold convertible, convertRhs, tableFields.
  repeat (case_match; try done); simplify_eq; simpl in *.
  all: match goal with
       | H1 : findNameFieldFrom 0 ?l = _, H2 : (_ =? _)%string = false |- _ =>
           rewrite H1 in *; simpl in *; rewrite H2 in *; discriminate
       end.
Qed.

(** Step 1 leaves no value it would convert again. *)
Lemma convertRhs_after lhs i s r :
  convertible (lhs !! i) (convertRhs lhs i s r).2 = false.
Proof.
  destruct (convertible (lhs !! i) r) eqn:E.
  - unfold convertible in E.
    destruct (tableFields r) as [fields|] eqn:Et; [|done].
    apply andb_prop in E as [E1 E2]. apply negb_true_iff in E1.
    unfold tableFields in Et. repeat (case_match; try done). simplify_eq.
    unfold convertRhs, findNameField.
    destruct (findNameFieldFrom 0 fields) as [nameField index].
    simpl in E1. rewrite E1. by destruct (lhs !! i) as [[]|].
  - by rewrite convertRhs_quiet.
Qed.

Lemma convertRhsFrom_quiet lhs i s rhs :
  noTableFrom lhs i rhs = true → convertRhsFrom lhs i s rhs = (s, rhs).
Proof.
  revert i. induction rhs as [|r rhs IH]; intros i; simpl; [done|].
  intros [Hr Hrest]%andb_prop. apply negb_true_iff in Hr.
  by rewrite (convertRhs_quiet _ _ _ _ Hr), (IH _ Hrest).
Qed.

Lemma convertRhsFrom_after lhs i s rhs :
  noTableFrom lhs i (convertRhsFrom lhs i s rhs).2 = true.
Proof.
  revert i s. induction rhs as [|r rhs IH]; intros i s; simpl; [done|].
  pose proof (convertRhs_after lhs i s r) as Hr.
  destruct (convertRhs lhs i s r) as [s1 r'].
  specialize (IH (S i) s1).
  destruct (convertRhsFrom lhs (S i) s1 rhs) as [s2 rest']. simpl in *.
  by rewrite Hr, IH.
Qed.

Lemma noTable_quiet n : noTable n = true → ∀ s, findTableTests s n = (s, n).
Proof.
  intros H s. destruct n; try done. simpl in *.
  destruct (_ && _); [done|]. simpl in H.
  by rewrite (convertRhsFrom_quiet _ _ _ _ H).
Qed.

Lemma findTableTests_noTable s n : noTable (findTableTests s n).2 = true.
Proof.
  destruct n; try done. simpl.
  destruct (_ && _) eqn:E; simpl; [by rewrite E|].
  pose proof (convertRhsFrom_after Lhs 0 s Rhs) as H.
  destruct (convertRhsFrom Lhs 0 s Rhs) as [s' rhs']. simpl in *.
  rewrite H. by destruct (_ && _).
Qed.

Lemma updateRange_noTable s n : noTable (updateRange s n).2 = noTable n.
Proof. unfold updateRange. by repeat case_match. Qed.

Lemma updateRunCall_noTable s n : noTable (updateRunCall s n).2 = noTable n.
Proof. unfold updateRunCall. by repeat case_match. Qed.

Lemma updateRange_children s n c :
  c ∈ children (updateRange s n).2 →
  c ∈ children n ∨ (children c = [] ∧ noTable c = true).
Proof.
  unfold updateRange. repeat (case_match; try (by left)). subst. simpl.
  intros [->|H]%elem_of_cons; [by right|]. left.
  apply elem_of_app. right. done.
Qed.

Lemma updateRunCall_children s n c :
  c ∈ children (updateRunCall s n).2 →
  c ∈ children n ∨ (children c = [] ∧ noTable c = true).
Proof.
  unfold updateRunCall. repeat (case_match; try (by left)). subst. simpl.
  intros [->|[->|H]%elem_of_cons]%elem_of_cons; [left; by left|by right|].
  left. right. by right.
Qed.

Lemma updateRunCall_quiet n :
  isRunCallOnName n = false → ∀ s, updateRunCall s n = (s, n).
Proof.
  unfold isRunCallOnName, isNameFieldName, updateRunCall. intros H s.
  repeat (case_match; try done); congruence.
Qed.

Lemma updateRunCall_after s n :
  negb (isRunCallOnName (updateRunCall s n).2) = true.
Proof.
  destruct (isRunCallOnName n) eqn:E.
  - unfold isRunCallOnName, isNameFieldName in E. unfold updateRunCall.
    repeat (case_match; try done); congruence.
  - rewrite updateRunCall_quiet by done. simpl. by rewrite E.
Qed.

Lemma updateRange_quiet s n :
  tableTestVars s = ∅ → updateRange s n = (s, n).
Proof.
  intros H. unfold updateRange. rewrite H.
  by repeat (case_match; try done).
Qed.

(** After the three walks nothing is left for any of them to do. *)
Lemma convert_settled node :
  let n3 := (convert node).1 in
  everywhere (fun m => noTable m = true) n3
  ∧ everywhere (fun m => negb (isRunCallOnName m) = true) n3.
Proof.
  unfold convert.
  pose proof (walk_establishes findTableTests noTable findTableTests_tame
                findTableTests_noTable
                (noTable_descend findTableTests findTableTests_tame)
                (mkState false 0 ∅) node) as H1.
  destruct (Inspect findTableTests _ node) as [s1 n1].
  pose proof (walk_preserves updateRange noTable updateRange_tame
                updateRange_noTable updateRange_children
                (noTable_descend updateRange updateRange_tame) s1 n1 H1) as H2.
  destruct (Inspect updateRange s1 n1) as [s2 n2].
  pose proof (walk_preserves updateRunCall noTable updateRunCall_tame
                updateRunCall_noTable updateRunCall_children
                (noTable_descend updateRunCall updateRunCall_tame) s2 n2 H2) as H3.
  pose proof (walk_establishes updateRunCall
                (fun m => negb (isRunCallOnName m)) updateRunCall_tame
                updateRunCall_after
                (fun s n => f_equal negb
                   (isRunCallOnName_descend updateRunCall updateRunCall_tame s n))
                s2 n2) as H4.
  destruct (Inspect updateRunCall s2 n2) as [s3 n3]. simpl in *. done.
Qed.

(** A tree with no table to convert and no call to rewrite goes through the
    three walks unchanged, and is not reported as modified. *)
Lemma convert_quiet node :
  everywhere (fun m => noTable m = true) node →
  everywhere (fun m => negb (isRunCallOnName m) = true) node →
  convert node = (node, (false, 0)).
Proof.
  intros H1 H3. unfold convert.
  rewrite (walk_quiet findTableTests (fun _ => True) node
             assign_findTableTests_shrinking); [| |done].
  2:{ eapply everywhere_impl; [|exact H1]. intros m Hm s _.
      by apply noTable_quiet. }
  rewrite (walk_quiet updateRange (fun s => tableTestVars s = ∅) node
             assign_updateRange_shrinking); [| |done].
  2:{ apply everywhere_all. intros m s Hs. by apply updateRange_quiet. }
  rewrite (walk_quiet updateRunCall (fun _ => True) node
             assign_updateRunCall_shrinking); [done| |done].
  eapply everywhere_impl; [|exact H3]. intros m Hm s _.
  apply updateRunCall_quiet. by apply negb_true_iff.
Qed.

(** Converting what was converted changes nothing more. *)
Theorem convert_twice node :
  convert (convert node).1 = ((convert node).1, (false, 0)).
Proof.
  destruct (convert_settled node) as [H1 H3]. by apply convert_quiet.
Qed.
End ByAssignOnce.

(** X12.  A file that parses to a converted tree is left alone by the
    second copy: no modification is reported and nothing is written. *)
Theorem ByAssign_converted_file_untouched
    (ParseFile : option string → Node + string)
    (Create : FS → string → option string)
    (Fprint : string → Node → string * option string)
    (filePath : string) (fs : FS) (node : Node) :
  ParseFile (fs !! filePath) = inl (ByAssign.convert node).1 →
  processFile ByAssign.convert ParseFile Create Fprint filePath fs
  = (fs, (mkFileResult false 0, None)).
Proof.
  intros H. unfold processFile. by rewrite H, ByAssignOnce.convert_twice.
Qed.

(** X13.  A file with no table to convert and no call to rewrite is left
    alone by the second copy. *)
Lemma ByAssign_quiet_file_untouched
    (ParseFile : option string → Node + string)
    (Create : FS → string → option string)
    (Fprint : string → Node → string * option string)
    (filePath : string) (fs : FS) (node : Node) :
  ParseFile (fs !! filePath) = inl node →
  everywhere (fun m => noTable m = true) node →
  everywhere (fun m => negb (isRunCallOnName m) = true) node →
  processFile ByAssign.convert ParseFile Create Fprint filePath fs
  = (fs, (mkFileResult false 0, None)).
Proof.
  intros H H1 H3. unfold processFile.
  by rewrite H, ByAssignOnce.convert_quiet.
Qed.

(** ** The sample files through the second copy *)

(** A table keyed by [desc]: converted, the loop gets its key, and the call
    argument becomes [name]. *)
Example ByAssign_desc_table :
  ByAssign.convert Samples.descAssignFile = (Samples.descAssignFileAfter, (true, 1)).
Proof. vm_compute. reflexivity. Qed.

Example ByAssign_desc_table_again :
  ByAssign.convert Samples.descAssignFileAfter
  = (Samples.descAssignFileAfter, (false, 0)).
Proof. vm_compute. reflexivity. Qed.

(** When the file cannot be created, it keeps its content. *)
Example create_denied_keeps_file :
  processFile ByAssign.convert SampleRun.ParseFile SampleRun.CreateDenied
    SampleRun.Fprint SampleRun.testPath SampleRun.disk
  = (SampleRun.disk,
     (mkFileResult false 0, Some "error creating file: permission denied")).
Proof. vm_compute. reflexivity. Qed.

(** * Further properties of the code *)

(** ** The name field *)

Lemma isNameFieldName_nonempty fieldName :
  isNameFieldName fieldName = true → fieldName ≠ "".
Proof. intros H ->. discriminate H. Qed.

Lemma findNameFieldFrom_step i field rest :
  findNameFieldFrom i (field :: rest) =
  if hasNameFieldName field
  then (match field with Field (fieldName :: _) _ => fieldName | _ => "" end, i)
  else findNameFieldFrom (i + 1) rest.
Proof.
  destruct field as [| | | | | | | | |[|fieldName names] ty| | | | | | | |];
    done.
Qed.

Lemma findNameFieldFrom_found i fields nameField index :
  findNameFieldFrom i fields = (nameField, index) →
  nameField ≠ "" →
  ∃ (k : nat) names ty,
    index = i + Z.of_nat k
    ∧ fields !! k = Some (Field (nameField :: names) ty)
    ∧ isNameFieldName nameField = true
    ∧ ∀ (j : nat) field,
        (j < k)%nat → fields !! j = Some field → hasNameFieldName field = false.
Proof.
  revert i. induction fields as [|field rest IH]; intros i.
  - simpl. intros [= <- <-]. done.
  - rewrite findNameFieldFrom_step.
    destruct (hasNameFieldName field) eqn:E.
    + destruct field as [| | | | | | | | |[|fieldName names] ty| | | | | | | |];
        try done.
      intros [= <- <-] _. exists 0%nat, names, ty.
      repeat split; [lia|done|]. intros j field Hj. lia.
    + intros H Hne. destruct (IH _ H Hne) as (k & names & ty & -> & Hk & Hn & Hfirst).
      exists (S k), names, ty. repeat split; [lia|done|done|].
      intros [|j] f Hj Hf; simpl in Hf; [by simplify_eq|].
      apply (Hfirst j); [lia|done].
Qed.

(** X1.  When [findNameField] finds a field, the index it returns is the
    position of a field of the struct whose first name is the returned name,
    that name is one of [name], [desc], [description], and no field before
    it has such a first name: the first match in declaration order wins. *)
Theorem findNameField_first_match (fields : list Node) (nameField : string)
    (index : Z) :
  findNameField (StructType fields) = (nameField, index) →
  nameField ≠ "" →
  ∃ (k : nat) names ty,
    index = Z.of_nat k
    ∧ fields !! k = Some (Field (nameField :: names) ty)
    ∧ isNameFieldName nameField = true
    ∧ ∀ (j : nat) field,
        (j < k)%nat → fields !! j = Some field → hasNameFieldName field = false.
Proof.
  intros H Hne. simpl in H.
  destruct (findNameFieldFrom_found _ _ _ _ H Hne)
    as (k & names & ty & -> & Hk & Hn & Hfirst).
  exists k, names, ty. repeat split; done.
Qed.

Lemma findNameField_first_match_witness :
  ∃ (k : nat) names ty,
    1 = Z.of_nat k
    ∧ [Field ["a"; "name"] (Ident "int"); Field ["desc"] (Ident "string");
       Field ["name"] (Ident "string")] !! k
      = Some (Field ("desc" :: names) ty)
    ∧ isNameFieldName "desc" = true
    ∧ ∀ (j : nat) field,
        (j < k)%nat →
        [Field ["a"; "name"] (Ident "int"); Field ["desc"] (Ident "string");
         Field ["name"] (Ident "string")] !! j = Some field →
        hasNameFieldName field = false.
Proof.
  apply (findNameField_first_match
           [Field ["a"; "name"] (Ident "int"); Field ["desc"] (Ident "string");
            Field ["name"] (Ident "string")] "desc" 1);
    [reflexivity | discriminate].
Defined.

Lemma findNameFieldFrom_none i fields :
  (findNameFieldFrom i fields).1 = "" ↔
  Forall (fun field => hasNameFieldName field = false) fields.
Proof.
  revert i. induction fields as [|field rest IH]; intros i.
  - simpl. split; [constructor|done].
  - rewrite findNameFieldFrom_step.
    destruct (hasNameFieldName field) eqn:E.
    + split.
      * destruct field as [| | | | | | | | |[|fieldName names] ty| | | | | | | |];
          try done.
        simpl. intros ->. discriminate E.
      * intros H. apply Forall_cons in H as [H _]. congruence.
    + rewrite IH. split; [by constructor|]. by intros [_ H]%Forall_cons.
Qed.

Lemma findNameFieldFrom_none_index i fields :
  (findNameFieldFrom i fields).1 = "" → findNameFieldFrom i fields = ("", -1).
Proof.
  revert i. induction fields as [|field rest IH]; intros i; [done|].
  rewrite findNameFieldFrom_step.
  destruct (hasNameFieldName field) eqn:E; [|apply IH].
  destruct field as [| | | | | | | | |[|fieldName names] ty| | | | | | | |];
    try done.
  simpl. intros ->. discriminate E.
Qed.

(** X2.  [findNameField] reports no name field (the empty name and index
    [-1], on which both callers skip the declaration) exactly when no field
    of the struct has [name], [desc] or [description] as its first name; in
    particular on a struct without fields. *)
Theorem findNameField_none_iff (fields : list Node) :
  (findNameField (StructType fields) = ("", -1)
   ↔ Forall (fun field => hasNameFieldName field = false) fields)
  ∧ ((findNameField (StructType fields)).1 = ""
     ↔ findNameField (StructType fields) = ("", -1)).
Proof.
  simpl. split; split.
  - intros H. apply (findNameFieldFrom_none 0). by rewrite H.
  - intros H. apply findNameFieldFrom_none_index. by apply findNameFieldFrom_none.
  - apply findNameFieldFrom_none_index.
  - by intros ->.
Qed.
(** X3.  [createStructTypeWithoutField] at the index [findNameField] found
    takes out of the struct the whole field declaration whose first name is
    the name field, with every other name that declaration groups (of
    [struct{name, in, want string}] nothing is left); the declarations
    before it and the declarations after it stay, in their order. *)
Theorem name_field_removed (fields : list Node) (nameField : string)
    (index : Z) :
  findNameField (StructType fields) = (nameField, index) →
  nameField ≠ "" →
  ∃ before names ty after,
    fields = (before ++ Field (nameField :: names) ty :: after)%list
    ∧ Z.of_nat (length before) = index
    ∧ createStructTypeWithoutField (StructType fields) index
      = StructType (before ++ after).
Proof.
  intros H Hne.
  destruct (findNameFieldFrom_found 0 _ _ _ H Hne)
    as (k & names & ty & Hi & Hk & _ & _).
  assert (index = Z.of_nat k) as -> by lia. clear Hi.
  exists (take k fields), names, ty, (drop (S k) fields).
  pose proof (lookup_lt_Some _ _ _ Hk) as Hlt.
  split; [|split].
  - by rewrite <- (take_drop_middle _ _ _ Hk) at 1.
  - rewrite length_take. lia.
  - unfold createStructTypeWithoutField.
    destruct (Z.ltb_spec (Z.of_nat k) 0); [lia|].
    by rewrite dropIndex_delete, delete_take_drop.
Qed.

Lemma name_field_removed_witness :
  ∃ before names ty after,
    [Field ["a"] (Ident "int"); Field ["name"; "in"; "want"] (Ident "string");
     Field ["ok"] (Ident "bool")]
    = (before ++ Field ("name" :: names) ty :: after)%list
    ∧ Z.of_nat (length before) = 1
    ∧ createStructTypeWithoutField
        (StructType [Field ["a"] (Ident "int");
                     Field ["name"; "in"; "want"] (Ident "string");
                     Field ["ok"] (Ident "bool")]) 1
      = StructType (before ++ after).
Proof.
  apply (name_field_removed
           [Field ["a"] (Ident "int");
            Field ["name"; "in"; "want"] (Ident "string");
            Field ["ok"] (Ident "bool")] "name" 1);
    [reflexivity | discriminate].
Defined.

(** The names grouped with the name field go with it. *)
Example grouped_names_removed :
  createStructTypeWithoutField
    (StructType [Field ["a"] (Ident "int");
                 Field ["name"; "in"; "want"] (Ident "string");
                 Field ["ok"] (Ident "bool")]) 1
  = StructType [Field ["a"] (Ident "int"); Field ["ok"] (Ident "bool")].
Proof. vm_compute. reflexivity. Qed.

(** ** Rows kept and rows lost *)

Lemma filter_length_all {A} (p : A → bool) (l : list A) :
  (length (List.filter p l) ≤ length l)%nat
  ∧ (length (List.filter p l) = length l ↔ forallb p l = true).
Proof.
  induction l as [|x l [IH1 IH2]]; simpl; [done|].
  destruct (p x); simpl.
  - split; [lia|]. rewrite <- IH2. split; lia.
  - split; [lia|]. split; [lia|done].
Qed.

(** ** The range rewrite *)

(** The first copy leaves a loop that binds both variables as it is, blank
    key or not, and reports nothing. *)
Lemma ByDecl_two_variable_loop_kept (file : Node) (s : ByDecl.State)
    (key value x body : Node) :
  ByDecl.updateRange file s (RangeStmt (Some key) (Some value) x body)
  = (s, RangeStmt (Some key) (Some value) x body).
Proof. unfold ByDecl.updateRange. by repeat case_match. Qed.

(** ** Declarations with several values *)

Lemma ByDecl_convertValues_skip s ty values :
  Forall (fun v => isCompositeLit v = false) values →
  ByDecl.convertValues s ty values = (s, ty, values).
Proof.
  induction 1 as [|v values Hv _ IH]; simpl; [done|].
  rewrite IH. destruct v; try discriminate Hv; by repeat case_match.
Qed.

(** X5.  In a declaration with several values the first copy converts at
    most one: either nothing changes, or the declared type was a slice of a
    struct with a name field, the first value that is a composite literal
    becomes the map literal, the declared type becomes the map type, the
    counter goes up by one, and every other value stays as it was. *)
Theorem ByDecl_converts_first_literal_only (s : ByDecl.State)
    (ty : option Node) (values : list Node) :
  ByDecl.convertValues s ty values = (s, ty, values)
  ∨ ∃ fields nameField index before cty elts after,
      ty = Some (ArrayType None (StructType fields))
      ∧ findNameField (StructType fields) = (nameField, index)
      ∧ nameField ≠ ""
      ∧ values = (before ++ CompositeLit cty elts :: after)%list
      ∧ Forall (fun v => isCompositeLit v = false) before
      ∧ ByDecl.convertValues s ty values
        = (ByDecl.mkState true (int_add (ByDecl.tablesConverted s) 1),
           Some (MapType (Ident "string") (StructType fields)),
           (before
            ++ CompositeLit (Some (MapType (Ident "string") (StructType fields)))
                 (ByDecl.convertElementsToMapEntries elts index)
            :: after)%list).
Proof.
  destruct (decide (Forall (fun v => isCompositeLit v = false) values))
    as [Hall|Hsome]; [left; by apply ByDecl_convertValues_skip|].
  destruct ty as [[| | | | | | |[len|] [| | | | | | | |fields| | | | | | | | |]| | | | | | | | | |]|];
    try (left; clear; induction values as [|v values IH]; simpl;
         [done|by rewrite IH]).
  destruct (findNameField (StructType fields)) as [nameField index] eqn:Hfind.
  destruct (String.eqb_spec nameField "") as [->|Hne].
  { left. clear Hsome. induction values as [|v values IH]; simpl; [done|].
    simpl in Hfind. by rewrite Hfind, IH. }
  right. exists fields, nameField, index.
  apply not_Forall_Exists in Hsome; [|intros v; apply _].
  induction values as [|v values IH]; [by apply Exists_nil in Hsome|].
  destruct (isCompositeLit v) eqn:Ev.
  - destruct v as [| |cty elts| | | | | | | | | | | | | | |]; try discriminate Ev.
    exists [], cty, elts, values. repeat split; try done.
    cbn [ByDecl.convertValues]. rewrite Hfind.
    apply String.eqb_neq in Hne. rewrite Hne.
    by rewrite ByDeclFacts.decl_convertValues_map.
  - apply Exists_cons in Hsome as [Hv|Hrest]; [congruence|].
    destruct (IH Hrest) as (before & cty & elts & after & _ & _ & _ & -> & Hb & E).
    exists (v :: before), cty, elts, after. repeat split; try done.
    + by constructor.
    + cbn [ByDecl.convertValues]. rewrite Hfind.
      apply String.eqb_neq in Hne. rewrite Hne.
      rewrite E. by destruct v.
Qed.

(** ** Looking a variable up *)

Lemma not_var_const tok :
  negb (token_eqb tok VAR) && negb (token_eqb tok CONST) = false
  ↔ tok = VAR ∨ tok = CONST.
Proof.
  destruct tok; simpl; split; intros H; try done;
    try (by left); try (by right); by destruct H.
Qed.

Lemma specDeclares_spec name spec :
  ByDecl.specDeclares name spec = true
  ↔ ∃ names ty values, spec = ValueSpec names ty values ∧ name ∈ names.
Proof.
  destruct spec; simpl;
    try (split; [done|intros (? & ? & ? & [=] & _)]).
  rewrite existsb_exists. split.
  - intros (x & Hx & ->%String.eqb_eq). do 3 eexists. split; [done|].
    by apply list_elem_of_In.
  - intros (names & ty & values & [= <- <- <-] & Hn).
    exists name. split; [by apply list_elem_of_In|apply String.eqb_refl].
Qed.

Lemma lookupDecls_sound decls name spec :
  ByDecl.lookupDecls decls name = Some spec → declaresTopLevel decls name spec.
Proof.
  induction decls as [|decl rest IH]; simpl; [done|].
  assert (Hrest : ByDecl.lookupDecls rest name = Some spec →
                  declaresTopLevel (decl :: rest) name spec).
  { intros H. destruct (IH H) as (tok & specs & names & ty & values & Hd & Hrest).
    exists tok, specs, names, ty, values. split; [by right|done]. }
  destruct decl as [| | | | | | | | | | | | | |tok specs| | |]; try done.
  destruct (negb (token_eqb tok VAR) && negb (token_eqb tok CONST)) eqn:Et;
    [done|].
  destruct (List.find (ByDecl.specDeclares name) specs) as [found|] eqn:Ef;
    [|done].
  intros [= <-]. apply find_some in Ef as [Hin Hd].
  apply specDeclares_spec in Hd as (names & ty & values & -> & Hn).
  exists tok, specs, names, ty, values.
  repeat split; [left|by apply not_var_const|by apply list_elem_of_In|done].
Qed.

Lemma lookupDecls_complete decls name spec :
  declaresTopLevel decls name spec →
  ∃ found, ByDecl.lookupDecls decls name = Some found.
Proof.
  intros (tok & specs & names & ty & values & Hd & Ht & Hs & -> & Hn).
  induction decls as [|decl rest IH]; [by apply elem_of_nil in Hd|].
  apply elem_of_cons in Hd as [<-|Hd].
  - simpl. apply not_var_const in Ht. rewrite Ht.
    destruct (List.find (ByDecl.specDeclares name) specs) as [found|] eqn:Ef;
      [by eexists|].
    apply list_elem_of_In in Hs.
    pose proof (find_none _ _ Ef _ Hs) as Hnone.
    assert (ByDecl.specDeclares name (ValueSpec names ty values) = true).
    { apply specDeclares_spec. by do 3 eexists. }
    congruence.
  - destruct (IH Hd) as [found Hf]. simpl.
    destruct decl; try (by eexists).
    repeat case_match; by eexists.
Qed.

(** X6.  [lookupObject] finds a spec exactly when some top-level [var] or
    [const] declaration of the file declares the name, and the spec it
    returns is such a spec; a variable declared only inside a function is
    never found. *)
Theorem lookupObject_top_level (pkg : string) (decls : list Node)
    (name : string) :
  match ByDecl.lookupObject (File pkg decls) name with
  | Some spec => declaresTopLevel decls name spec
  | None => ∀ spec, ¬ declaresTopLevel decls name spec
  end.
Proof.
  simpl. destruct (ByDecl.lookupDecls decls name) as [spec|] eqn:E.
  - by apply lookupDecls_sound.
  - intros spec H. destruct (lookupDecls_complete _ _ _ H) as [found Hf].
    congruence.
Qed.

(** ** One file *)

Ltac unfold_processFile := unfold processFile.

Section OneFile.
Variable convert : Node → Node * (bool * Z).
Variable ParseFile : option string → Node + string.
Variable Create : FS → string → option string.
Variable Fprint : string → Node → string * option string.

Local Abbreviation processFile := (processFile convert ParseFile Create Fprint).

Lemma processFile_disk filePath fs :
  (processFile filePath fs).1 = fs
  ∨ ∃ written, (processFile filePath fs).1 = <[filePath := written]> fs.
Proof.
  unfold_processFile.
  repeat (case_match; try (by left)); simpl; right;
    eexists; by rewrite insert_insert_eq.
Qed.

(** X7.  [processFile] writes to no file but the one it is given: every
    other path holds afterwards what it held before, whether the run
    succeeds or fails. *)
Theorem processFile_other_files (filePath other : string) (fs : FS) :
  other ≠ filePath →
  (processFile filePath fs).1 !! other = fs !! other.
Proof.
  intros Hne. destruct (processFile_disk filePath fs) as [->|[written ->]];
    [done|]. by rewrite lookup_insert_ne.
Qed.

End OneFile.

Lemma processFile_other_files_witness :
  (processFile ByAssign.convert SampleRun.ParseFile SampleRun.Create
     SampleRun.Fprint SampleRun.testPath SampleRun.diskWithBroken).1
    !! SampleRun.brokenPath
  = SampleRun.diskWithBroken !! SampleRun.brokenPath.
Proof.
  apply (processFile_other_files ByAssign.convert SampleRun.ParseFile
           SampleRun.Create SampleRun.Fprint SampleRun.testPath
           SampleRun.brokenPath SampleRun.diskWithBroken).
  vm_compute. discriminate.
Defined.

(** ** The whole batch *)

Ltac unfold_accounts := unfold errorOf, resultOf.

Lemma tablesOf_app (a b : list FileResult) :
  tablesOf (a ++ b) = tablesOf a + tablesOf b.
Proof.
  unfold tablesOf. induction a as [|r a IH]; simpl; [done|]. rewrite IH. lia.
Qed.

Section WholeBatch.
Variable convert : Node → Node * (bool * Z).
Variable ParseFile : option string → Node + string.
Variable Create : FS → string → option string.
Variable Fprint : string → Node → string * option string.
Variable walkEntries : string → list WalkEntry.

Local Abbreviation processFile := (processFile convert ParseFile Create Fprint).
Local Abbreviation visit := (visit convert ParseFile Create Fprint).
Local Abbreviation diskAfter := (diskAfter convert ParseFile Create Fprint).
Local Abbreviation resultOf := (resultOf convert ParseFile Create Fprint).
Local Abbreviation errorOf := (errorOf convert ParseFile Create Fprint).
Local Abbreviation resultsOf := (resultsOf convert ParseFile Create Fprint).
Local Abbreviation errorsOf := (errorsOf convert ParseFile Create Fprint).
Local Abbreviation ConvertTableTests :=
  (ConvertTableTests convert ParseFile Create Fprint walkEntries).

Lemma diskAfter_other fs e (p : string) :
  (isGoFile e → path e ≠ p) → diskAfter fs e !! p = fs !! p.
Proof.
  intros H. unfold_diskAfter.
  destruct (walkErr e) eqn:Ew; [done|].
  destruct (isDir e || negb (HasSuffix (path e) ".go")) eqn:Es; [done|].
  apply orb_false_elim in Es as [Ed Eh]. apply negb_false_iff in Eh.
  destruct (processFile_disk convert ParseFile Create Fprint (path e) fs)
    as [->|[written ->]]; [done|].
  apply lookup_insert_ne. by apply H.
Qed.

Lemma Walk_disk_other entries fs result (p : string) :
  (∀ e, e ∈ entries → isGoFile e → path e ≠ p) →
  (Walk visit entries (fs, result)).1.1 !! p = fs !! p.
Proof.
  revert fs result. induction entries as [|e rest IH]; intros fs result H;
    [done|].
  rewrite Walk_cons.
  pose proof (visit_returns_nil convert ParseFile Create Fprint (fs, result) e)
    as Hn.
  pose proof (visit_disk convert ParseFile Create Fprint fs result e) as Hd.
  destruct (visit (fs, result) e) as [[fs1 r1] r]. simpl in Hn, Hd. subst r fs1.
  rewrite IH by (intros e' He'; apply H; by right).
  apply diskAfter_other. apply H. left.
Qed.

(** X8.  A batch changes no file but the Go files the walk hands it: a
    path that is not the path of a walked entry which is a regular file
    ending in [.go] holds afterwards what it held before. *)
Theorem batch_other_files (directory : string) (fs : FS) (p : string) :
  (∀ e, e ∈ walkEntries directory → isGoFile e → path e ≠ p) →
  (ConvertTableTests directory fs).1 !! p = fs !! p.
Proof.
  intros H. unfold_ConvertTableTests.
  pose proof (Walk_disk_other (walkEntries directory) fs
                (mkConversionResult 0 0 0 []) p H) as Hw.
  destruct (Walk _ _ _) as [[fs' result'] [err|]]; exact Hw.
Qed.

Lemma resultsOf_cons e rest fs :
  resultsOf (e :: rest) fs
  = (opt_list (resultOf fs e) ++ resultsOf rest (diskAfter fs e))%list.
Proof. reflexivity. Qed.

Lemma errorsOf_cons e rest fs :
  errorsOf (e :: rest) fs
  = (opt_list (errorOf fs e) ++ errorsOf rest (diskAfter fs e))%list.
Proof. reflexivity. Qed.

Lemma visit_accounts fs result e m t :
  FilesModified result = int_wrap m →
  TotalTablesConverted result = int_wrap t →
  ∃ result',
    visit (fs, result) e = ((diskAfter fs e, result'), None)
    ∧ FilesModified result'
      = int_wrap (m + Z.of_nat (length (List.filter Modified
                                          (opt_list (resultOf fs e)))))
    ∧ TotalTablesConverted result'
      = int_wrap (t + tablesOf (List.filter Modified (opt_list (resultOf fs e))))
    ∧ Errors result' = (Errors result ++ opt_list (errorOf fs e))%list.
Proof.
  intros Hm Ht. unfold_visit; unfold_diskAfter; unfold_accounts.
  destruct (walkErr e).
  { eexists. split; [done|]. simpl. by rewrite !Z.add_0_r. }
  destruct (isDir e || negb (HasSuffix (path e) ".go")).
  { eexists. split; [done|]. simpl. by rewrite !Z.add_0_r, app_nil_r. }
  destruct (processFile (path e) fs) as [fs' [fileResult [err|]]]; simpl.
  { eexists. split; [done|]. simpl. by rewrite !Z.add_0_r. }
  destruct (Modified fileResult) eqn:EM; eexists; (split; [done|]); simpl;
    rewrite ?EM; simpl; rewrite ?Hm, ?Ht, ?int_add_wrap, ?Z.add_0_r, ?app_nil_r;
    done.
Qed.

Lemma Walk_accounts entries fs result m t :
  FilesModified result = int_wrap m →
  TotalTablesConverted result = int_wrap t →
  FilesModified (Walk visit entries (fs, result)).1.2
  = int_wrap (m + Z.of_nat (length (List.filter Modified (resultsOf entries fs))))
  ∧ TotalTablesConverted (Walk visit entries (fs, result)).1.2
    = int_wrap (t + tablesOf (List.filter Modified (resultsOf entries fs)))
  ∧ Errors (Walk visit entries (fs, result)).1.2
    = (Errors result ++ errorsOf entries fs)%list.
Proof.
  revert fs result m t.
  induction entries as [|e rest IH]; intros fs result m t Hm Ht.
  - simpl. by rewrite !Z.add_0_r, app_nil_r.
  - rewrite Walk_cons.
    destruct (visit_accounts fs result e m t Hm Ht)
      as (r1 & -> & Hm1 & Ht1 & He1).
    destruct (IH (diskAfter fs e) r1 _ _ Hm1 Ht1) as (IHm & IHt & IHe).
    rewrite IHm, IHt, IHe, He1, resultsOf_cons, errorsOf_cons.
    rewrite List.filter_app, length_app, tablesOf_app, Nat2Z.inj_add.
    rewrite <- app_assoc, !Z.add_assoc. done.
Qed.

(** X9.  After a batch, [FilesModified] is the number of files whose
    processing returned no error and reported a modification, and
    [TablesConverted] is the sum of the table counts those files reported
    (both as Go [int]s); a file that is processed but not modified adds to
    neither. *)
Theorem batch_totals (directory : string) (fs : FS) :
  FilesModified (ConvertTableTests directory fs).2.1
  = int_wrap
      (Z.of_nat
         (length (List.filter Modified (resultsOf (walkEntries directory) fs))))
  ∧ TotalTablesConverted (ConvertTableTests directory fs).2.1
    = int_wrap
        (tablesOf (List.filter Modified (resultsOf (walkEntries directory) fs))).
Proof.
  unfold_ConvertTableTests.
  pose proof (Walk_accounts (walkEntries directory) fs
                (mkConversionResult 0 0 0 []) 0 0 eq_refl eq_refl)
    as (Hm & Ht & _).
  destruct (Walk _ _ _) as [[fs' result'] [err|]]; simpl in *;
    by rewrite Hm, Ht.
Qed.

(** X10.  The error list of a batch holds, in the order of the walk, one
    message for each entry that could not be accessed and one for each file
    whose processing returned an error, each naming the path, and nothing
    else. *)
Theorem batch_errors_in_order (directory : string) (fs : FS) :
  Errors (ConvertTableTests directory fs).2.1
  = errorsOf (walkEntries directory) fs.
Proof.
  unfold_ConvertTableTests.
  pose proof (Walk_accounts (walkEntries directory) fs
                (mkConversionResult 0 0 0 []) 0 0 eq_refl eq_refl)
    as (_ & _ & He).
  destruct (Walk _ _ _) as [[fs' result'] [err|]]; exact He.
Qed.
End WholeBatch.

Lemma batch_other_files_witness :
  (ConvertTableTests ByAssign.convert SampleRun.ParseBroken SampleRun.Create
     SampleRun.Fprint SampleRun.walkEntries "samples" SampleRun.diskWithBroken).1
    !! "samples/notes.txt"
  = SampleRun.diskWithBroken !! "samples/notes.txt".
Proof.
  apply (batch_other_files ByAssign.convert SampleRun.ParseBroken
           SampleRun.Create SampleRun.Fprint SampleRun.walkEntries
           "samples" SampleRun.diskWithBroken "samples/notes.txt").
  intros e He _. vm_compute in He.
  repeat (apply elem_of_cons in He as [->|He]); try discriminate.
  by apply elem_of_nil in He.
Defined.

(** ** The modified flag *)

Section Flag.
Context {St : Type} (flag : St → bool).
Implicit Types (f rec : @Visitor St).

Lemma mapS_flagged rec :
  flagged flag rec →
  ∀ l s, (flag s = true → flag (mapS rec s l).1 = true)
         ∧ (flag (mapS rec s l).1 = false → mapS rec s l = (s, l)).
Proof.
  intros Hrec l. induction l as [|n l IH]; intros s; simpl; [done|].
  destruct (Hrec s n) as [Hup Hq]. destruct (rec s n) as [s1 n'].
  destruct (IH s1) as [IHup IHq]. destruct (mapS rec s1 l) as [s2 l'].
  simpl in *. split; [tauto|]. intros H2.
  destruct (flag s1) eqn:E1; [rewrite IHup in H2; done|].
  specialize (IHq H2). specialize (Hq eq_refl). by simplify_eq.
Qed.

Lemma optS_flagged rec :
  flagged flag rec →
  ∀ (o : option Node) s,
    (flag s = true → flag (optS rec s o).1 = true)
    ∧ (flag (optS rec s o).1 = false → optS rec s o = (s, o)).
Proof.
  intros Hrec [n|] s; simpl; [|done].
  destruct (Hrec s n) as [Hup Hq]. destruct (rec s n) as [s1 n'].
  simpl in *. split; [done|]. intros H. specialize (Hq H). by simplify_eq.
Qed.

Lemma descend_flagged rec : flagged flag rec → flagged flag (descend rec).
Proof.
  intros Hrec s n.
  destruct n; simpl; try done;
    repeat match goal with
      | |- context [optS rec ?s ?o] =>
          let Hu := fresh "Hu" in let Hq := fresh "Hq" in
          destruct (optS_flagged rec Hrec o s) as [Hu Hq];
          destruct (optS rec s o); simpl in Hu, Hq
      | |- context [mapS rec ?s ?l] =>
          let Hu := fresh "Hu" in let Hq := fresh "Hq" in
          destruct (mapS_flagged rec Hrec l s) as [Hu Hq];
          destruct (mapS rec s l); simpl in Hu, Hq
      | |- context [rec ?s ?c] =>
          let Hu := fresh "Hu" in let Hq := fresh "Hq" in
          destruct (Hrec s c) as [Hu Hq];
          destruct (rec s c); simpl in Hu, Hq
      end; simpl;
    (split; [tauto|]); intros Hlast;
    repeat match goal with
      | Hq : ?x = false → _, H : ?x = false |- _ =>
          specialize (Hq H); simplify_eq
      | Hu : flag ?a = true → flag ?b = true, H : flag ?b = false |- _ =>
          let E := fresh "E" in
          destruct (flag a) eqn:E; [rewrite Hu in H by done; discriminate H|];
          clear Hu
      end;
    done.
Qed.

Lemma InspectN_flagged f : flagged flag f → ∀ k, flagged flag (InspectN k f).
Proof.
  intros Hf k. induction k as [|k IH]; intros s n; simpl; [done|].
  destruct (Hf s n) as [Hup Hq]. destruct (f s n) as [s1 n1].
  destruct (descend_flagged _ IH s1 n1) as [Hup' Hq']. simpl in *.
  split; [tauto|]. intros H.
  destruct (flag s1) eqn:E1; [rewrite Hup' in H; done|].
  rewrite (Hq' H). by apply Hq.
Qed.

Lemma Inspect_flagged f : flagged flag f → flagged flag (Inspect f).
Proof. intros Hf s n. apply (InspectN_flagged f Hf). Qed.
End Flag.

Lemma ByAssign_convertRhs_flagged lhs i s r :
  (ByAssign.modified s = true
   → ByAssign.modified (ByAssign.convertRhs lhs i s r).1 = true)
  ∧ (ByAssign.modified (ByAssign.convertRhs lhs i s r).1 = false
     → ByAssign.convertRhs lhs i s r = (s, r)).
Proof. unfold ByAssign.convertRhs. by repeat case_match. Qed.

Lemma ByAssign_convertRhsFrom_flagged lhs rhs :
  ∀ i s,
    (ByAssign.modified s = true
     → ByAssign.modified (ByAssign.convertRhsFrom lhs i s rhs).1 = true)
    ∧ (ByAssign.modified (ByAssign.convertRhsFrom lhs i s rhs).1 = false
       → ByAssign.convertRhsFrom lhs i s rhs = (s, rhs)).
Proof.
  induction rhs as [|r rhs IH]; intros i s; simpl; [done|].
  destruct (ByAssign_convertRhs_flagged lhs i s r) as [Hup Hq].
  destruct (ByAssign.convertRhs lhs i s r) as [s1 r'].
  destruct (IH (S i) s1) as [IHup IHq].
  destruct (ByAssign.convertRhsFrom lhs (S i) s1 rhs) as [s2 rest'].
  simpl in *. split; [tauto|]. intros H2.
  destruct (ByAssign.modified s1) eqn:E1; [rewrite IHup in H2; done|].
  specialize (IHq H2). specialize (Hq eq_refl). by simplify_eq.
Qed.

Lemma ByAssign_findTableTests_flagged :
  flagged ByAssign.modified ByAssign.findTableTests.
Proof.
  intros s n. destruct n; try done. simpl.
  destruct (_ && _); [done|].
  destruct (ByAssign_convertRhsFrom_flagged Lhs Rhs 0 s) as [Hup Hq].
  destruct (ByAssign.convertRhsFrom Lhs 0 s Rhs) as [s' rhs']. simpl in *.
  split; [done|]. intros H. specialize (Hq H). by simplify_eq.
Qed.

Lemma ByAssign_updateRange_flagged :
  flagged ByAssign.modified ByAssign.updateRange.
Proof. intros s n. unfold ByAssign.updateRange. by repeat case_match. Qed.

Lemma ByAssign_updateRunCall_flagged :
  flagged ByAssign.modified ByAssign.updateRunCall.
Proof. intros s n. unfold ByAssign.updateRunCall. by repeat case_match. Qed.

Lemma ByDecl_convertValues_flagged values :
  ∀ s ty,
    (ByDecl.modified s = true
     → ByDecl.modified (ByDecl.convertValues s ty values).1.1 = true)
    ∧ (ByDecl.modified (ByDecl.convertValues s ty values).1.1 = false
       → ByDecl.convertValues s ty values = (s, ty, values)).
Proof.
  induction values as [|value rest IH]; intros s ty; [done|].
  cbn [ByDecl.convertValues].
  pose proof (IH s ty) as [Hup Hq].
  destruct (ByDecl.convertValues s ty rest) as [[s' ty'] rest'] eqn:Er.
  simpl in Hup, Hq.
  assert (Hskip :
    (ByDecl.modified s = true → ByDecl.modified s' = true)
    ∧ (ByDecl.modified s' = false
       → (s', ty', value :: rest') = (s, ty, value :: rest))).
  { split; [done|]. intros H. specialize (Hq H). by simplify_eq. }
  repeat (case_match; try exact Hskip); simplify_eq; simpl.
  all: match goal with
       | H : ByDecl.convertValues ?s1 ?t _ = _ |- _ =>
           pose proof (IH s1 t) as [Hup1 _]; rewrite H in Hup1;
           simpl in Hup1; rewrite Hup1 by done
       end; split; [done|discriminate].
Qed.

Lemma ByDecl_convertSpec_flagged : flagged ByDecl.modified ByDecl.convertSpec.
Proof.
  intros s spec. destruct spec; try done. simpl.
  destruct (ByDecl_convertValues_flagged Values s Typ) as [Hup Hq].
  destruct (ByDecl.convertValues s Typ Values) as [[s' ty'] values'].
  simpl in *. split; [done|]. intros H. specialize (Hq H). by simplify_eq.
Qed.

Lemma ByDecl_findTableTests_flagged :
  flagged ByDecl.modified ByDecl.findTableTests.
Proof.
  intros s n. destruct n; try done. simpl.
  destruct (_ && _); [done|].
  destruct (mapS_flagged ByDecl.modified ByDecl.convertSpec
              ByDecl_convertSpec_flagged Specs s) as [Hup Hq].
  destruct (mapS ByDecl.convertSpec s Specs) as [s' specs']. simpl in *.
  split; [done|]. intros H. specialize (Hq H). by simplify_eq.
Qed.

Lemma ByDecl_updateRange_flagged file :
  flagged ByDecl.modified (ByDecl.updateRange file).
Proof. intros s n. unfold ByDecl.updateRange. by repeat case_match. Qed.

Lemma ByDecl_updateRunCall_flagged :
  flagged ByDecl.modified ByDecl.updateRunCall.
Proof. intros s n. unfold ByDecl.updateRunCall. by repeat case_match. Qed.

(** X11.  The [modified] flag never misses a change: in both copies, when
    the three walks end with the flag down, the tree is the tree that was
    parsed and no table was converted, so skipping the write loses
    nothing. *)
Theorem unmodified_means_unchanged (node : Node) :
  ((ByAssign.convert node).2.1 = true
   ∨ ByAssign.convert node = (node, (false, 0)))
  ∧ ((ByDecl.convert node).2.1 = true
     ∨ ByDecl.convert node = (node, (false, 0))).
Proof.
  split.
  - unfold ByAssign.convert.
    destruct (Inspect_flagged _ _ ByAssign_findTableTests_flagged
                (ByAssign.mkState false 0 ∅) node) as [_ H1].
    destruct (Inspect ByAssign.findTableTests _ node) as [s1 n1].
    destruct (Inspect_flagged _ _ ByAssign_updateRange_flagged s1 n1)
      as [U2 H2].
    destruct (Inspect ByAssign.updateRange s1 n1) as [s2 n2].
    destruct (Inspect_flagged _ _ ByAssign_updateRunCall_flagged s2 n2)
      as [U3 H3].
    destruct (Inspect ByAssign.updateRunCall s2 n2) as [s3 n3]. simpl in *.
    destruct (ByAssign.modified s3) eqn:E3; [by left|right].
    specialize (H3 eq_refl). simplify_eq.
    rewrite E3 in H2. specialize (H2 eq_refl). simplify_eq.
    rewrite E3 in H1. specialize (H1 eq_refl). by simplify_eq.
  - unfold ByDecl.convert.
    destruct (Inspect_flagged _ _ ByDecl_findTableTests_flagged
                (ByDecl.mkState false 0) node) as [_ H1].
    destruct (Inspect ByDecl.findTableTests _ node) as [s1 n1].
    destruct (Inspect_flagged _ _ (ByDecl_updateRange_flagged n1) s1 n1)
      as [U2 H2].
    destruct (Inspect (ByDecl.updateRange n1) s1 n1) as [s2 n2].
    destruct (Inspect_flagged _ _ ByDecl_updateRunCall_flagged s2 n2)
      as [U3 H3].
    destruct (Inspect ByDecl.updateRunCall s2 n2) as [s3 n3]. simpl in *.
    destruct (ByDecl.modified s3) eqn:E3; [by left|right].
    specialize (H3 eq_refl). simplify_eq.
    rewrite E3 in H2. specialize (H2 eq_refl). simplify_eq.
    rewrite E3 in H1. specialize (H1 eq_refl). by simplify_eq.
Qed.

Lemma everywhereb_sound (p : Node → bool) fuel :
  ∀ n, everywhereb fuel p n = true → everywhere (fun m => p m = true) n.
Proof.
  induction fuel as [|fuel IH]; intros n; simpl; [done|].
  intros [Hp Hc]%andb_true_iff. constructor; [done|].
  intros c Hin. apply IH.
  rewrite forallb_forall in Hc. apply Hc. by apply list_elem_of_In.
Qed.

Lemma everywhere_and (P Q : Node → Prop) n :
  everywhere P n → everywhere Q n → everywhere (fun m => P m ∧ Q m) n.
Proof.
  intros H. induction H as [n Hn _ IH]. intros HQ.
  inversion HQ as [? Hq Hc]; subst.
  constructor; [done|]. intros c Hin. apply IH; [done|by apply Hc].
Qed.

Lemma ByAssign_converted_file_untouched_witness :
  processFile ByAssign.convert
    (fun _ => inl (ByAssign.convert Samples.descAssignFile).1)
    SampleRun.Create SampleRun.Fprint SampleRun.testPath SampleRun.disk
  = (SampleRun.disk, (mkFileResult false 0, None)).
Proof.
  apply (ByAssign_converted_file_untouched _ _ _ _ _ Samples.descAssignFile).
  reflexivity.
Defined.

Lemma ByAssign_quiet_file_untouched_witness :
  processFile ByAssign.convert (fun _ => inl Samples.descAssignFileAfter)
    SampleRun.Create SampleRun.Fprint SampleRun.testPath SampleRun.disk
  = (SampleRun.disk, (mkFileResult false 0, None)).
Proof.
  apply (ByAssign_quiet_file_untouched _ _ _ _ _ Samples.descAssignFileAfter).
  - reflexivity.
  - apply (everywhereb_sound noTable 20). vm_compute. reflexivity.
  - apply (everywhereb_sound (fun m => negb (isRunCallOnName m)) 20).
    vm_compute. reflexivity.
Defined.

(** X14.  After the three walks of the second copy no assignment in the
    tree binds a table that step 1 would convert, and no call
    [t.Run(tc.name, ...)], [t.Run(tc.desc, ...)] or
    [t.Run(tc.description, ...)] is left anywhere in it. *)
Theorem ByAssign_nothing_left (node : Node) :
  everywhere (fun m => noTable m = true ∧ isRunCallOnName m = false)
    (ByAssign.convert node).1.
Proof.
  destruct (ByAssignOnce.convert_settled node) as [H1 H3].
  eapply everywhere_impl; [|exact (everywhere_and _ _ _ H1 H3)].
  intros m [Hm Hr]. split; [done|]. by apply negb_true_iff.
Qed.

Lemma ByDecl_findTableTests_tame : tame ByDecl.findTableTests.
Proof.
  split; [exact ByDeclFacts.decl_findTableTests_shrinking| |].
  - intros s n. destruct n; try done. simpl.
    destruct (_ && _); [done|]. by destruct (mapS _ _ _).
  - intros s n Ht. by destruct n.
Qed.

Lemma ByDecl_updateRange_tame file : tame (ByDecl.updateRange file).
Proof.
  split; [exact (ByDeclFacts.decl_updateRange_shrinking file)| |].
  - intros s n. unfold ByDecl.updateRange. by repeat case_match.
  - intros s n Ht. by destruct n.
Qed.

Lemma ByDecl_updateRunCall_tame : tame ByDecl.updateRunCall.
Proof.
  split; [exact ByDeclFacts.decl_updateRunCall_shrinking| |].
  - intros s n. unfold ByDecl.updateRunCall. by repeat case_match.
  - intros s n Ht. by destruct n.
Qed.

(** A walk over a file keeps the package name and, one by one, the kind of
    each top-level declaration, when the callback passes over the file node
    itself. *)
Lemma walk_file {St} (f : @Visitor St) :
  tame f →
  (∀ s name decls, f s (File name decls) = (s, File name decls)) →
  ∀ s name decls,
    ∃ decls', (Inspect f s (File name decls)).2 = File name decls'
              ∧ map label decls' = map label decls.
Proof.
  intros Hf Hfile s name decls.
  rewrite (Inspect_eq f (tame_shrinking f Hf)), Hfile. simpl.
  pose proof (mapS_map (Inspect f) label decls
                (fun s c _ => label_walk f Hf s c) s) as H.
  destruct (mapS (Inspect f) s decls) as [s' decls']. simpl in *.
  by exists decls'.
Qed.

(** X16.  Neither copy adds, drops, reorders or changes the kind of a
    top-level declaration, and both keep the package name: the converted
    file has the declarations of the parsed one, each of the same kind
    (for a [GenDecl], with the same keyword). *)
Theorem convert_keeps_declarations (name : string) (decls : list Node) :
  (∃ decls', (ByAssign.convert (File name decls)).1 = File name decls'
             ∧ map label decls' = map label decls)
  ∧ (∃ decls', (ByDecl.convert (File name decls)).1 = File name decls'
               ∧ map label decls' = map label decls).
Proof.
  split.
  - unfold ByAssign.convert.
    destruct (walk_file _ ByAssignOnce.findTableTests_tame
                ltac:(done) (ByAssign.mkState false 0 ∅) name decls)
      as (d1 & E1 & L1).
    destruct (Inspect ByAssign.findTableTests _ _) as [s1 n1].
    simpl in E1. subst n1.
    destruct (walk_file _ ByAssignOnce.updateRange_tame
                ltac:(done) s1 name d1) as (d2 & E2 & L2).
    destruct (Inspect ByAssign.updateRange _ _) as [s2 n2].
    simpl in E2. subst n2.
    destruct (walk_file _ ByAssignOnce.updateRunCall_tame
                ltac:(done) s2 name d2) as (d3 & E3 & L3).
    destruct (Inspect ByAssign.updateRunCall _ _) as [s3 n3].
    simpl in E3. subst n3. exists d3. simpl. split; [done|congruence].
  - unfold ByDecl.convert.
    destruct (walk_file _ ByDecl_findTableTests_tame
                ltac:(done) (ByDecl.mkState false 0) name decls)
      as (d1 & E1 & L1).
    destruct (Inspect ByDecl.findTableTests _ _) as [s1 n1].
    simpl in E1. subst n1.
    destruct (walk_file _ (ByDecl_updateRange_tame (File name d1))
                ltac:(done) s1 name d1) as (d2 & E2 & L2).
    destruct (Inspect (ByDecl.updateRange _) _ _) as [s2 n2].
    simpl in E2. subst n2.
    destruct (walk_file _ ByDecl_updateRunCall_tame
                ltac:(done) s2 name d2) as (d3 & E3 & L3).
    destruct (Inspect ByDecl.updateRunCall _ _) as [s3 n3].
    simpl in E3. subst n3. exists d3. simpl. split; [done|congruence].
Qed.

Ltac unfold_main := unfold main.

Section ProgramFacts.
Variable convert : Node → Node * (bool * Z).
Variable ParseFile : option string → Node + string.
Variable Create : FS → string → option string.
Variable Fprint : string → Node → string * option string.
Variable walkEntries : string → list WalkEntry.

Local Abbreviation ConvertTableTests :=
  (ConvertTableTests convert ParseFile Create Fprint walkEntries).
Local Abbreviation main := (main convert ParseFile Create Fprint walkEntries).

(** X19.  The program ends with status 1, having touched no file, when it
    is given no directory; given one, it ends with status 0 and leaves the
    files as the batch left them, whatever errors the batch recorded: the
    walk never returns an error, so the branch that prints it is dead. *)
Theorem main_exit_status (args : list string) (fs : FS) :
  main args fs
  = match args with
    | _ :: directoryPath :: _ => ((ConvertTableTests directoryPath fs).1, 0)
    | _ => (fs, 1)
    end.
Proof.
  unfold_main.
  destruct args as [|prog [|directoryPath rest]]; try done. simpl.
  pose proof (ConvertTableTests_returns_result convert ParseFile Create
                Fprint walkEntries directoryPath fs) as H.
  destruct (ConvertTableTests directoryPath fs) as [fs' [result err]].
  simpl in H. by subst err.
Qed.
End ProgramFacts.

Lemma isRunCallOnTcName_prune fn args :
  isRunCallOnTcName (CallExpr (prune 1 fn) (map (prune 1) args))
  = isRunCallOnTcName (CallExpr fn args).
Proof.
  destruct fn as [| | | |x sel| | | | | | | | | | | | |]; try done.
  destruct x; try done.
  destruct args as [|arg rest]; [done|].
  destruct arg as [| | | |x' sel'| | | | | | | | | | | | |]; try done.
  by destruct x'.
Qed.

Lemma isRunCallOnTcName_descend {St} (f : @Visitor St) s n :
  tame f →
  isRunCallOnTcName (descend (Inspect f) s n).2 = isRunCallOnTcName n.
Proof.
  intros Hf.
  destruct n as [| | | | |fn args| | | | | | | | | | | |].
  all: try (pose proof (label_descend (Inspect f) s) as H;
            match goal with
            | |- isRunCallOnTcName (descend _ _ ?m).2 = _ => specialize (H m)
            end;
            destruct (descend _ _ _).2; simpl in H; try discriminate H; done).
  simpl.
  pose proof (prune_walk f Hf 1 s fn) as Hfn.
  destruct (Inspect f s fn) as [s1 fn'].
  pose proof (mapS_prune f Hf 1 s1 args) as Ha.
  destruct (mapS (Inspect f) s1 args) as [s2 args']. cbn [snd] in *.
  by rewrite <- (isRunCallOnTcName_prune fn'), Hfn, Ha,
       isRunCallOnTcName_prune.
Qed.

Lemma ByDecl_updateRunCall_after s n :
  isRunCallOnTcName (ByDecl.updateRunCall s n).2 = false.
Proof.
  unfold ByDecl.updateRunCall, isRunCallOnTcName.
  repeat (case_match; simplify_eq; simpl in *; try done).
  all: repeat match goal with
         | |- context [(?a =? ?b)%string] => destruct (a =? b)%string
         end; done.
Qed.

Lemma ByDecl_updateRunCall_walk s n :
  everywhere (fun m => negb (isRunCallOnTcName m) = true)
    (Inspect ByDecl.updateRunCall s n).2.
Proof.
  apply (walk_establishes ByDecl.updateRunCall
           (fun m => negb (isRunCallOnTcName m)) ByDecl_updateRunCall_tame).
  - intros s' n'. by rewrite ByDecl_updateRunCall_after.
  - intros s' n'. f_equal.
    by apply isRunCallOnTcName_descend, ByDecl_updateRunCall_tame.
Qed.

(** X17.  After the three walks of the first copy no call
    [t.Run(tc.name, ...)] is left anywhere in the tree. *)
Theorem ByDecl_no_name_call_left (node : Node) :
  everywhere (fun m => isRunCallOnTcName m = false) (ByDecl.convert node).1.
Proof.
  unfold ByDecl.convert.
  destruct (Inspect ByDecl.findTableTests _ node) as [s1 n1].
  destruct (Inspect (ByDecl.updateRange n1) s1 n1) as [s2 n2].
  pose proof (ByDecl_updateRunCall_walk s2 n2) as H.
  destruct (Inspect ByDecl.updateRunCall s2 n2) as [s3 n3]. simpl in *.
  eapply everywhere_impl; [|exact H]. intros m Hm. by apply negb_true_iff.
Qed.

(** ** Walks under an invariant of the state *)

Section Invariant.
Context {St : Type} (I : St → Prop).
Implicit Types (f rec : @Visitor St) (s : St) (n c : Node) (l : list Node).
Implicit Types (R : Node → Prop).

Lemma mapS_inv R rec l :
  (∀ s c, c ∈ l → I s → I (rec s c).1 ∧ R (rec s c).2) →
  ∀ s, I s → I (mapS rec s l).1 ∧ ∀ c', c' ∈ (mapS rec s l).2 → R c'.
Proof.
  induction l as [|n l IH]; intros H s Hs; simpl.
  - split; [done|]. intros c' Hc. by apply elem_of_nil in Hc.
  - destruct (H s n (list_elem_of_here _ _) Hs) as [H1 H2].
    destruct (rec s n) as [s1 n']. simpl in *.
    destruct (IH (fun s c Hc => H s c (list_elem_of_further _ _ _ Hc)) s1 H1)
      as [H3 H4].
    destruct (mapS rec s1 l) as [s2 l']. simpl in *. split; [done|].
    intros c' [->|Hc]%elem_of_cons; [done|by apply H4].
Qed.

Lemma optS_inv R rec (o : option Node) :
  (∀ s c, c ∈ opt_list o → I s → I (rec s c).1 ∧ R (rec s c).2) →
  ∀ s, I s → I (optS rec s o).1 ∧ ∀ c', c' ∈ opt_list (optS rec s o).2 → R c'.
Proof.
  destruct o as [n|]; intros H s Hs; simpl.
  - destruct (H s n (list_elem_of_here _ _) Hs) as [H1 H2].
    destruct (rec s n) as [s1 n']. simpl in *. split; [done|].
    intros c' [->|Hc]%elem_of_cons; [done|by apply elem_of_nil in Hc].
  - split; [done|]. intros c' Hc. by apply elem_of_nil in Hc.
Qed.

(** The walk below a node keeps the invariant and leaves [R] on every
    child, when the walk of a child does. *)
Lemma descend_inv R rec n :
  (∀ s c, c ∈ children n → I s → I (rec s c).1 ∧ R (rec s c).2) →
  ∀ s, I s →
    I (descend rec s n).1 ∧ ∀ c', c' ∈ children (descend rec s n).2 → R c'.
Proof.
  intros Hall.
  assert (Hsub : ∀ l, (∀ c, c ∈ l → c ∈ children n) → ∀ s, I s →
            I (mapS rec s l).1 ∧ ∀ c', c' ∈ (mapS rec s l).2 → R c').
  { intros l Hl. apply mapS_inv. intros s c Hc. apply Hall, Hl, Hc. }
  assert (Hopt : ∀ o, (∀ c, c ∈ opt_list o → c ∈ children n) → ∀ s, I s →
            I (optS rec s o).1
            ∧ ∀ c', c' ∈ opt_list (optS rec s o).2 → R c').
  { intros o Hl. apply optS_inv. intros s c Hc. apply Hall, Hl, Hc. }
  intros s Hs.
  destruct n; simpl in *;
    try (split; [done|]; intros c' Hc; by apply elem_of_nil in Hc);
    repeat match goal with
      | Hi : I ?s |- context [optS rec ?s ?o] =>
          let H := fresh in
          pose proof (Hopt o ltac:(intros c0 Hc0; clear -Hc0; set_solver) s Hi) as H;
          destruct (optS rec s o); simpl in H; destruct H; clear Hi
      | Hi : I ?s |- context [mapS rec ?s ?l] =>
          let H := fresh in
          pose proof (Hsub l ltac:(intros c0 Hc0; clear -Hc0; set_solver) s Hi) as H;
          destruct (mapS rec s l); simpl in H; destruct H; clear Hi
      | Hi : I ?s |- context [rec ?s ?c] =>
          let H := fresh in
          pose proof (Hall s c ltac:(clear; set_solver) Hi) as H;
          destruct (rec s c); simpl in H; destruct H; clear Hi
      end; simpl;
    (split; [done|]); intros c' Hc;
    repeat (apply elem_of_app in Hc as [Hc|Hc]
            || apply elem_of_cons in Hc as [Hc|Hc]);
    try (by apply elem_of_nil in Hc); subst; eauto.
Qed.

(** A walk under an invariant of the state leaves a tree in which [Q]
    holds at every node, when the callback keeps the invariant and, under
    it, establishes [Q] at the node, and the walk below keeps [Q]. *)
Lemma walk_establishes_under f (Q : Node → bool) :
  tame f →
  (∀ s n, I s → I (f s n).1 ∧ Q (f s n).2 = true) →
  (∀ s n, Q (descend (Inspect f) s n).2 = Q n) →
  ∀ s n, I s →
    I (Inspect f s n).1 ∧ everywhere (fun m => Q m = true) (Inspect f s n).2.
Proof.
  intros Hf Hcb Hdesc s n. remember (weight n) as k eqn:Hk.
  revert s n Hk.
  induction k as [k IH] using lt_wf_ind. intros s n -> Hs.
  rewrite (Inspect_eq f (tame_shrinking f Hf)).
  destruct (Hcb s n Hs) as [H1 H2].
  pose proof (tame_shrinking f Hf s n) as Hw.
  destruct (f s n) as [s1 n1]. simpl in *.
  destruct (descend_inv (everywhere (fun m => Q m = true)) (Inspect f) n1
              (fun s' c Hc => IH (weight c) (Hw c Hc) s' c eq_refl) s1 H1)
    as [H3 H4].
  split; [done|]. constructor; [by rewrite Hdesc|done].
Qed.
End Invariant.

Lemma label_ident n name : label n = Ident name → n = Ident name.
Proof. by destruct n. Qed.

Lemma label_key (k k' : option Node) :
  label <$> k' = label <$> k →
  isBlankIdent k' = isBlankIdent k ∧ isNil k' = isNil k.
Proof.
  destruct k as [k|], k' as [k'|]; simpl; try done.
  intros [= H]. destruct k; simpl in H;
    try (destruct k'; simpl in H; try discriminate H; done).
  by rewrite (label_ident k' Name).
Qed.

Lemma loopKeyed_descend {St} (f : @Visitor St) vars s n :
  tame f →
  loopKeyed vars (descend (Inspect f) s n).2 = loopKeyed vars n.
Proof.
  intros Hf.
  destruct n as [| | | | | | | | | | | |key value x body| | | | |].
  all: try (pose proof (label_descend (Inspect f) s) as H;
            match goal with
            | |- loopKeyed _ (descend _ _ ?m).2 = _ => specialize (H m)
            end;
            destruct (descend _ _ _).2; simpl in H; try discriminate H; done).
  simpl.
  pose proof (optS_map (Inspect f) label key
                (fun s' c _ => label_walk f Hf s' c) s) as Hk.
  destruct (optS (Inspect f) s key) as [s1 key'].
  destruct (optS (Inspect f) s1 value) as [s2 value'].
  pose proof (label_walk f Hf s2 x) as Hx.
  destruct (Inspect f s2 x) as [s3 x'].
  destruct (Inspect f s3 body) as [s4 body']. cbn [snd] in *.
  destruct (label_key _ _ Hk) as [Hb Hn]. cbn [loopKeyed].
  destruct x; simpl in Hx;
    try (destruct x'; simpl in Hx; try discriminate Hx; done).
  rewrite (label_ident x' Name Hx). by rewrite Hb, Hn.
Qed.

Lemma ByAssign_updateRange_keys vars s n :
  ByAssign.tableTestVars s = vars →
  ByAssign.tableTestVars (ByAssign.updateRange s n).1 = vars
  ∧ loopKeyed vars (ByAssign.updateRange s n).2 = true.
Proof.
  intros <-. unfold ByAssign.updateRange, loopKeyed.
  repeat (case_match; simplify_eq; simpl in *; try done).
  all: split; [done|]; by apply negb_true_iff.
Qed.

Lemma ByAssign_updateRunCall_loopKeyed vars s n :
  loopKeyed vars (ByAssign.updateRunCall s n).2 = loopKeyed vars n.
Proof. unfold ByAssign.updateRunCall. by repeat case_match. Qed.

Lemma ByAssign_updateRunCall_leaf vars s n c :
  c ∈ children (ByAssign.updateRunCall s n).2 →
  c ∈ children n ∨ (children c = [] ∧ loopKeyed vars c = true).
Proof.
  unfold ByAssign.updateRunCall. repeat (case_match; try (by left)).
  subst. simpl.
  intros [->|[->|H]%elem_of_cons]%elem_of_cons; [left; by left|by right|].
  left. right. by right.
Qed.

(** X15.  In the tree the second copy leaves, every range loop over a
    variable that step 1 recorded as a table has a key, and not the blank
    one: no loop over a converted table is left with a value variable
    only. *)
Theorem ByAssign_table_loops_keyed (node : Node) :
  everywhere (fun m => loopKeyed (tablesFound node) m = true)
    (ByAssign.convert node).1.
Proof.
  unfold ByAssign.convert, tablesFound.
  destruct (Inspect ByAssign.findTableTests _ node) as [s1 n1]. simpl.
  set (vars := ByAssign.tableTestVars s1).
  destruct (walk_establishes_under
              (fun s => ByAssign.tableTestVars s = vars)
              ByAssign.updateRange (loopKeyed vars)
              ByAssignOnce.updateRange_tame
              (ByAssign_updateRange_keys vars)
              (fun s n => loopKeyed_descend ByAssign.updateRange vars s n
                            ByAssignOnce.updateRange_tame)
              s1 n1 eq_refl) as [_ H2].
  destruct (Inspect ByAssign.updateRange s1 n1) as [s2 n2].
  pose proof (walk_preserves ByAssign.updateRunCall (loopKeyed vars)
                ByAssignOnce.updateRunCall_tame
                (ByAssign_updateRunCall_loopKeyed vars)
                (ByAssign_updateRunCall_leaf vars)
                (fun s n => loopKeyed_descend ByAssign.updateRunCall vars s n
                              ByAssignOnce.updateRunCall_tame)
                s2 n2 H2) as H3.
  by destruct (Inspect ByAssign.updateRunCall s2 n2) as [s3 n3].
Qed.

(** ** The first copy on a tree it has converted *)

Lemma ByDecl_convertValues_plain s ty values :
  match sliceFields ty with
  | Some fields => (findNameFieldFrom 0 fields).1 = ""
  | None => True
  end →
  ByDecl.convertValues s ty values = (s, ty, values).
Proof.
  intros H. induction values as [|value rest IH]; [done|].
  cbn [ByDecl.convertValues]. rewrite IH.
  destruct ty as [ty|]; [|done].
  destruct ty as [| | | | | | |len elt| | | | | | | | | |]; try done.
  destruct len; [done|]. destruct elt; try done.
  simpl in H. unfold findNameField.
  destruct (findNameFieldFrom 0 Fields) as [nameField index].
  simpl in H. by subst nameField.
Qed.

Lemma settledValues_quiet s ty values :
  settledValues ty values = true →
  ByDecl.convertValues s ty values = (s, ty, values).
Proof.
  unfold settledValues. intros H.
  destruct (sliceFields ty) as [fields|] eqn:Ef.
  - apply orb_true_iff in H as [H|H].
    + apply ByDecl_convertValues_plain. rewrite Ef.
      by apply String.eqb_eq.
    + apply ByDecl_convertValues_skip. apply Forall_forall.
      intros v Hv. rewrite forallb_forall in H.
      apply negb_true_iff, H. by apply list_elem_of_In.
  - apply ByDecl_convertValues_plain. by rewrite Ef.
Qed.

Lemma ByDecl_convertValues_settles values :
  ∀ s ty,
    settledValues (ByDecl.convertValues s ty values).1.2
      (ByDecl.convertValues s ty values).2 = true.
Proof.
  induction values as [|value rest IH]; intros s ty.
  - simpl. unfold settledValues. destruct (sliceFields ty); [|done].
    apply orb_true_r.
  - destruct (settledValues ty (value :: rest)) eqn:Eq.
    { by rewrite settledValues_quiet. }
    cbn [ByDecl.convertValues].
    unfold settledValues in Eq.
    destruct ty as [ty|]; [|done].
    destruct ty as [| | | | | | |len elt| | | | | | | | | |]; try done.
    destruct len; [done|]. destruct elt; try done.
    cbn [sliceFields forallb] in Eq. apply orb_false_iff in Eq as [En Ec].
    unfold findNameField.
    destruct (findNameFieldFrom 0 Fields) as [nameField index].
    cbn [fst] in En. rewrite En.
    destruct (isCompositeLit value) eqn:Ev.
    + destruct value; try discriminate Ev.
      rewrite ByDecl_convertValues_plain by done. done.
    + cbn [negb andb] in Ec.
      pose proof (IH s (Some (ArrayType None (StructType Fields)))) as Hr.
      destruct (ByDecl.convertValues s _ rest) as [[s' ty'] rest'].
      simpl in Hr.
      assert (settledValues ty' (value :: rest') = true) as Hs.
      { unfold settledValues in *. destruct (sliceFields ty'); [|done].
        simpl. rewrite Ev. simpl. done. }
      by destruct value.
Qed.

Lemma mapS_forallb {St} (rec : @Visitor St) (p : Node → bool) l :
  (∀ s c, p (rec s c).2 = true) → ∀ s, forallb p (mapS rec s l).2 = true.
Proof.
  intros H. induction l as [|n l IH]; intros s; simpl; [done|].
  pose proof (H s n) as Hn. destruct (rec s n) as [s1 n'].
  specialize (IH s1). destruct (mapS rec s1 l) as [s2 l']. simpl in *.
  by rewrite Hn, IH.
Qed.

Lemma ByDecl_convertSpec_settles s spec :
  specSettled (ByDecl.convertSpec s spec).2 = true.
Proof.
  destruct spec; try done. simpl.
  pose proof (ByDecl_convertValues_settles Values s Typ) as H.
  by destruct (ByDecl.convertValues s Typ Values) as [[s' ty'] values'].
Qed.

Lemma ByDecl_findTableTests_settles s n :
  declSettled (ByDecl.findTableTests s n).2 = true.
Proof.
  destruct n; try done. simpl.
  destruct (negb (token_eqb Tok VAR) && negb (token_eqb Tok CONST)) eqn:Et.
  - simpl. by rewrite Et.
  - pose proof (mapS_forallb ByDecl.convertSpec specSettled Specs
                  ByDecl_convertSpec_settles s) as H.
    destruct (mapS ByDecl.convertSpec s Specs) as [s' specs']. simpl in *.
    rewrite H. apply orb_true_r.
Qed.

Lemma declSettled_quiet n :
  declSettled n = true → ∀ s, ByDecl.findTableTests s n = (s, n).
Proof.
  intros H s. destruct n; try done. simpl in *.
  destruct (negb (token_eqb Tok VAR) && negb (token_eqb Tok CONST)); [done|].
  simpl in H. rewrite mapS_id; [done|].
  intros spec Hin. rewrite forallb_forall in H.
  apply list_elem_of_In, H in Hin.
  destruct spec; try done. simpl in *. by rewrite settledValues_quiet.
Qed.

(** *** What a walk leaves of a spec and of a declaration *)

Lemma sliceFields_prune ty :
  sliceFields (prune 2 <$> ty) = map label <$> sliceFields ty.
Proof.
  destruct ty as [ty|]; [|done].
  destruct ty as [| | | | | | |[len|] elt| | | | | | | | | |]; try done.
  by destruct elt.
Qed.

Lemma forallb_through_map {A B} (p : B → bool) (g : A → B) (l : list A) :
  forallb p (map g l) = forallb (fun x => p (g x)) l.
Proof. induction l as [|x l IH]; simpl; [done|]. by rewrite IH. Qed.

Lemma forallb_pointwise {A} (p q : A → bool) (l : list A) :
  (∀ x, p x = q x) → forallb p l = forallb q l.
Proof. intros H. induction l as [|x l IH]; simpl; [done|]. by rewrite H, IH. Qed.

Lemma isCompositeLit_label v : isCompositeLit (label v) = isCompositeLit v.
Proof. by destruct v. Qed.

Lemma specSettled_specView spec : specSettled (specView spec) = specSettled spec.
Proof.
  destruct spec; try done. simpl. unfold settledValues.
  rewrite sliceFields_prune. destruct (sliceFields Typ) as [fields|]; [|done].
  simpl. rewrite findNameFieldFrom_label, forallb_through_map. f_equal.
  apply forallb_pointwise. intros v. by rewrite isCompositeLit_label.
Qed.

Lemma forallb_specSettled_view specs specs' :
  map specView specs' = map specView specs →
  forallb specSettled specs' = forallb specSettled specs.
Proof.
  intros H.
  rewrite <- (forallb_pointwise _ _ specs' specSettled_specView),
          <- (forallb_pointwise _ _ specs specSettled_specView).
  rewrite <- (forallb_through_map specSettled specView specs'),
          <- (forallb_through_map specSettled specView specs).
  by rewrite H.
Qed.

Lemma specView_other r c :
  label r = label c → isValueSpec c = false → specView r = specView c.
Proof. intros H Hc. destruct c; try done; by destruct r. Qed.

Lemma declView_other r d :
  label r = label d → isGenDecl d = false → declView r = declView d.
Proof. intros H Hd. destruct d; try done; by destruct r. Qed.

Section Views.
Context {St : Type} (f : @Visitor St) (Hf : tame f).

Lemma walk_spec s c :
  passesSpecs f → specView (Inspect f s c).2 = specView c.
Proof.
  intros Hp. destruct (isValueSpec c) eqn:Ec.
  - destruct c as [| | | | | | | | | | | | | | |names ty values| |];
      try discriminate Ec.
    rewrite (Inspect_eq f (tame_shrinking f Hf)), Hp.
    cbn [descend specView].
    pose proof (optS_map (Inspect f) (prune 2) ty
                  (fun s' c _ => prune_walk f Hf 2 s' c) s) as Ht.
    destruct (optS (Inspect f) s ty) as [s1 ty'].
    pose proof (mapS_map (Inspect f) label values
                  (fun s' c _ => label_walk f Hf s' c) s1) as Hv.
    destruct (mapS (Inspect f) s1 values) as [s2 values'].
    cbn [snd specView] in *. by rewrite Ht, Hv.
  - apply specView_other; [by apply label_walk|done].
Qed.

Lemma declSettled_descend s n :
  passesSpecs f →
  declSettled (descend (Inspect f) s n).2 = declSettled n.
Proof.
  intros Hp. destruct (isGenDecl n) eqn:En.
  - destruct n as [| | | | | | | | | | | | | |tok specs| | |];
      try discriminate En.
    cbn [descend].
    pose proof (mapS_map (Inspect f) specView specs
                  (fun s' c _ => walk_spec s' c Hp) s) as Hs.
    destruct (mapS (Inspect f) s specs) as [s1 specs']. cbn [snd] in *.
    cbn [declSettled]. by rewrite (forallb_specSettled_view _ _ Hs).
  - pose proof (label_descend (Inspect f) s n) as H.
    destruct n; try discriminate En;
      by destruct (descend _ _ _).2.
Qed.

Lemma walk_decl s d :
  passesDecls f → declView (Inspect f s d).2 = declView d.
Proof.
  intros (Hp & Hg & _). destruct (isGenDecl d) eqn:Ed.
  - destruct d as [| | | | | | | | | | | | | |tok specs| | |];
      try discriminate Ed.
    rewrite (Inspect_eq f (tame_shrinking f Hf)), Hg.
    cbn [descend declView].
    pose proof (mapS_map (Inspect f) specView specs
                  (fun s' c _ => walk_spec s' c Hp) s) as Hs.
    destruct (mapS (Inspect f) s specs) as [s1 specs'].
    cbn [snd declView] in *. by rewrite Hs.
  - apply declView_other; [by apply label_walk|done].
Qed.
End Views.

(** *** What [lookupObject] finds after a walk *)

Lemma label_prune d n : label (prune d n) = label n.
Proof.
  destruct d; simpl;
    [destruct n; simpl; repeat (case_match; simplify_eq); done|].
  destruct (transparent n); destruct n; try done;
    simpl; repeat (case_match; simplify_eq); done.
Qed.

Lemma specView_declares name a b :
  specView a = specView b →
  ByDecl.specDeclares name a = ByDecl.specDeclares name b
  ∧ ByDecl.isMapType a = ByDecl.isMapType b.
Proof.
  intros H. destruct a, b; try discriminate H; try done.
  cbn [specView] in H. injection H as Hn Ht Hv. subst. split; [done|].
  cbn [ByDecl.isMapType].
  destruct Typ as [ta|], Typ0 as [tb|]; try discriminate Ht; [|done].
  injection Ht as Ht. change (prune 2 ta = prune 2 tb) in Ht.
  assert (label ta = label tb) as Hl.
  { by rewrite <- (label_prune 2 ta), Ht, label_prune. }
  destruct ta, tb; try discriminate Hl; done.
Qed.

Lemma find_specView name specs :
  ∀ specs',
    map specView specs' = map specView specs →
    ByDecl.isMapType <$> List.find (ByDecl.specDeclares name) specs'
    = ByDecl.isMapType <$> List.find (ByDecl.specDeclares name) specs.
Proof.
  induction specs as [|spec rest IH]; intros [|spec' rest'] H;
    try discriminate H; [done|].
  injection H as Hs Hr. destruct (specView_declares name _ _ Hs) as [Hd Hm].
  cbn [List.find]. rewrite Hd.
  destruct (ByDecl.specDeclares name spec); simpl; [by rewrite Hm|by apply IH].
Qed.

Lemma lookupDecls_view name decls :
  ∀ decls',
    map declView decls' = map declView decls →
    ByDecl.isMapType <$> ByDecl.lookupDecls decls' name
    = ByDecl.isMapType <$> ByDecl.lookupDecls decls name.
Proof.
  induction decls as [|d rest IH]; intros [|d' rest'] H;
    try discriminate H; [done|].
  injection H as Hd Hr. specialize (IH rest' Hr).
  destruct (isGenDecl d) eqn:Ed.
  - destruct d as [| | | | | | | | | | | | | |tok specs| | |];
      try discriminate Ed.
    destruct d'; try discriminate Hd.
    cbn [declView] in Hd. injection Hd as -> Hs.
    cbn [ByDecl.lookupDecls].
    destruct (negb (token_eqb tok VAR) && negb (token_eqb tok CONST)); [done|].
    pose proof (find_specView name specs Specs Hs) as Hf.
    destruct (List.find _ Specs), (List.find _ specs);
      simpl in Hf; try discriminate Hf; done.
  - destruct d; try discriminate Ed; destruct d'; try discriminate Hd; done.
Qed.

Lemma walk_mapTyped {St} (f : @Visitor St) s file name :
  tame f → passesDecls f →
  mapTyped (Inspect f s file).2 name = mapTyped file name.
Proof.
  intros Hf Hp. unfold mapTyped.
  destruct (isFile file) eqn:Ef.
  - destruct file as [| | | | | | | | | | | | | | | |pkg decls|];
      try discriminate Ef.
    rewrite (Inspect_eq f (tame_shrinking f Hf)).
    destruct Hp as (Hs & Hg & Hfile). rewrite Hfile. cbn [descend].
    pose proof (mapS_map (Inspect f) declView decls
                  (fun s' c _ => walk_decl f Hf s' c
                                   (conj Hs (conj Hg Hfile))) s) as Hd.
    destruct (mapS (Inspect f) s decls) as [s1 decls'].
    cbn [snd ByDecl.lookupObject] in *.
    pose proof (lookupDecls_view name decls decls' Hd) as Hl.
    destruct (ByDecl.lookupDecls decls' name),
             (ByDecl.lookupDecls decls name);
      simpl in Hl; try discriminate Hl; [by injection Hl|done].
  - pose proof (label_walk f Hf s file) as Hl.
    assert (isFile (Inspect f s file).2 = false) as Er.
    { destruct (Inspect f s file).2; try done.
      destruct file; try discriminate Hl; done. }
    destruct (Inspect f s file).2; try discriminate Er;
      destruct file; try discriminate Ef; done.
Qed.

(** *** Loops the second run leaves alone *)

Lemma rangeSettled_files file file' n :
  (∀ name, mapTyped file' name = mapTyped file name) →
  rangeSettled file' n = rangeSettled file n.
Proof.
  intros H.
  destruct n as [| | | | | | | | | | | |key value x body| | | | |]; try done.
  destruct x; try done. simpl. by rewrite H.
Qed.

Lemma ByDecl_updateRange_settles file s n :
  rangeSettled file (ByDecl.updateRange file s n).2 = true.
Proof.
  destruct n as [| | | | | | | | | | | |key value x body| | | | |]; try done.
  destruct x; try done.
  assert (Hfree : ∀ k, mapTyped file Name = false →
            rangeSettled file (RangeStmt k value (Ident Name) body) = true).
  { intros k H. unfold rangeSettled. by rewrite H. }
  assert (Hkey : ∀ k, negb (isBlankIdent k || isNil k) = true →
            rangeSettled file (RangeStmt k value (Ident Name) body) = true).
  { intros k H. unfold rangeSettled. rewrite H. by rewrite orb_true_r. }
  assert (Hboth : negb (isNil key) && negb (isNil value) = true →
            rangeSettled file (RangeStmt key value (Ident Name) body) = true).
  { intros H. unfold rangeSettled. rewrite H. by rewrite orb_true_r. }
  unfold ByDecl.updateRange. unfold mapTyped in Hfree.
  destruct (ByDecl.lookupObject file Name) as [obj|]; [|by apply Hfree].
  destruct (ByDecl.isMapType obj); [|by apply Hfree].
  destruct (negb (isNil key) && negb (isNil value)) eqn:Eb; [by apply Hboth|].
  cbn [snd]. apply Hkey.
  destruct key as [key|]; [|done]. simpl.
  destruct key as [kn| | | | | | | | | | | | | | | | |]; try done. simpl.
  destruct (kn =? "_")%string eqn:E; simpl; [done|by rewrite E].
Qed.

Lemma rangeSettled_still file n :
  rangeSettled file n = true → ∀ s, (ByDecl.updateRange file s n).2 = n.
Proof.
  intros H s.
  destruct n as [| | | | | | | | | | | |key value x body| | | | |]; try done.
  destruct x; try done.
  unfold rangeSettled, mapTyped in H. unfold ByDecl.updateRange.
  destruct (ByDecl.lookupObject file Name) as [obj|]; [|done].
  destruct (ByDecl.isMapType obj); [|done].
  destruct (negb (isNil key) && negb (isNil value)); [done|].
  simpl in H. apply negb_true_iff in H. by rewrite H.
Qed.

Lemma rangeSettled_descend {St} (f : @Visitor St) file s n :
  tame f →
  rangeSettled file (descend (Inspect f) s n).2 = rangeSettled file n.
Proof.
  intros Hf.
  destruct n as [| | | | | | | | | | | |key value x body| | | | |].
  all: try (pose proof (label_descend (Inspect f) s) as H;
            match goal with
            | |- rangeSettled _ (descend _ _ ?m).2 = _ => specialize (H m)
            end;
            destruct (descend _ _ _).2; simpl in H; try discriminate H; done).
  cbn [descend].
  pose proof (optS_map (Inspect f) label key
                (fun s' c _ => label_walk f Hf s' c) s) as Hk.
  destruct (optS (Inspect f) s key) as [s1 key'].
  pose proof (optS_map (Inspect f) label value
                (fun s' c _ => label_walk f Hf s' c) s1) as Hv.
  destruct (optS (Inspect f) s1 value) as [s2 value'].
  pose proof (label_walk f Hf s2 x) as Hx.
  destruct (Inspect f s2 x) as [s3 x'].
  destruct (Inspect f s3 body) as [s4 body']. cbn [snd] in *.
  destruct (label_key _ _ Hk) as [Hb Hn].
  destruct (label_key _ _ Hv) as [_ Hnv]. cbn [rangeSettled].
  destruct x; simpl in Hx;
    try (destruct x'; simpl in Hx; try discriminate Hx; done).
  rewrite (label_ident x' Name Hx). by rewrite Hb, Hn, Hnv.
Qed.

Lemma ByDecl_updateRange_new file s n c :
  c ∈ children (ByDecl.updateRange file s n).2 →
  c ∈ children n ∨ c = Ident "name".
Proof.
  unfold ByDecl.updateRange. repeat (case_match; try (by left)).
  all: subst; simpl; rewrite ?elem_of_cons, ?elem_of_app; tauto.
Qed.

Lemma ByDecl_updateRunCall_new s n c :
  c ∈ children (ByDecl.updateRunCall s n).2 →
  c ∈ children n ∨ c = Ident "name".
Proof.
  unfold ByDecl.updateRunCall. repeat (case_match; try (by left)).
  subst. simpl. rewrite !elem_of_cons. tauto.
Qed.

Lemma ByDecl_updateRange_passes file : passesDecls (ByDecl.updateRange file).
Proof. by repeat split. Qed.

Lemma ByDecl_updateRunCall_passes : passesDecls ByDecl.updateRunCall.
Proof. by repeat split. Qed.

Lemma ByDecl_findTableTests_passes : passesSpecs ByDecl.findTableTests.
Proof. done. Qed.

Lemma ByDecl_updateRange_declSettled file s n :
  declSettled (ByDecl.updateRange file s n).2 = declSettled n.
Proof. unfold ByDecl.updateRange. by repeat case_match. Qed.

Lemma ByDecl_updateRunCall_declSettled s n :
  declSettled (ByDecl.updateRunCall s n).2 = declSettled n.
Proof. unfold ByDecl.updateRunCall. by repeat case_match. Qed.

Lemma ByDecl_updateRunCall_rangeSettled file s n :
  rangeSettled file (ByDecl.updateRunCall s n).2 = rangeSettled file n.
Proof. unfold ByDecl.updateRunCall. by repeat case_match. Qed.

Lemma ByDecl_updateRunCall_quiet n :
  isRunCallOnTcName n = false → ∀ s, ByDecl.updateRunCall s n = (s, n).
Proof.
  unfold isRunCallOnTcName, ByDecl.updateRunCall. intros H s.
  repeat (case_match; try done).
  all: repeat match goal with
         | H : context [(?a =? ?b)%string] |- _ =>
             destruct (a =? b)%string; simpl in *
         end; try done.
Qed.

Lemma mapChildren_same n : mapChildren (fun c => c) n = n.
Proof.
  destruct n; simpl; rewrite ?map_id; try done;
    repeat match goal with o : option Node |- _ => destruct o end; done.
Qed.

(** A walk on which the callback changes no node, whatever it does to the
    state, returns the tree as it was. *)
Lemma walk_still {St} (f : @Visitor St) n :
  shrinking f →
  everywhere (fun m => ∀ s, (f s m).2 = m) n →
  ∀ s, (Inspect f s n).2 = n.
Proof.
  intros Hf H. induction H as [n Hn _ IH]. intros s.
  rewrite (Inspect_eq f Hf). specialize (Hn s).
  destruct (f s n) as [s1 n1]. simpl in Hn. subst n1.
  pose proof (mapChildren_descend (Inspect f) (fun c => c) s1 n
                (fun s' c Hc => IH c Hc s')) as Hd.
  by rewrite !mapChildren_same in Hd.
Qed.

(** A walk keeps what its callback keeps of the state. *)
Lemma walk_state {St} (I : St → Prop) (f : @Visitor St) :
  tame f → (∀ s n, I s → I (f s n).1) →
  ∀ s n, I s → I (Inspect f s n).1.
Proof.
  intros Hf Hcb s n Hs.
  apply (walk_establishes_under I f (fun _ => true) Hf); [|done|done].
  intros s' n' Hs'. split; [by apply Hcb|done].
Qed.

(** A tree in which the three walks of the first copy find nothing to
    change is returned as it is, with no table counted. *)
Lemma ByDecl_settled_run (file n : Node) :
  everywhere (fun m => declSettled m = true) n →
  everywhere (fun m => rangeSettled file m = true) n →
  (∀ name, mapTyped n name = mapTyped file name) →
  everywhere (fun m => negb (isRunCallOnTcName m) = true) n →
  (ByDecl.convert n).1 = n ∧ (ByDecl.convert n).2.2 = 0.
Proof.
  intros H1 H2 Hm H3. unfold ByDecl.convert.
  rewrite (walk_quiet ByDecl.findTableTests (fun _ => True) n
             ByDeclFacts.decl_findTableTests_shrinking); [| |done].
  2:{ eapply everywhere_impl; [|exact H1]. intros m Hd s _.
      by apply declSettled_quiet. }
  pose proof (walk_still (ByDecl.updateRange n) n
                (ByDeclFacts.decl_updateRange_shrinking n)) as Hs.
  specialize (Hs ltac:(eapply everywhere_impl; [|exact H2];
                       intros m Hr s; apply rangeSettled_still;
                       by rewrite (rangeSettled_files file n m Hm))
                (ByDecl.mkState false 0)).
  pose proof (walk_state (fun s => ByDecl.tablesConverted s = 0)
                (ByDecl.updateRange n) (ByDecl_updateRange_tame n)) as Hc.
  specialize (Hc ltac:(intros s m Hs0; unfold ByDecl.updateRange;
                       by repeat case_match)
                (ByDecl.mkState false 0) n eq_refl).
  destruct (Inspect (ByDecl.updateRange n) _ n) as [s2 n2].
  simpl in Hs, Hc. subst n2.
  rewrite (walk_quiet ByDecl.updateRunCall (fun _ => True) n
             ByDeclFacts.decl_updateRunCall_shrinking); [done| |done].
  eapply everywhere_impl; [|exact H3]. intros m Hr s _.
  apply ByDecl_updateRunCall_quiet. by apply negb_true_iff.
Qed.

(** X18.  Run on its own output, the first copy returns the tree it is
    given and converts no table: whatever the second run reports, it has
    nothing left to change. *)
Theorem ByDecl_second_run_same_tree (node : Node) :
  (ByDecl.convert (ByDecl.convert node).1).1 = (ByDecl.convert node).1
  ∧ (ByDecl.convert (ByDecl.convert node).1).2.2 = 0.
Proof.
  assert (Hnew : ∀ (Q : Node → bool) c m,
            Q (Ident "name") = true →
            c ∈ children m ∨ c = Ident "name" →
            c ∈ children m ∨ (children c = [] ∧ Q c = true)).
  { intros Q c m HQ [H| ->]; [by left|by right]. }
  assert (∃ file,
    everywhere (fun m => declSettled m = true) (ByDecl.convert node).1
    ∧ everywhere (fun m => rangeSettled file m = true) (ByDecl.convert node).1
    ∧ (∀ name, mapTyped (ByDecl.convert node).1 name = mapTyped file name)
    ∧ everywhere (fun m => negb (isRunCallOnTcName m) = true)
        (ByDecl.convert node).1) as (file & H1 & H2 & Hm & H3);
    [|by apply (ByDecl_settled_run file)].
  unfold ByDecl.convert.
  pose proof (walk_establishes ByDecl.findTableTests declSettled
                ByDecl_findTableTests_tame ByDecl_findTableTests_settles
                (fun s n => declSettled_descend ByDecl.findTableTests
                              ByDecl_findTableTests_tame s n
                              ByDecl_findTableTests_passes)
                (ByDecl.mkState false 0) node) as D1.
  destruct (Inspect ByDecl.findTableTests _ node) as [s1 n1].
  cbn [snd] in D1. exists n1.
  pose proof (ByDecl_updateRange_passes n1) as P2.
  pose proof (ByDecl_updateRunCall_passes) as P3.
  pose proof (walk_preserves (ByDecl.updateRange n1) declSettled
                (ByDecl_updateRange_tame n1)
                (ByDecl_updateRange_declSettled n1)
                (fun s n c Hc => Hnew declSettled c n eq_refl
                                   (ByDecl_updateRange_new n1 s n c Hc))
                (fun s n => declSettled_descend (ByDecl.updateRange n1)
                              (ByDecl_updateRange_tame n1) s n (proj1 P2))
                s1 n1 D1) as D2.
  pose proof (walk_establishes (ByDecl.updateRange n1) (rangeSettled n1)
                (ByDecl_updateRange_tame n1)
                (ByDecl_updateRange_settles n1)
                (fun s n => rangeSettled_descend (ByDecl.updateRange n1) n1
                              s n (ByDecl_updateRange_tame n1))
                s1 n1) as R2.
  pose proof (fun name => walk_mapTyped (ByDecl.updateRange n1) s1 n1 name
                            (ByDecl_updateRange_tame n1) P2) as M2.
  destruct (Inspect (ByDecl.updateRange n1) s1 n1) as [s2 n2].
  cbn [snd] in D2, R2, M2.
  pose proof (walk_preserves ByDecl.updateRunCall declSettled
                ByDecl_updateRunCall_tame
                ByDecl_updateRunCall_declSettled
                (fun s n c Hc => Hnew declSettled c n eq_refl
                                   (ByDecl_updateRunCall_new s n c Hc))
                (fun s n => declSettled_descend ByDecl.updateRunCall
                              ByDecl_updateRunCall_tame s n (proj1 P3))
                s2 n2 D2) as D3.
  pose proof (walk_preserves ByDecl.updateRunCall (rangeSettled n1)
                ByDecl_updateRunCall_tame
                (ByDecl_updateRunCall_rangeSettled n1)
                (fun s n c Hc => Hnew (rangeSettled n1) c n eq_refl
                                   (ByDecl_updateRunCall_new s n c Hc))
                (fun s n => rangeSettled_descend ByDecl.updateRunCall n1
                              s n ByDecl_updateRunCall_tame)
                s2 n2 R2) as R3.
  pose proof (fun name => walk_mapTyped ByDecl.updateRunCall s2 n2 name
                            ByDecl_updateRunCall_tame P3) as M3.
  pose proof (ByDecl_updateRunCall_walk s2 n2) as C3.
  destruct (Inspect ByDecl.updateRunCall s2 n2) as [s3 n3].
  cbn [fst snd] in *.
  split; [exact D3|split; [exact R3|split; [|exact C3]]].
  intros name. rewrite M3. apply M2.
Qed.

(** * Tables, rows and the position of the name *)

Lemma rowPosition_single fields (k : nat) :
  singleNamesBefore fields k = true →
  (k ≤ length fields)%nat →
  rowPosition fields k = k.
Proof.
  unfold singleNamesBefore, rowPosition. revert k.
  induction fields as [|field rest IH]; intros [|k]; simpl; try done; try lia.
  intros [Hf Hr]%andb_true_iff Hk. apply Nat.eqb_eq in Hf.
  rewrite Hf, IH; [done|done|lia].
Qed.

(** Step 1 of the second copy on a table bound to an identifier. *)
Lemma ByAssign_convertRhs_table fields elts nameField index lhs (i : nat)
    name s :
  findNameField (StructType fields) = (nameField, index) →
  nameField ≠ "" →
  lhs !! i = Some (Ident name) →
  ByAssign.convertRhs lhs i s
    (CompositeLit (Some (ArrayType None (StructType fields))) elts)
  = (ByAssign.mkState true (int_add (ByAssign.tablesConverted s) 1)
       ({[name]} ∪ ByAssign.tableTestVars s),
     CompositeLit
       (Some (MapType (Ident "string")
                (StructType (delete (Z.to_nat index) fields))))
       (ByAssign.mapEntries index elts)).
Proof.
  intros Hfind Hname Hlhs.
  pose proof (findNameField_index _ _ _ Hfind Hname) as Hidx.
  apply String.eqb_neq in Hname.
  unfold ByAssign.convertRhs. rewrite Hfind, Hname, Hlhs.
  unfold createStructTypeWithoutField.
  destruct (Z.ltb_spec index 0); [lia|].
  by rewrite <- dropIndex_delete, Z2Nat.id by done.
Qed.

(** Step 1 of the first copy on a spec whose declared type is the slice
    type and whose only value is a composite literal. *)
Lemma ByDecl_convertSpec_table fields elts nameField index names ty s :
  findNameField (StructType fields) = (nameField, index) →
  nameField ≠ "" →
  ByDecl.convertSpec s
    (ValueSpec names (Some (ArrayType None (StructType fields)))
       [CompositeLit ty elts])
  = (ByDecl.mkState true (int_add (ByDecl.tablesConverted s) 1),
     ValueSpec names (Some (MapType (Ident "string") (StructType fields)))
       [CompositeLit (Some (MapType (Ident "string") (StructType fields)))
          (ByDecl.mapEntries index elts)]).
Proof.
  intros Hfind Hname.
  pose proof (findNameField_index _ _ _ Hfind Hname) as Hidx.
  apply String.eqb_neq in Hname.
  cbn [ByDecl.convertSpec ByDecl.convertValues].
  rewrite Hfind, Hname. unfold ByDecl.convertElementsToMapEntries.
  by destruct (Z.ltb_spec index 0); [lia|].
Qed.

Lemma findNameField_position fields nameField index :
  findNameField (StructType fields) = (nameField, index) →
  nameField ≠ "" →
  singleNamesBefore fields (Z.to_nat index) = true →
  0 ≤ index ∧ Z.of_nat (rowPosition fields (Z.to_nat index)) = index.
Proof.
  intros Hfind Hname Hsingle.
  destruct (findNameFieldFrom_found _ _ _ _ Hfind Hname)
    as (k & names & ty & -> & Hk & _).
  apply lookup_lt_Some in Hk. rewrite Z.add_0_l, Nat2Z.id in *.
  split; [lia|]. rewrite rowPosition_single; [done|done|lia].
Qed.
(** C1, amended.  A table that step 1 takes up, in whose struct no field
    declaration before the name field declares more than one name, is
    converted whatever its rows hold: its type becomes a map type keyed by
    strings; the rows that are composite literals with a basic literal at
    the position of the name become the entries, in their order, each keyed
    by that literal (in the first copy by a string-kind literal with its
    text) and holding the other values of the row; every other row is left
    out.  Step 1 takes up, in the second copy, a composite literal of the
    slice type bound alone to an identifier by [:=] or [=]; in the first
    copy, a composite literal that is the only value of the only spec of a
    [var] or [const] declaration whose declared type is the slice type. *)
Theorem nonliteral_rows_left_out (fields elts : list Node) (nameField : string)
    (index : Z) (tok dtok : token) (name : string) (s2 : ByAssign.State)
    (s1 : ByDecl.State) (names : list string) (ty : option Node) :
  findNameField (StructType fields) = (nameField, index) →
  nameField ≠ "" →
  singleNamesBefore fields (Z.to_nat index) = true →
  tok = DEFINE ∨ tok = ASSIGN →
  dtok = VAR ∨ dtok = CONST →
  (∃ entries,
     ByAssign.findTableTests s2
       (AssignStmt [Ident name] tok
          [CompositeLit (Some (ArrayType None (StructType fields))) elts])
     = (ByAssign.mkState true (int_add (ByAssign.tablesConverted s2) 1)
          ({[name]} ∪ ByAssign.tableTestVars s2),
        AssignStmt [Ident name] tok
          [CompositeLit
             (Some (MapType (Ident "string")
                      (StructType (delete (Z.to_nat index) fields))))
             entries])
     ∧ Forall2 (keyedByLiteral (rowPosition fields (Z.to_nat index)))
         (List.filter (hasNameLiteral (rowPosition fields (Z.to_nat index)))
            elts)
         entries)
  ∧ (∃ entries,
       ByDecl.findTableTests s1
         (GenDecl dtok
            [ValueSpec names (Some (ArrayType None (StructType fields)))
               [CompositeLit ty elts]])
       = (ByDecl.mkState true (int_add (ByDecl.tablesConverted s1) 1),
          GenDecl dtok
            [ValueSpec names
               (Some (MapType (Ident "string") (StructType fields)))
               [CompositeLit
                  (Some (MapType (Ident "string") (StructType fields)))
                  entries]])
       ∧ Forall2 (keyedByLiteralText (rowPosition fields (Z.to_nat index)))
           (List.filter (hasNameLiteral (rowPosition fields (Z.to_nat index)))
              elts)
           entries).
Proof.
  intros Hfind Hname Hsingle Htok Hdtok.
  destruct (findNameField_position _ _ _ Hfind Hname Hsingle) as [Hidx Hpos].
  set (position := rowPosition fields (Z.to_nat index)) in *.
  pose proof (ByAssign_mapEntries_rows position elts) as H2.
  pose proof (ByDecl_mapEntries_rows position elts) as H1.
  rewrite Hpos in H1, H2.
  split.
  - exists (ByAssign.mapEntries index elts). split; [|done].
    cbn [ByAssign.findTableTests ByAssign.convertRhsFrom].
    rewrite (ByAssign_convertRhs_table fields elts nameField index
               [Ident name] 0 name s2 Hfind Hname eq_refl).
    by destruct Htok as [-> | ->].
  - exists (ByDecl.mapEntries index elts). split; [|done].
    cbn [ByDecl.findTableTests mapS].
    rewrite (ByDecl_convertSpec_table fields elts nameField index names ty s1
               Hfind Hname).
    by destruct Hdtok as [-> | ->].
Qed.

Lemma nonliteral_rows_left_out_witness :
  (∃ entries,
     ByAssign.findTableTests (ByAssign.mkState false 0 ∅)
       (AssignStmt [Ident "tests"] DEFINE
          [CompositeLit
             (Some (ArrayType None (StructType Grouped.plainFields)))
             Grouped.plainRows])
     = (ByAssign.mkState true (int_add 0 1) ({["tests"]} ∪ ∅),
        AssignStmt [Ident "tests"] DEFINE
          [CompositeLit
             (Some (MapType (Ident "string")
                      (StructType (delete (Z.to_nat 1) Grouped.plainFields))))
             entries])
     ∧ Forall2 (keyedByLiteral (rowPosition Grouped.plainFields (Z.to_nat 1)))
         (List.filter
            (hasNameLiteral (rowPosition Grouped.plainFields (Z.to_nat 1)))
            Grouped.plainRows)
         entries)
  ∧ (∃ entries,
       ByDecl.findTableTests (ByDecl.mkState false 0)
         (GenDecl VAR
            [ValueSpec ["tests"]
               (Some (ArrayType None (StructType Grouped.plainFields)))
               [CompositeLit
                  (Some (ArrayType None (StructType Grouped.plainFields)))
                  Grouped.plainRows]])
       = (ByDecl.mkState true (int_add 0 1),
          GenDecl VAR
            [ValueSpec ["tests"]
               (Some (MapType (Ident "string")
                        (StructType Grouped.plainFields)))
               [CompositeLit
                  (Some (MapType (Ident "string")
                           (StructType Grouped.plainFields)))
                  entries]])
       ∧ Forall2
           (keyedByLiteralText (rowPosition Grouped.plainFields (Z.to_nat 1)))
           (List.filter
              (hasNameLiteral (rowPosition Grouped.plainFields (Z.to_nat 1)))
              Grouped.plainRows)
           entries).
Proof.
  apply (nonliteral_rows_left_out Grouped.plainFields Grouped.plainRows
           "name" 1 DEFINE VAR "tests" (ByAssign.mkState false 0 ∅)
           (ByDecl.mkState false 0) ["tests"]
           (Some (ArrayType None (StructType Grouped.plainFields))));
    [reflexivity | discriminate | reflexivity | by left | by left].
Defined.

(** What the two copies make of the table of the witness: the one row with
    a literal name is kept; the row named by a variable and the row written
    with field keys are left out. *)
Example plain_rows_after :
  (ByAssign.findTableTests (ByAssign.mkState false 0 ∅)
     (AssignStmt [Ident "tests"] DEFINE
        [CompositeLit (Some (ArrayType None (StructType Grouped.plainFields)))
           Grouped.plainRows])).2
  = AssignStmt [Ident "tests"] DEFINE
      [CompositeLit
         (Some (MapType (Ident "string")
                  (StructType [Field ["a"] (Ident "int")])))
         [KeyValueExpr (Samples.strLit "one")
            (CompositeLit None [Samples.intLit "1"])]].
Proof. vm_compute. reflexivity. Qed.

(** C4.  Key fidelity fails where a field declaration before the name
    field groups several names.  In [struct{a, b int; name string}]
    [findNameField] counts one declaration before [name], and step 1 uses
    that count as the position of the name in a row, where the name stands
    at position 2: the row [{1, 2, "x"}] is keyed by [2], and ["x"] stays
    among the values of the entry; in both copies. *)
Theorem key_taken_at_declaration_index :
  findNameField (StructType Grouped.fields) = ("name", 1)
  ∧ rowPosition Grouped.fields 1 = 2%nat
  ∧ (ByAssign.findTableTests (ByAssign.mkState false 0 ∅) Grouped.assign).2
    = AssignStmt [Ident "tests"] DEFINE
        [CompositeLit
           (Some (MapType (Ident "string")
                    (StructType [Field ["a"; "b"] (Ident "int")])))
           [KeyValueExpr (Samples.intLit "2")
              (CompositeLit None [Samples.intLit "1"; Samples.strLit "x"])]]
  ∧ (ByDecl.findTableTests (ByDecl.mkState false 0) Grouped.decl).2
    = GenDecl VAR
        [ValueSpec ["tests"]
           (Some (MapType (Ident "string") (StructType Grouped.fields)))
           [CompositeLit
              (Some (MapType (Ident "string") (StructType Grouped.fields)))
              [KeyValueExpr (BasicLit STRING "2")
                 (CompositeLit None
                    [Samples.intLit "1"; Samples.strLit "x"])]]].
Proof. repeat split; vm_compute; reflexivity. Qed.

(** X4.  The literal a conversion builds never has more entries than the
    table had rows, and it has as many, so that no row is lost, exactly
    when every row is a composite literal with a basic literal at the
    position that is the index [findNameField] returned for the struct, the
    number of field declarations before the name field; in both copies. *)
Theorem rows_kept_iff_all_literal (fields elts : list Node)
    (nameField : string) (index : Z) (lhs : list Node) (i : nat)
    (name : string) (s2 : ByAssign.State) (s1 : ByDecl.State)
    (names : list string) (ty : option Node) :
  findNameField (StructType fields) = (nameField, index) →
  nameField ≠ "" →
  lhs !! i = Some (Ident name) →
  (∃ mapType entries,
     (ByAssign.convertRhs lhs i s2
        (CompositeLit (Some (ArrayType None (StructType fields))) elts)).2
     = CompositeLit (Some mapType) entries
     ∧ (length entries ≤ length elts)%nat
     ∧ (length entries = length elts
        ↔ allNamesLiteral (Z.to_nat index) elts = true))
  ∧ (∃ mapType entries,
       (ByDecl.convertSpec s1
          (ValueSpec names (Some (ArrayType None (StructType fields)))
             [CompositeLit ty elts])).2
       = ValueSpec names (Some mapType) [CompositeLit (Some mapType) entries]
       ∧ (length entries ≤ length elts)%nat
       ∧ (length entries = length elts
          ↔ allNamesLiteral (Z.to_nat index) elts = true)).
Proof.
  intros Hfind Hname Hlhs.
  pose proof (findNameField_index _ _ _ Hfind Hname) as Hidx.
  pose proof (Forall2_length _ _ _
                (ByAssign_mapEntries_rows (Z.to_nat index) elts)) as H2.
  pose proof (Forall2_length _ _ _
                (ByDecl_mapEntries_rows (Z.to_nat index) elts)) as H1.
  rewrite Z2Nat.id in H1, H2 by done. unfold allNamesLiteral.
  split.
  - rewrite (ByAssign_convertRhs_table fields elts nameField index lhs i name
               s2 Hfind Hname Hlhs).
    eexists _, _. split; [done|]. rewrite <- H2. apply filter_length_all.
  - rewrite (ByDecl_convertSpec_table fields elts nameField index names ty s1
               Hfind Hname).
    eexists _, _. split; [done|]. rewrite <- H1. apply filter_length_all.
Qed.

Lemma rows_kept_iff_all_literal_witness :
  (∃ mapType entries,
     (ByAssign.convertRhs [Ident "tests"] 0 (ByAssign.mkState false 0 ∅)
        (CompositeLit (Some (ArrayType None (StructType Grouped.fields)))
           [CompositeLit None
              [Samples.intLit "1"; Ident "two"; Samples.strLit "x"]])).2
     = CompositeLit (Some mapType) entries
     ∧ (length entries
        ≤ length [CompositeLit None
                    [Samples.intLit "1"; Ident "two"; Samples.strLit "x"]])%nat
     ∧ (length entries
        = length [CompositeLit None
                    [Samples.intLit "1"; Ident "two"; Samples.strLit "x"]]
        ↔ allNamesLiteral (Z.to_nat 1)
            [CompositeLit None
               [Samples.intLit "1"; Ident "two"; Samples.strLit "x"]] = true))
  ∧ (∃ mapType entries,
       (ByDecl.convertSpec (ByDecl.mkState false 0)
          (ValueSpec ["tests"]
             (Some (ArrayType None (StructType Grouped.fields)))
             [CompositeLit None
                [CompositeLit None
                   [Samples.intLit "1"; Ident "two"; Samples.strLit "x"]]])).2
       = ValueSpec ["tests"] (Some mapType)
           [CompositeLit (Some mapType) entries]
       ∧ (length entries
          ≤ length [CompositeLit None
                      [Samples.intLit "1"; Ident "two"; Samples.strLit "x"]])%nat
       ∧ (length entries
          = length [CompositeLit None
                      [Samples.intLit "1"; Ident "two"; Samples.strLit "x"]]
          ↔ allNamesLiteral (Z.to_nat 1)
              [CompositeLit None
                 [Samples.intLit "1"; Ident "two"; Samples.strLit "x"]]
            = true)).
Proof.
  apply (rows_kept_iff_all_literal Grouped.fields
           [CompositeLit None
              [Samples.intLit "1"; Ident "two"; Samples.strLit "x"]]
           "name" 1 [Ident "tests"] 0%nat "tests"
           (ByAssign.mkState false 0 ∅) (ByDecl.mkState false 0) ["tests"]
           None);
    [reflexivity | discriminate | reflexivity].
Defined.
